(** * Agent orchestration demos: career mentor, game master, travel designer

    A shallow embedding of the three command-line programs
    [career-mentor-agent/main.py], [game-master/main.py] and
    [travel-agent/main.py], and the properties of their orchestration core:
    retry policy, tool-call loop, marker parsing, agent state machine and
    session loop.

    Text.  A Python [str] is modelled as a Rocq [string].  The string
    methods the programs use ([in], [split], [strip], [lower], [int], ...)
    are modelled exactly on ASCII text; a character above 127 is never
    white space, never a digit and is left alone by [lower] and [upper].
    The literals of the programs that hold other characters stand for
    their UTF-8 bytes.

    Exceptions.  A computation that can raise returns [Res]: [Ok v] or
    [Raise e], where [e] carries the exception class and [str(e)]. *)

From Stdlib Require Import String Ascii List ZArith Lia Bool Arith DecimalString.
Import ListNotations.
Open Scope string_scope.

(* ================================================================== *)
(** * Python values the programs rely on *)
(* ================================================================== *)

Module Py.

(** An exception object: its class name and [str(e)]. *)
Record exn := Exn { exn_class : string; exn_str : string }.

Inductive Res (A : Type) : Type :=
| Ok (a : A)
| Raise (e : exn).
Arguments Ok {A} a.
Arguments Raise {A} e.

Definition bind {A B} (m : Res A) (k : A -> Res B) : Res B :=
  match m with
  | Ok a => k a
  | Raise e => Raise e
  end.

Notation "x <- m ;; k" := (bind m (fun x => k))
  (at level 61, m at next level, right associativity).

(** [str.isspace] of one ASCII character: TAB..CR, FS..US and the space. *)
Definition isspace (c : ascii) : bool :=
  let n := nat_of_ascii c in
  (((9 <=? n) && (n <=? 13)) || ((28 <=? n) && (n <=? 32)))%nat.

(** [str.isdigit] of one ASCII character. *)
Definition isdigit (c : ascii) : bool :=
  let n := nat_of_ascii c in ((48 <=? n) && (n <=? 57))%nat.

Definition lower_char (c : ascii) : ascii :=
  let n := nat_of_ascii c in
  if ((65 <=? n) && (n <=? 90))%nat then ascii_of_nat (n + 32) else c.

Definition upper_char (c : ascii) : ascii :=
  let n := nat_of_ascii c in
  if ((97 <=? n) && (n <=? 122))%nat then ascii_of_nat (n - 32) else c.

Fixpoint smap (f : ascii -> ascii) (s : string) : string :=
  match s with
  | EmptyString => EmptyString
  | String c s' => String (f c) (smap f s')
  end.

(** [s.lower()] and [s.upper()]. *)
Definition lower (s : string) : string := smap lower_char s.
Definition upper (s : string) : string := smap upper_char s.

(** [sub in s]: [sub] occurs in [s] as a substring. *)
Fixpoint contains (sub s : string) : bool :=
  prefix sub s ||
  match s with
  | EmptyString => false
  | String _ s' => contains sub s'
  end.

Fixpoint lstrip (s : string) : string :=
  match s with
  | EmptyString => EmptyString
  | String c s' => if isspace c then lstrip s' else s
  end.

Fixpoint rstrip (s : string) : string :=
  match s with
  | EmptyString => EmptyString
  | String c s' =>
      match rstrip s' with
      | EmptyString => if isspace c then EmptyString else String c EmptyString
      | r => String c r
      end
  end.

(** [s.strip()]. *)
Definition strip (s : string) : string := rstrip (lstrip s).

(** Puts a character in front of the first piece of a split. *)
Definition cons_head (c : ascii) (l : list string) : list string :=
  match l with
  | [] => [String c EmptyString]
  | x :: xs => String c x :: xs
  end.

(** The scan of [s.split(sep)]: left to right, cutting at every occurrence
    of [sep] that does not overlap the previous one.  [skip] counts the
    characters of a matched separator still to be dropped. *)
Fixpoint split_go (sep : string) (skip : nat) (s : string) : list string :=
  match s with
  | EmptyString => [EmptyString]
  | String c s' =>
      match skip with
      | S k => split_go sep k s'
      | O =>
          if prefix sep s
          then EmptyString :: split_go sep (String.length sep - 1) s'
          else cons_head c (split_go sep 0 s')
      end
  end.

(** [s.split(sep)] for a non-empty [sep] (Python raises [ValueError] on an
    empty separator; every call of the programs passes a literal). *)
Definition split (s sep : string) : list string := split_go sep 0 s.

(** [s.split()]: the maximal runs of characters that are not white space. *)
Fixpoint split_ws (s : string) : list string :=
  match s with
  | EmptyString => []
  | String c s' =>
      if isspace c then split_ws s'
      else
        match s' with
        | EmptyString => [String c EmptyString]
        | String c' _ =>
            if isspace c' then String c EmptyString :: split_ws s'
            else cons_head c (split_ws s')
        end
  end.

(** [any(ch.isdigit() for ch in s)]. *)
Fixpoint any_isdigit (s : string) : bool :=
  match s with
  | EmptyString => false
  | String c s' => isdigit c || any_isdigit s'
  end.

(** [l[i]]: an index out of range raises [IndexError]. *)
Definition getitem {A} (l : list A) (i : nat) : Res A :=
  match nth_error l i with
  | Some a => Ok a
  | None => Raise (Exn "IndexError" "list index out of range")
  end.

(** [sep.join(l)]. *)
Fixpoint join (sep : string) (l : list string) : string :=
  match l with
  | [] => EmptyString
  | [x] => x
  | x :: xs => x ++ sep ++ join sep xs
  end.

(** The digits of an integer literal as [int] reads them: decimal digits,
    single underscores allowed between two digits.  Returns the value and
    the number of digits. *)
Fixpoint int_digits (after_digit : bool) (acc : Z) (n : nat) (s : string)
  : option (Z * nat) :=
  match s with
  | EmptyString => if after_digit then Some (acc, n) else None
  | String c s' =>
      if isdigit c
      then int_digits true (10 * acc + Z.of_nat (nat_of_ascii c - 48)) (S n) s'
      else if Ascii.eqb c "_"
      then (if after_digit then int_digits false acc n s' else None)
      else None
  end.

(** [sys.get_int_max_str_digits()], the interpreter's default. *)
Definition int_max_str_digits : nat := 4300.

Definition int_unsigned (s : string) : option Z :=
  match int_digits false 0 0 s with
  | Some (v, n) => if (n <=? int_max_str_digits)%nat then Some v else None
  | None => None
  end.

(** [int(s)] on a string: surrounding white space is dropped, one sign is
    allowed; anything else raises [ValueError], whose text quotes [s].  The
    text is the interpreter's when [s] is printed by [repr] as it stands
    between single quotes and holds no more than [int_max_str_digits]
    digits; the class of the error is [ValueError] in every case. *)
Definition int (s : string) : Res Z :=
  let t := strip s in
  let r :=
    match t with
    | String c t' =>
        if Ascii.eqb c "+" then int_unsigned t'
        else if Ascii.eqb c "-" then option_map Z.opp (int_unsigned t')
        else int_unsigned t
    | EmptyString => None
    end in
  match r with
  | Some z => Ok z
  | None =>
      Raise (Exn "ValueError"
               ("invalid literal for int() with base 10: '" ++ s ++ "'"))
  end.

(** A decoded JSON text, as [json.loads] returns it; a number is kept as
    its literal. *)
#[warnings="-register-all"]
Inductive JValue :=
| JNull
| JBool (b : bool)
| JNum (literal : string)
| JStr (s : string)
| JList (items : list JValue)
| JDict (entries : list (string * JValue)).

(** [json.loads] reads a number written without fraction and exponent as
    an [int], and any other one, NaN and Infinity included, as a
    [float]. *)
Definition is_int_literal (literal : string) : bool :=
  negb (contains "." literal || contains "e" (lower literal)
        || contains "n" (lower literal)).

(** The class name [type(v).__name__] of a decoded value. *)
Definition type_name (v : JValue) : string :=
  match v with
  | JNull => "NoneType"
  | JBool _ => "bool"
  | JNum literal => if is_int_literal literal then "int" else "float"
  | JStr _ => "str"
  | JList _ => "list"
  | JDict _ => "dict"
  end.

Fixpoint assoc (k : string) (l : list (string * JValue)) : option JValue :=
  match l with
  | [] => None
  | (k', v) :: rest => if k' =? k then Some v else assoc k rest
  end.

(** [v.get(key, default)]: only a dictionary has the method. *)
Definition get (v : JValue) (key : string) (default : JValue) : Res JValue :=
  match v with
  | JDict entries =>
      match assoc key entries with
      | Some x => Ok x
      | None => Ok default
      end
  | _ => Raise (Exn "AttributeError"
                  ("'" ++ type_name v ++ "' object has no attribute 'get'"))
  end.

End Py.

Import Py.

(* ================================================================== *)
(** * The chat-completion interface shared by the programs *)
(* ================================================================== *)

Module Chat.

(** A tool call requested by the model: [tool_call.id],
    [tool_call.function.name] and [tool_call.function.arguments] (a JSON
    text). *)
Record ToolCall := mkToolCall {
  tc_id : string;
  tc_name : string;
  tc_arguments : string
}.

(** The message dictionaries the programs put in a transcript, one
    constructor per shape of dictionary. *)
Inductive Message :=
| SystemMsg (content : string)
| UserMsg (content : string)
| AssistantMsg (content : option string)
| AssistantToolCalls (tool_calls : list ToolCall)
| ToolMsg (tool_call_id : string) (name : string) (content : string).

(** [response.choices[0].message]: [content] may be [None]; a missing
    [tool_calls] and an empty one are both falsy and both the empty list
    here. *)
Record Reply := mkReply {
  content : option string;
  tool_calls : list ToolCall
}.

(** The arguments of [chat.completions.create]; [req_tools] lists the names
    of the tools offered, [None] when none is. *)
Record Request := mkRequest {
  req_model : string;
  req_messages : list Message;
  req_tools : option (list string);
  req_max_tokens : option nat
}.

(** A computation over a mutable state [S] that may raise: the state
    survives the exception, as a Python object does. *)
Definition M (S A : Type) : Type := S -> Res A * S.

Definition ret {S A} (a : A) : M S A := fun s => (Ok a, s).

Definition raise {S A} (e : exn) : M S A := fun s => (Raise e, s).

Definition mbind {S A B} (m : M S A) (k : A -> M S B) : M S B :=
  fun s =>
    match m s with
    | (Ok a, s') => k a s'
    | (Raise e, s') => (Raise e, s')
    end.

Definition lift {S A} (r : Res A) : M S A := fun s => (r, s).

(** [try: m except Exception as e: h e]. *)
Definition try_except {S A} (m : M S A) (h : exn -> M S A) : M S A :=
  fun s =>
    match m s with
    | (Ok a, s') => (Ok a, s')
    | (Raise e, s') => h e s'
    end.

Notation "x <~ m ;; k" := (mbind m (fun x => k))
  (at level 61, m at next level, right associativity).
Notation "m ;;; k" := (mbind m (fun _ => k))
  (at level 61, right associativity).

(** The result of a loop run with a bound on its rounds: the programs'
    loops have none. *)
Inductive Run (A : Type) : Type :=
| Done (a : A)
| OutOfFuel.
Arguments Done {A} a.
Arguments OutOfFuel {A}.

End Chat.

Import Chat.

(* ================================================================== *)
(** * game-master/main.py *)
(* ================================================================== *)

Module Game.

Definition nl : string := String (ascii_of_nat 10) EmptyString.

(** [str(n)] of a Python integer. *)
Definition str_int (z : Z) : string := NilZero.string_of_int (Z.to_int z).

(** [str(x)] of a value that is a string or [None]. *)
Definition str_opt (o : option string) : string :=
  match o with
  | Some s => s
  | None => "None"
  end.

(** [class GameState]. *)
Record GameState := mkGameState {
  player_health : Z;
  player_inventory : list string;
  current_location : string;
  game_over : bool;
  combat_active : bool;
  monster : option string;
  item_discovered : option string;
  last_action : string
}.

(** [GameState.__init__]. *)
Definition GameState_init : GameState :=
  mkGameState 100 [] "Forest Entrance" false false None None "".

Definition set_player_health (v : Z) (s : GameState) : GameState :=
  mkGameState v (player_inventory s) (current_location s) (game_over s)
    (combat_active s) (monster s) (item_discovered s) (last_action s).

Definition set_player_inventory (v : list string) (s : GameState) : GameState :=
  mkGameState (player_health s) v (current_location s) (game_over s)
    (combat_active s) (monster s) (item_discovered s) (last_action s).

Definition set_current_location (v : string) (s : GameState) : GameState :=
  mkGameState (player_health s) (player_inventory s) v (game_over s)
    (combat_active s) (monster s) (item_discovered s) (last_action s).

Definition set_game_over (v : bool) (s : GameState) : GameState :=
  mkGameState (player_health s) (player_inventory s) (current_location s) v
    (combat_active s) (monster s) (item_discovered s) (last_action s).

Definition set_combat_active (v : bool) (s : GameState) : GameState :=
  mkGameState (player_health s) (player_inventory s) (current_location s)
    (game_over s) v (monster s) (item_discovered s) (last_action s).

Definition set_monster (v : option string) (s : GameState) : GameState :=
  mkGameState (player_health s) (player_inventory s) (current_location s)
    (game_over s) (combat_active s) v (item_discovered s) (last_action s).

Definition set_item_discovered (v : option string) (s : GameState) : GameState :=
  mkGameState (player_health s) (player_inventory s) (current_location s)
    (game_over s) (combat_active s) (monster s) v (last_action s).

Definition set_last_action (v : string) (s : GameState) : GameState :=
  mkGameState (player_health s) (player_inventory s) (current_location s)
    (game_over s) (combat_active s) (monster s) (item_discovered s) v.

(** The three agent objects a [GameMaster] holds. *)
Inductive Agent := NarratorAgent | MonsterAgent | ItemAgent.

(** [class GameMaster]: the shared [GameState], [current_agent] and
    [agent_name]. *)
Record GameMaster := mkGameMaster {
  state : GameState;
  current_agent : Agent;
  agent_name : string
}.

(** [GameMaster.__init__]. *)
Definition GameMaster_init : GameMaster :=
  mkGameMaster GameState_init NarratorAgent "Narrator".

(** [GameMaster.process_response]: the markers are tested in the order of
    the source, and each branch returns. *)
Definition process_response (response : string) (gm : GameMaster)
  : Res (string * GameMaster) :=
  let st := state gm in
  if contains "HANDOFF_MONSTER:" response then
    let parts := split response "HANDOFF_MONSTER:" in
    p1 <- getitem parts 1 ;;
    let st := set_combat_active true (set_monster (Some (strip p1)) st) in
    p0 <- getitem parts 0 ;;
    Ok (strip p0, mkGameMaster st MonsterAgent "Monster")
  else if contains "HANDOFF_ITEM:" response then
    let parts := split response "HANDOFF_ITEM:" in
    p1 <- getitem parts 1 ;;
    let st := set_item_discovered (Some (strip p1)) st in
    p0 <- getitem parts 0 ;;
    Ok (strip p0, mkGameMaster st ItemAgent "Item")
  else if contains "HANDOFF_NARRATOR" response then
    let parts := split response "HANDOFF_NARRATOR" in
    let st := set_item_discovered None
                (set_monster None (set_combat_active false st)) in
    let gm' := mkGameMaster st NarratorAgent "Narrator" in
    if (1 <? List.length parts)%nat
    then p0 <- getitem parts 0 ;; Ok (strip p0, gm')
    else Ok (response, gm')
  else if contains "UPDATE_LOCATION:" response then
    let parts := split response "UPDATE_LOCATION:" in
    p1 <- getitem parts 1 ;;
    let st := set_current_location (strip p1) st in
    p0 <- getitem parts 0 ;;
    Ok (strip p0, mkGameMaster st (current_agent gm) (agent_name gm))
  else if contains "DAMAGE_PLAYER:" response then
    let parts := split response "DAMAGE_PLAYER:" in
    p1 <- getitem parts 1 ;;
    damage <- int (strip p1) ;;
    let st := set_player_health (player_health st - damage) st in
    let st :=
      if (player_health st <=? 0)%Z
      then set_game_over true (set_player_health 0 st)
      else st in
    p0 <- getitem parts 0 ;;
    Ok (strip p0, mkGameMaster st (current_agent gm) (agent_name gm))
  else if contains "HEAL_PLAYER:" response then
    let parts := split response "HEAL_PLAYER:" in
    p1 <- getitem parts 1 ;;
    heal <- int (strip p1) ;;
    let st := set_player_health (player_health st + heal) st in
    p0 <- getitem parts 0 ;;
    Ok (strip p0, mkGameMaster st (current_agent gm) (agent_name gm))
  else if contains "ADD_ITEM:" response then
    let parts := split response "ADD_ITEM:" in
    p1 <- getitem parts 1 ;;
    let st := set_player_inventory (player_inventory st ++ [strip p1])%list st in
    p0 <- getitem parts 0 ;;
    Ok (strip p0, mkGameMaster st (current_agent gm) (agent_name gm))
  else Ok (response, gm).

(** ** The agents and the tool-call loop *)

Section Agents.

(** What the program reaches outside itself: the completion endpoint and
    the random generator behind the dice live in [World]; [json_loads] is
    [json.loads], which raises on a text that is not JSON; [roll_dice] and
    [generate_event] are the two tools called with the decoded arguments
    (unpacking them raises when they are not a dictionary). *)
Variable World : Type.
Variable json_loads : string -> Res JValue.
Variable create : Request -> M World Reply.
Variable roll_dice : JValue -> M World string.
Variable generate_event : JValue -> M World string.

Definition system_message (a : Agent) : string :=
  match a with
  | NarratorAgent =>
      "You are the narrator of a fantasy adventure game. Describe the environment, progress the story, " ++
      "and respond to player actions. Use tools for game mechanics. When combat starts, output exactly: " ++
      "'HANDOFF_MONSTER: [monster name]'. When an item is discovered, output exactly: 'HANDOFF_ITEM: [item name]'."
  | MonsterAgent =>
      "You handle combat encounters. Describe monster actions, calculate damage using dice rolls, " ++
      "and manage combat mechanics. Hand back to NarratorAgent when combat ends by outputting exactly: " ++
      "'HANDOFF_NARRATOR'. Use dice roll tool for combat mechanics."
  | ItemAgent =>
      "You handle item discovery and inventory management. Describe discovered items, manage player inventory. " ++
      "Hand back to NarratorAgent when done by outputting exactly: 'HANDOFF_NARRATOR'."
  end.

(** [self.tools], by tool name. *)
Definition tools (a : Agent) : list string :=
  match a with
  | NarratorAgent => ["roll_dice"; "generate_event"]
  | MonsterAgent => ["roll_dice"]
  | ItemAgent => []
  end.

Definition inventory_text (inv : list string) : string :=
  match inv with
  | [] => "Empty"
  | _ => join ", " inv
  end.

Definition _get_state_info (a : Agent) (st : GameState) : string :=
  match a with
  | NarratorAgent =>
      "Location: " ++ current_location st ++ nl ++
      "Health: " ++ str_int (player_health st) ++ " HP" ++ nl ++
      "Inventory: " ++ inventory_text (player_inventory st) ++ nl ++
      "Last Action: " ++ last_action st
  | MonsterAgent =>
      "Combat with: " ++ str_opt (monster st) ++ nl ++
      "Player Health: " ++ str_int (player_health st) ++ " HP" ++ nl ++
      "Last Action: " ++ last_action st
  | ItemAgent =>
      "Discovered Item: " ++ str_opt (item_discovered st) ++ nl ++
      "Player Inventory: " ++ inventory_text (player_inventory st)
  end.

(** The body of [for tool_call in message.tool_calls] up to [result]. *)
Definition call_tool (tool_call : ToolCall) : M World string :=
  let function_name := tc_name tool_call in
  function_args <~ lift (json_loads (tc_arguments tool_call)) ;;
  if function_name =? "roll_dice" then roll_dice function_args
  else if function_name =? "generate_event" then generate_event function_args
  else ret ("Error: Unknown function " ++ function_name).

(** The [for] loop of [_process_tool_calls]: one tool message appended per
    tool call.  [messages] is the list the loop appends to; when a call
    raises, the exception leaves [_process_tool_calls] and the list with
    it. *)
Fixpoint run_tool_calls (tcs : list ToolCall) (messages : list Message)
  : M World (list Message) :=
  match tcs with
  | [] => ret messages
  | tool_call :: rest =>
      result <~ call_tool tool_call ;;
      run_tool_calls rest
        (messages ++ [ToolMsg (tc_id tool_call) (tc_name tool_call) result])%list
  end.

(** One round that carries tool calls: the assistant message, then the
    tool messages. *)
Definition tool_round (tcs : list ToolCall) (messages : list Message)
  : M World (list Message) :=
  run_tool_calls tcs (messages ++ [AssistantToolCalls tcs])%list.

Definition offered (a : Agent) : option (list string) :=
  match tools a with
  | [] => None
  | ts => Some ts
  end.

(** [BaseAgent._process_tool_calls]: the [while True] loop, run for at most
    [fuel] rounds.  It returns [message.content] and, beside it, the list
    [messages] as the loop left it. *)
Fixpoint _process_tool_calls (fuel : nat) (a : Agent) (messages : list Message)
  : M World (Run (option string * list Message)) :=
  match fuel with
  | O => ret OutOfFuel
  | S fuel' =>
      response <~ create (mkRequest "google/gemini-2.0-flash-001" messages
                            (offered a) None) ;;
      match tool_calls response with
      | [] => ret (Done (content response, messages))
      | tcs =>
          messages' <~ tool_round tcs messages ;;
          _process_tool_calls fuel' a messages'
      end
  end.

(** [BaseAgent.generate_response]. *)
Definition generate_response (fuel : nat) (a : Agent) (st : GameState)
  (player_input : string) : M World (Run (option string)) :=
  let state_info := _get_state_info a st in
  let full_input := state_info ++ nl ++ nl ++ "Player: " ++ player_input in
  let messages := [SystemMsg (system_message a); UserMsg full_input] in
  r <~ _process_tool_calls fuel a messages ;;
  match r with
  | Done (text, _) => ret (Done text)
  | OutOfFuel => ret OutOfFuel
  end.

(** How one pass through the body of the game loop ends: [break] on quit,
    [break] on defeat, or on to the next pass.  [shown] is the response line
    printed. *)
Inductive Turn :=
| Quit
| Defeated (gm : GameMaster) (shown : string)
| Continue (gm : GameMaster) (shown : string).

(** The body of the [while] loop of [start_game], given the line that
    [input] returned. *)
Definition game_turn (fuel : nat) (line : string) (gm : GameMaster)
  : M World (Run Turn) :=
  let user_input := strip line in
  if lower user_input =? "quit" then ret (Done Quit)
  else
    let gm := mkGameMaster (set_last_action user_input (state gm))
                (current_agent gm) (agent_name gm) in
    r <~ generate_response fuel (current_agent gm) (state gm) user_input ;;
    match r with
    | OutOfFuel => ret OutOfFuel
    | Done None =>
        raise (Exn "TypeError" "argument of type 'NoneType' is not iterable")
    | Done (Some response) =>
        pr <~ lift (process_response response gm) ;;
        let '(processed_response, gm') := pr in
        let shown := agent_name gm' ++ ": " ++ processed_response in
        if (player_health (state gm') <=? 0)%Z
        then ret (Done (Defeated gm' shown))
        else ret (Done (Continue gm' shown))
    end.

(** The [while not self.state.game_over] loop over the lines typed; [input]
    raises [EOFError] when there is none left.  The result is the response
    lines printed (the banner, the status panel and the prompt are left
    out); returning it is the normal end of the process (exit code 0), an
    exception that escapes ends it with a traceback. *)
Fixpoint game_loop (fuel : nat) (lines : list string) (gm : GameMaster)
  (out : list string) : M World (Run (list string)) :=
  if game_over (state gm) then ret (Done out)
  else
    match lines with
    | [] => raise (Exn "EOFError" "EOF when reading a line")
    | line :: rest =>
        r <~ game_turn fuel line gm ;;
        match r with
        | OutOfFuel => ret OutOfFuel
        | Done Quit => ret (Done (out ++ ["Thanks for playing!"])%list)
        | Done (Defeated _ shown) =>
            ret (Done (out ++ [shown; "Game Over! You have been defeated."])%list)
        | Done (Continue gm' shown) => game_loop fuel rest gm' (out ++ [shown])%list
        end
    end.

(** [GameMaster.start_game]. *)
Definition start_game (fuel : nat) (lines : list string) (gm : GameMaster)
  : M World (Run (list string)) :=
  r <~ generate_response fuel NarratorAgent (state gm) "Begin the adventure" ;;
  match r with
  | OutOfFuel => ret OutOfFuel
  | Done response =>
      game_loop fuel lines gm ["Narrator: " ++ str_opt response]
  end.

End Agents.

End Game.

(* ================================================================== *)
(** * career-mentor-agent/main.py *)
(* ================================================================== *)

Module Career.

Definition nl : string := Game.nl.

(** The table of [get_career_roadmap], in the order the dictionary is
    written (the order its keys are iterated in). *)
Definition roadmaps : list (string * list string) :=
  [ ("Software Engineer",
      ["1. Programming fundamentals (Python/Java)";
       "2. Data structures & algorithms";
       "3. Version control (Git)";
       "4. Software design patterns";
       "5. Cloud computing basics";
       "6. CI/CD pipelines"]);
    ("Web Developer",
      ["1. HTML, CSS, JavaScript fundamentals";
       "2. Git & GitHub version control";
       "3. Frontend Frameworks (React, Next.js)";
       "4. Backend Development (Node.js, Express)";
       "5. Databases (MongoDB, PostgreSQL)";
       "6. Deployment (Vercel, Netlify)"]);
    ("Data Scientist",
      ["1. Python, Pandas, NumPy";
       "2. Data Visualization (Matplotlib, Seaborn)";
       "3. Machine Learning (scikit-learn, TensorFlow)";
       "4. SQL for data querying";
       "5. Statistical Analysis";
       "6. Model Deployment"]);
    ("UX Designer",
      ["1. User Research Methods";
       "2. Wireframing & Prototyping";
       "3. UI Design Principles";
       "4. Design Tools (Figma, Sketch)";
       "5. Usability Testing";
       "6. Interaction Design"]);
    ("Cybersecurity Analyst",
      ["1. Network Security Fundamentals";
       "2. Security Protocols & Cryptography";
       "3. Ethical Hacking Techniques";
       "4. Security Compliance Standards";
       "5. Incident Response";
       "6. Threat Intelligence"]) ].

(** [get_career_roadmap]. *)
Definition get_career_roadmap (career : string) : string :=
  let normalized_career := lower career in
  match find (fun kv => lower (fst kv) =? normalized_career) roadmaps with
  | Some (key, steps) => "📚 " ++ key ++ " Skill Roadmap:" ++ nl ++ join nl steps
  | None => "⚠️ No roadmap available for " ++ career
  end.

(** The keys of [self.agents]. *)
Inductive AgentKey := career | skill | job.

(** [class CareerMentor]: [current_agent], the two entries of [context],
    and [awaiting_selection]. *)
Record CareerMentor := mkCareerMentor {
  current_agent : AgentKey;
  context_career : option string;
  context_recommendations : list string;
  awaiting_selection : bool
}.

(** [CareerMentor.__init__]. *)
Definition CareerMentor_init : CareerMentor :=
  mkCareerMentor career None [] false.

Definition bullet_list (l : list string) : string :=
  join nl (map (fun c => "- " ++ c) l).

(** The reply of [_career_agent] when no option matches the input. *)
Definition reprompt (options : list string) : string :=
  "⚠️ Please select a career from the recommendations:" ++ nl ++
  bullet_list options ++
  nl ++ nl ++ "Or describe your interests for new suggestions.".

(** [CareerMentor._career_agent]. *)
Definition _career_agent (user_input : string) (m : CareerMentor)
  : string * CareerMentor :=
  if awaiting_selection m then
    let normalized_input := lower user_input in
    match find (fun c => contains (lower c) normalized_input)
               (context_recommendations m) with
    | Some c =>
        ("🚀 Great choice! Exploring " ++ c ++ " now...",
         mkCareerMentor skill (Some c) (context_recommendations m) false)
    | None => (reprompt (context_recommendations m), m)
    end
  else
    let interests := lower user_input in
    let careers :=
      if contains "data" interests || contains "stat" interests
         || contains "analy" interests
      then ["Data Scientist"; "Data Analyst"]
      else if contains "design" interests || contains "ui" interests
              || contains "ux" interests || contains "interface" interests
      then ["UX Designer"; "Product Designer"]
      else if contains "security" interests || contains "cyber" interests
              || contains "hack" interests
      then ["Cybersecurity Analyst"; "Security Engineer"]
      else if contains "web" interests || contains "front" interests
              || contains "back" interests
      then ["Web Developer"; "Frontend Developer"; "Backend Developer"]
      else ["Software Engineer"; "Full Stack Developer"] in
    ("🔍 Based on your interests, I recommend:" ++ nl ++
     bullet_list careers ++
     nl ++ nl ++ "Please type the name of a career to explore further",
     mkCareerMentor (current_agent m) (context_career m) careers true).

(** What [career.lower()] raises when [self.context["career"]] is [None]. *)
Definition no_lower : exn :=
  Exn "AttributeError" "'NoneType' object has no attribute 'lower'".

(** [CareerMentor._skill_agent]. *)
Definition _skill_agent (m : CareerMentor) : Res string :=
  match context_career m with
  | None => Raise no_lower
  | Some c =>
      let roadmap := get_career_roadmap c in
      Ok (roadmap ++ nl ++ nl ++ "Type 'jobs' to see career opportunities")
  end.

(** An entry of [job_data]. *)
Record JobData := mkJobData {
  roles : list string;
  salary : string;
  demand : string
}.

Definition job_data : list (string * JobData) :=
  [ ("Software Engineer",
      mkJobData ["Frontend Developer"; "Backend Developer"; "Full Stack Engineer"; "DevOps Engineer"]
        "$80k-$160k" "High across all industries");
    ("Web Developer",
      mkJobData ["Frontend Developer"; "Backend Developer"; "Full Stack Developer"]
        "$70k-$140k" "Strong in tech and e-commerce");
    ("Data Scientist",
      mkJobData ["Data Analyst"; "Machine Learning Engineer"; "Business Intelligence Specialist"]
        "$90k-$170k" "Growing in tech/finance/healthcare");
    ("UX Designer",
      mkJobData ["UI Designer"; "UX Researcher"; "Product Designer"]
        "$75k-$140k" "Strong in tech/e-commerce");
    ("Cybersecurity Analyst",
      mkJobData ["Security Analyst"; "Penetration Tester"; "Security Architect"]
        "$90k-$150k" "High in finance/government/tech") ].

(** [CareerMentor._job_agent]. *)
Definition _job_agent (m : CareerMentor) : Res string :=
  match context_career m with
  | None => Raise no_lower
  | Some c =>
      let normalized_career := lower c in
      let '(matched_career, data) :=
        match find (fun kv => lower (fst kv) =? normalized_career) job_data with
        | Some kv => kv
        | None =>
            ("Technology Professional",
             mkJobData ["Various technical roles"]
               "$70k-$160k (varies by experience)"
               "Strong in technology sector")
        end in
      Ok ("💼 Job Market for " ++ matched_career ++ ":" ++ nl ++
          "Common Roles: " ++ join ", " (roles data) ++ nl ++
          "Salary Range: " ++ salary data ++ nl ++
          "Market Demand: " ++ demand data ++ nl ++ nl ++
          "Type 'new' to explore another career")
  end.

(** [CareerMentor._handle_agent_handoff]. *)
Definition _handle_agent_handoff (user_input : string) (m : CareerMentor)
  : CareerMentor :=
  let user_input := lower user_input in
  let selected :=
    match current_agent m, awaiting_selection m with
    | career, true =>
        find (fun c => contains (lower c) user_input) (context_recommendations m)
    | _, _ => None
    end in
  match selected with
  | Some c => mkCareerMentor skill (Some c) (context_recommendations m) false
  | None =>
      match current_agent m with
      | skill =>
          if contains "job" user_input || contains "opportunit" user_input
          then mkCareerMentor job (context_career m)
                 (context_recommendations m) (awaiting_selection m)
          else m
      | job =>
          if contains "new" user_input
          then mkCareerMentor career None (context_recommendations m) false
          else m
      | career => m
      end
  end.

(** [CareerMentor.run]. *)
Definition run (user_input : string) (m : CareerMentor)
  : Res (string * CareerMentor) :=
  let m := _handle_agent_handoff user_input m in
  match current_agent m with
  | career => Ok (_career_agent user_input m)
  | skill => r <- _skill_agent m ;; Ok (r, m)
  | job => r <- _job_agent m ;; Ok (r, m)
  end.

(** How one pass through the body of the main loop ends. *)
Inductive Turn :=
| Quit
| Continue (m : CareerMentor) (shown : string).

(** The body of the [while True] loop of the main program, given the line
    that [input] returned. *)
Definition mentor_turn (line : string) (m : CareerMentor) : Res Turn :=
  let user_input := strip line in
  if existsb (String.eqb (lower user_input)) ["exit"; "quit"]
  then Ok Quit
  else
    r <- run user_input m ;;
    let '(response, m') := r in
    Ok (Continue m' (nl ++ "Mentor: " ++ response ++ nl)).

(** The main loop over the lines typed; [input] raises [EOFError] when none
    is left.  The result is what the loop printed, and returning it is the
    normal end of the process (exit code 0). *)
Fixpoint main_loop (lines : list string) (m : CareerMentor) (out : list string)
  : Res (list string) :=
  match lines with
  | [] => Raise (Exn "EOFError" "EOF when reading a line")
  | line :: rest =>
      t <- mentor_turn line m ;;
      match t with
      | Quit => Ok (out ++ ["Goodbye! 👋"])%list
      | Continue m' shown => main_loop rest m' (out ++ [shown])%list
      end
  end.

End Career.

(* ================================================================== *)
(** * travel-agent/main.py *)
(* ================================================================== *)

Module Travel.

Definition nl : string := Game.nl.

(** ** Mock data generators *)

Definition get_flights (origin destination date : JValue) : JValue :=
  JList
    [ JDict [("airline", JStr "Delta"); ("flight_number", JStr "DL123");
             ("departure", JStr "08:00 AM"); ("price", JStr "$350")];
      JDict [("airline", JStr "United"); ("flight_number", JStr "UA456");
             ("departure", JStr "11:30 AM"); ("price", JStr "$420")];
      JDict [("airline", JStr "American"); ("flight_number", JStr "AA789");
             ("departure", JStr "03:15 PM"); ("price", JStr "$390")] ].

Definition suggest_hotels (destination check_in check_out : JValue) : JValue :=
  JList
    [ JDict [("name", JStr "Grand Plaza Hotel"); ("rating", JNum "4.5");
             ("price", JStr "$120/night");
             ("amenities", JList [JStr "Pool"; JStr "Spa"; JStr "Free WiFi"])];
      JDict [("name", JStr "Harbor View Inn"); ("rating", JNum "4.2");
             ("price", JStr "$95/night");
             ("amenities", JList [JStr "Beach Access"; JStr "Breakfast"])];
      JDict [("name", JStr "City Center Suites"); ("rating", JNum "4.0");
             ("price", JStr "$110/night");
             ("amenities", JList [JStr "Gym"; JStr "Restaurant"])] ].

Definition get_attractions (destination : JValue) : JValue :=
  JList
    [ JDict [("name", JStr "Historic Downtown"); ("type", JStr "Cultural");
             ("duration", JStr "3-4 hours")];
      JDict [("name", JStr "Nature Reserve Park"); ("type", JStr "Outdoor");
             ("duration", JStr "Half day")];
      JDict [("name", JStr "Art Museum"); ("type", JStr "Indoor");
             ("duration", JStr "2-3 hours")] ].

Definition get_restaurants (destination : JValue) : JValue :=
  JList
    [ JDict [("name", JStr "Seafood Haven"); ("cuisine", JStr "Seafood");
             ("price_range", JStr "$$$"); ("rating", JNum "4.7")];
      JDict [("name", JStr "Mountain View Bistro"); ("cuisine", JStr "International");
             ("price_range", JStr "$$"); ("rating", JNum "4.5")];
      JDict [("name", JStr "Local Bites"); ("cuisine", JStr "Traditional");
             ("price_range", JStr "$"); ("rating", JNum "4.3")] ].

(** The names of the tools of [get_openai_tools]. *)
Definition all_tools : list string :=
  ["get_flights"; "suggest_hotels"; "get_attractions"; "get_restaurants"].

(** ** Agent definitions *)

Inductive Agent := destination_agent | booking_agent | explore_agent.

Definition agent_name (a : Agent) : string :=
  match a with
  | destination_agent => "Destination Specialist"
  | booking_agent => "Booking Specialist"
  | explore_agent => "Exploration Specialist"
  end.

Definition instructions (a : Agent) : string :=
  match a with
  | destination_agent =>
      "Suggest travel destinations based on mood or interests. " ++
      "Analyze user preferences and recommend exactly ONE suitable location. " ++
      "Your response should ONLY contain the destination name in the format: 'Destination: [CITY NAME]'."
  | booking_agent =>
      "Handle travel bookings. Use the following defaults: " ++
      "Origin city: 'New York', Departure date: 7 days from today, " ++
      "Return date: 14 days from today. " ++
      "Use tools to find flights and hotels. " ++
      "When bookings are complete, say: 'BOOKINGS COMPLETE'."
  | explore_agent =>
      "Suggest attractions and restaurants. " ++
      "Use tools to find points of interest and dining options. " ++
      "Provide comprehensive exploration plans."
  end.

Definition agent_tools (a : Agent) : list string :=
  match a with
  | destination_agent => []
  | booking_agent => all_tools
  | explore_agent => all_tools
  end.

(** [handoff_to_agent]: [messages[0]] is replaced, the handoff message
    appended; the next agent is returned by the caller. *)
Definition handoff_to_agent (messages : list Message) (next_agent : Agent)
  (handoff_message : string) : Res (list Message) :=
  match messages with
  | [] => Raise (Exn "IndexError" "list assignment index out of range")
  | _ :: rest =>
      Ok ((SystemMsg (instructions next_agent) :: rest) ++ [UserMsg handoff_message])%list
  end.

(** ** The travel coordinator *)

(** [class TravelDesigner]; [debug] and the log lines it prints are left
    out.  [full_plan] holds the pairs (agent name, response). *)
Record TravelDesigner := mkTravelDesigner {
  messages : list Message;
  current_agent : Agent;
  user_preferences : list (string * string);
  max_retries : nat;
  retry_delay : Z;
  model : string;
  full_plan : list (string * option string)
}.

(** [TravelDesigner.__init__]. *)
Definition TravelDesigner_init : TravelDesigner :=
  mkTravelDesigner [] destination_agent [] 5 30 "anthropic/claude-3-haiku" [].

Definition set_messages (v : list Message) (d : TravelDesigner) : TravelDesigner :=
  mkTravelDesigner v (current_agent d) (user_preferences d) (max_retries d)
    (retry_delay d) (model d) (full_plan d).

Definition set_current_agent (v : Agent) (d : TravelDesigner) : TravelDesigner :=
  mkTravelDesigner (messages d) v (user_preferences d) (max_retries d)
    (retry_delay d) (model d) (full_plan d).

Definition set_user_preferences (v : list (string * string)) (d : TravelDesigner)
  : TravelDesigner :=
  mkTravelDesigner (messages d) (current_agent d) v (max_retries d)
    (retry_delay d) (model d) (full_plan d).

Definition set_full_plan (v : list (string * option string)) (d : TravelDesigner)
  : TravelDesigner :=
  mkTravelDesigner (messages d) (current_agent d) (user_preferences d)
    (max_retries d) (retry_delay d) (model d) v.

(** [d[k] = v] on a dictionary kept as an association list. *)
Fixpoint dict_set (k v : string) (d : list (string * string))
  : list (string * string) :=
  match d with
  | [] => [(k, v)]
  | (k', v') :: rest =>
      if k' =? k then (k, v) :: rest else (k', v') :: dict_set k v rest
  end.

(** What the outside sees of a run: each call of the completion endpoint
    and each [time.sleep], in order. *)
Inductive Event :=
| Called (req : Request)
| Slept (delay : Z).

(** The largest delay [time.sleep] converts to its nanosecond clock. *)
Definition sleep_limit : Z := 9223372036.

(** [TravelDesigner.extract_destination]. *)
Definition extract_destination (message : option string) : Res (option string) :=
  match message with
  | None => Ok None
  | Some EmptyString => Ok None
  | Some message =>
      let lines :=
        map strip
          (filter (fun line => negb (strip line =? "")) (split message nl)) in
      let fallback :=
        match lines with
        | first :: _ =>
            if (List.length (split_ws first) <=? 3)%nat && negb (any_isdigit first)
            then Ok (Some first)
            else Ok (Some message)
        | [] => Ok (Some message)
        end in
      if contains "Destination:" message then
        let parts := split message "Destination:" in
        if (1 <? List.length parts)%nat then
          p1 <- getitem parts 1 ;;
          l0 <- getitem (split p1 nl) 0 ;;
          Ok (Some (strip l0))
        else fallback
      else fallback
  end.

(** [TravelDesigner.format_final_plan]; concatenating a response that is
    [None] raises. *)
Fixpoint format_parts (parts : list (string * option string)) (formatted : string)
  : Res string :=
  match parts with
  | [] => Ok formatted
  | (agent, response) :: rest =>
      let formatted := formatted ++ "=== " ++ agent ++ " ===" ++ nl in
      match response with
      | Some r => format_parts rest (formatted ++ r ++ nl ++ nl)
      | None =>
          Raise (Exn "TypeError"
                   "unsupported operand type(s) for +: 'NoneType' and 'str'")
      end
  end.

Definition format_final_plan (d : TravelDesigner) : Res string :=
  match full_plan d with
  | [] => Ok "No travel plan generated."
  | parts => format_parts parts ("✈️ Your Personalized Travel Plan ✈️" ++ nl ++ nl)
  end.

(** ** Calls to the outside *)

Section Run.

(** The completion endpoint lives in [World]; [json_loads] and [json_dumps]
    are [json.loads] and [json.dumps]; [departure_date] and [return_date]
    are the ISO dates 7 and 14 days from today. *)
Variable World : Type.
Variable create : Request -> M World Reply.
Variable json_loads : string -> Res JValue.
Variable json_dumps : JValue -> string.
Variable departure_date : string.
Variable return_date : string.

(** The designer, the world it talks to, and what it did to it so far. *)
Record Machine := mkMachine {
  self : TravelDesigner;
  world : World;
  trace : list Event
}.

Definition get_self : M Machine TravelDesigner :=
  fun m => (Ok (self m), m).

Definition modify_self (f : TravelDesigner -> TravelDesigner) : M Machine unit :=
  fun m => (Ok tt, mkMachine (f (self m)) (world m) (trace m)).

(** [self.client.chat.completions.create(...)]. *)
Definition client_create (req : Request) : M Machine Reply :=
  fun m =>
    let '(r, w) := create req (world m) in
    (r, mkMachine (self m) w (trace m ++ [Called req])%list).

(** [time.sleep(delay)]: a negative delay and one too large for the clock
    raise; otherwise the process sleeps. *)
Definition time_sleep (delay : Z) : M Machine unit :=
  if (delay <? 0)%Z
  then raise (Exn "ValueError" "sleep length must be non-negative")
  else if (sleep_limit <? delay)%Z
  then raise (Exn "OverflowError" "timestamp too large to convert to C PyTime_t")
  else fun m => (Ok tt, mkMachine (self m) (world m) (trace m ++ [Slept delay])%list).

(** The test of [handle_rate_limit] on the text of an error. *)
Definition is_transient (error : string) : bool :=
  contains "quota" (lower error) || contains "rate" (lower error)
  || contains "credit" (lower error).

(** [TravelDesigner.handle_rate_limit]. *)
Definition handle_rate_limit (error : string) (attempt : nat) : M Machine bool :=
  d <~ get_self ;;
  if is_transient error then
    let delay := (retry_delay d * 2 ^ Z.of_nat attempt)%Z in
    time_sleep delay ;;;
    ret true
  else ret false.

(** The request [call_openai] sends. *)
Definition request_of (d : TravelDesigner) : Request :=
  mkRequest (model d) (messages d)
    (match agent_tools (current_agent d) with
     | [] => None
     | _ => Some all_tools
     end)
    (Some 1024%nat).

(** The [for attempt in range(self.max_retries)] loop of [call_openai],
    from [attempt] on with [remaining] attempts left. *)
Fixpoint call_openai_from (remaining attempt : nat) : M Machine Reply :=
  match remaining with
  | O => raise (Exn "Exception" "Max retries exceeded for API call")
  | S remaining' =>
      d <~ get_self ;;
      try_except (client_create (request_of d))
        (fun e =>
           if (attempt <? max_retries d - 1)%nat then
             again <~ handle_rate_limit (exn_str e) attempt ;;
             if again then call_openai_from remaining' (S attempt)
             else raise e
           else raise e)
  end.

(** [TravelDesigner.call_openai]. *)
Definition call_openai : M Machine Reply :=
  d <~ get_self ;;
  call_openai_from (max_retries d) 0.

(** The [try] block of [process_tool_calls] for one call: the value put in
    [output]. *)
Definition tool_output (function_name : string) (arguments : JValue) : JValue :=
  let attempt : Res JValue :=
    if function_name =? "get_flights" then
      origin <- get arguments "origin" (JStr "New York") ;;
      destination <- get arguments "destination" (JStr "Unknown") ;;
      date <- get arguments "date" (JStr departure_date) ;;
      Ok (get_flights origin destination date)
    else if function_name =? "suggest_hotels" then
      destination <- get arguments "destination" (JStr "Unknown") ;;
      check_in <- get arguments "check_in" (JStr departure_date) ;;
      check_out <- get arguments "check_out" (JStr return_date) ;;
      Ok (suggest_hotels destination check_in check_out)
    else if function_name =? "get_attractions" then
      destination <- get arguments "destination" (JStr "Unknown") ;;
      Ok (get_attractions destination)
    else if function_name =? "get_restaurants" then
      destination <- get arguments "destination" (JStr "Unknown") ;;
      Ok (get_restaurants destination)
    else Ok (JStr "Tool not available") in
  match attempt with
  | Ok output => output
  | Raise e => JStr ("Tool error: " ++ exn_str e)
  end.

(** The [for] loop of [process_tool_calls], appending to [tool_outputs]. *)
Fixpoint process_tool_calls_from (tool_calls : list ToolCall)
  (tool_outputs : list Message) : Res (list Message) :=
  match tool_calls with
  | [] => Ok tool_outputs
  | tool_call :: rest =>
      arguments <- json_loads (tc_arguments tool_call) ;;
      let output := tool_output (tc_name tool_call) arguments in
      process_tool_calls_from rest
        (tool_outputs ++
         [ToolMsg (tc_id tool_call) (tc_name tool_call) (json_dumps output)])%list
  end.

(** [TravelDesigner.process_tool_calls]. *)
Definition process_tool_calls (tool_calls : list ToolCall) : Res (list Message) :=
  process_tool_calls_from tool_calls [].

(** How one pass through the [while True] loop of [process_request] ends:
    [return] or [continue]. *)
Inductive Step :=
| Return (text : string)
| Again.

(** [if not x] on a value that is a string or [None]. *)
Definition falsy (x : option string) : bool :=
  match x with
  | None => true
  | Some s => s =? ""
  end.

Definition handoff (next_agent : Agent) (handoff_message : string) : M Machine unit :=
  d <~ get_self ;;
  msgs <~ lift (handoff_to_agent (messages d) next_agent handoff_message) ;;
  modify_self (fun d => set_current_agent next_agent (set_messages msgs d)).

(** The [try] block of [process_request] after [call_openai] returned
    [response_message]. *)
Definition handle_reply (response_message : Reply) : M Machine Step :=
  match tool_calls response_message with
  | (_ :: _) as tool_calls =>
      modify_self (fun d =>
        set_messages (messages d ++ [AssistantToolCalls tool_calls])%list d) ;;;
      tool_outputs <~ lift (process_tool_calls tool_calls) ;;
      modify_self (fun d => set_messages (messages d ++ tool_outputs)%list d) ;;;
      ret Again
  | [] =>
      let assistant_reply := content response_message in
      modify_self (fun d =>
        set_messages (messages d ++ [AssistantMsg assistant_reply])%list d) ;;;
      modify_self (fun d =>
        set_full_plan
          (full_plan d ++ [(agent_name (current_agent d), assistant_reply)])%list d) ;;;
      d <~ get_self ;;
      match current_agent d with
      | destination_agent =>
          destination <~ lift (extract_destination assistant_reply) ;;
          if falsy destination
          then ret (Return "❌ Error: Could not determine destination")
          else
            let dest := match destination with Some x => x | None => "" end in
            modify_self (fun d =>
              set_user_preferences
                (dict_set "destination" dest (user_preferences d)) d) ;;;
            let handoff_msg :=
              "Destination confirmed: " ++ dest ++ nl ++
              "Origin: New York" ++ nl ++
              "Departure Date: " ++ departure_date ++ nl ++
              "Return Date: " ++ return_date ++ nl ++
              "Please book flights and hotels." in
            handoff booking_agent handoff_msg ;;;
            ret Again
      | booking_agent =>
          let complete :=
            match assistant_reply with
            | Some r => negb (r =? "") && contains "BOOKINGS COMPLETE" (upper r)
            | None => false
            end in
          if complete then
            handoff explore_agent
              "Bookings complete. Please suggest attractions and restaurants." ;;;
            ret Again
          else
            d <~ get_self ;;
            text <~ lift (format_final_plan d) ;;
            ret (Return text)
      | explore_agent =>
          d <~ get_self ;;
          text <~ lift (format_final_plan d) ;;
          ret (Return text)
      end
  end.

(** The [except Exception as e] clause of [process_request]. *)
Definition on_error (e : exn) : M Machine Step :=
  if contains "402" (exn_str e) || contains "credit" (lower (exn_str e))
  then ret (Return ("❌ Error: Insufficient credits on OpenRouter. " ++
                    "Please upgrade your account at https://openrouter.ai/settings/credits"))
  else ret (Return ("❌ Error: " ++ exn_str e)).

(** One pass through the loop of [process_request]. *)
Definition process_step : M Machine Step :=
  try_except (response <~ call_openai ;; handle_reply response) on_error.

(** [TravelDesigner.process_request]: the [while True] loop, run for at
    most [fuel] passes. *)
Fixpoint process_request (fuel : nat) : M Machine (Run string) :=
  match fuel with
  | O => ret OutOfFuel
  | S fuel' =>
      step <~ process_step ;;
      match step with
      | Return text => ret (Done text)
      | Again => process_request fuel'
      end
  end.

(** [TravelDesigner.start_conversation]. *)
Definition start_conversation (fuel : nat) (user_input : string)
  : M Machine (Run string) :=
  modify_self (fun d =>
    set_messages [SystemMsg (instructions (current_agent d)); UserMsg user_input] d) ;;;
  process_request fuel.

End Run.

Arguments mkMachine {World} self world trace.
Arguments self {World} m.
Arguments world {World} m.
Arguments trace {World} m.

End Travel.

(* ================================================================== *)
(** * Vocabulary of the statements *)
(* ================================================================== *)

Module Marker.

(** [s[n:]]. *)
Fixpoint drop (n : nat) (s : string) : string :=
  match n, s with
  | O, _ => s
  | S n', String _ s' => drop n' s'
  | S _, EmptyString => EmptyString
  end.

(** [s.partition(sep)] when [sep] occurs: the text before the first
    occurrence and the text after it. *)
Fixpoint partition (sep s : string) : option (string * string) :=
  if prefix sep s then Some (EmptyString, drop (String.length sep) s)
  else
    match s with
    | EmptyString => None
    | String c s' =>
        match partition sep s' with
        | Some (a, b) => Some (String c a, b)
        | None => None
        end
    end.

(** The text of [s] up to the next occurrence of [sep], all of [s] when
    there is none. *)
Definition until (sep s : string) : string :=
  match partition sep s with
  | Some (a, _) => a
  | None => s
  end.

(** The first occurrence of [marker] in [text] has [pre] before it and
    [payload] after it, [payload] running to the next occurrence of the
    marker or to the end of the text. *)
Definition marker_at (marker text pre payload : string) : Prop :=
  exists suf, partition marker text = Some (pre, suf) /\ payload = until marker suf.

End Marker.

Import Marker.

(** The marker families of the game master, as the design describes them:
    what honouring one family, alone, does to the state. *)
Module Families.

Import Game.

Inductive Family :=
| HandoffMonster
| HandoffItem
| HandoffNarrator
| UpdateLocation
| DamagePlayer
| HealPlayer
| AddItem.

(** The families in the order [process_response] tests them. *)
Definition families : list Family :=
  [HandoffMonster; HandoffItem; HandoffNarrator; UpdateLocation;
   DamagePlayer; HealPlayer; AddItem].

Definition marker_of (f : Family) : string :=
  match f with
  | HandoffMonster => "HANDOFF_MONSTER:"
  | HandoffItem => "HANDOFF_ITEM:"
  | HandoffNarrator => "HANDOFF_NARRATOR"
  | UpdateLocation => "UPDATE_LOCATION:"
  | DamagePlayer => "DAMAGE_PLAYER:"
  | HealPlayer => "HEAL_PLAYER:"
  | AddItem => "ADD_ITEM:"
  end.

(** The first family, in that order, whose marker occurs in the text. *)
Definition first_family (text : string) : option Family :=
  find (fun f => contains (marker_of f) text) families.

Definition with_state (st : GameState) (gm : GameMaster) : GameMaster :=
  mkGameMaster st (current_agent gm) (agent_name gm).

(** The effect of one family on the state, given its trimmed payload. *)
Definition honour (f : Family) (payload : string) (gm : GameMaster)
  : Res GameMaster :=
  let st := state gm in
  match f with
  | HandoffMonster =>
      Ok (mkGameMaster (set_combat_active true (set_monster (Some payload) st))
            MonsterAgent "Monster")
  | HandoffItem =>
      Ok (mkGameMaster (set_item_discovered (Some payload) st) ItemAgent "Item")
  | HandoffNarrator =>
      Ok (mkGameMaster
            (set_item_discovered None (set_monster None (set_combat_active false st)))
            NarratorAgent "Narrator")
  | UpdateLocation => Ok (with_state (set_current_location payload st) gm)
  | DamagePlayer =>
      d <- int payload ;;
      let h := (player_health st - d)%Z in
      Ok (with_state
            (set_game_over (game_over st || (h <=? 0)%Z)
               (set_player_health (Z.max h 0) st)) gm)
  | HealPlayer =>
      d <- int payload ;;
      Ok (with_state (set_player_health (player_health st + d) st) gm)
  | AddItem =>
      Ok (with_state (set_player_inventory (player_inventory st ++ [payload])%list st) gm)
  end.

(** What honouring family [f] leaves alone. *)
Definition frame (f : Family) (gm gm' : GameMaster) : Prop :=
  let st := state gm in
  let st' := state gm' in
  last_action st' = last_action st /\
  (f <> DamagePlayer -> f <> HealPlayer -> player_health st' = player_health st) /\
  (f <> DamagePlayer -> game_over st' = game_over st) /\
  (f <> AddItem -> player_inventory st' = player_inventory st) /\
  (f <> UpdateLocation -> current_location st' = current_location st) /\
  (f <> HandoffMonster -> f <> HandoffNarrator ->
     monster st' = monster st /\ combat_active st' = combat_active st) /\
  (f <> HandoffItem -> f <> HandoffNarrator ->
     item_discovered st' = item_discovered st) /\
  (f <> HandoffMonster -> f <> HandoffItem -> f <> HandoffNarrator ->
     current_agent gm' = current_agent gm /\ agent_name gm' = agent_name gm).

End Families.

Import Families.

(** Stand-ins for the outside world, used to run the programs on examples:
    the world has no state, and the endpoint answers every request alike. *)
Module Stubs.

(** An endpoint that always answers [text], with no tool call. *)
Definition answering (text : string) : Request -> M unit Reply :=
  fun _ w => (Ok (mkReply (Some text) []), w).

(** An endpoint that always raises an error whose text is [msg]. *)
Definition failing (msg : string) : Request -> M unit Reply :=
  fun _ w => (Raise (Exn "APIError" msg), w).

(** An endpoint that plays a script: the world is the list of the replies
    still to give, one per request. *)
Definition scripted : Request -> M (list Reply) Reply :=
  fun _ w =>
    match w with
    | reply :: rest => (Ok reply, rest)
    | [] => (Raise (Exn "APIError" "no reply left"), [])
    end.

(** An endpoint that raises the errors of a script, one per request, and
    answers [text] when the script is over: the world is the list of the
    error texts still to raise. *)
Definition failing_then (text : string) : Request -> M (list string) Reply :=
  fun _ w =>
    match w with
    | msg :: rest => (Raise (Exn "APIError" msg), rest)
    | [] => (Ok (mkReply (Some text) []), [])
    end.

(** [json.loads] on the two texts the examples use: the empty object, and
    the empty text, which is not JSON. *)
Definition loads_empty_object (text : string) : Res JValue :=
  if text =? "{}" then Ok (JDict [])
  else Raise (Exn "JSONDecodeError" "Expecting value: line 1 column 1 (char 0)").

(** An encoder that prints the kind of value only. *)
Definition dumps_kind (v : JValue) : string := type_name v.

(** A tool that always returns [text]. *)
Definition tool_returning {World : Type} (text : string) : JValue -> M World string :=
  fun _ w => (Ok text, w).

End Stubs.

(** The tool-call invariant of a transcript. *)
Module Pairing.

(** [results] answers [tcs]: one tool message per request, in the order of
    the requests, each with the identifier and the name of its request. *)
Definition answers (tcs : list ToolCall) (results : list Message) : Prop :=
  Forall2
    (fun tc msg => exists content, msg = ToolMsg (tc_id tc) (tc_name tc) content)
    tcs results.

(** The identifiers of the tool messages of a list. *)
Fixpoint result_ids (msgs : list Message) : list string :=
  match msgs with
  | [] => []
  | ToolMsg id _ _ :: rest => id :: result_ids rest
  | _ :: rest => result_ids rest
  end.

(** Reads a transcript from the left with the requests still unanswered:
    a tool message must answer the oldest of them, any other message needs
    all of them answered.  [None] when the transcript breaks the rule, else
    the requests left unanswered at its end. *)
Fixpoint pending_after (pending : list ToolCall) (msgs : list Message)
  : option (list ToolCall) :=
  match msgs with
  | [] => Some pending
  | ToolMsg id name _ :: rest =>
      match pending with
      | tc :: pending' =>
          if (id =? tc_id tc) && (name =? tc_name tc)
          then pending_after pending' rest
          else None
      | [] => None
      end
  | AssistantToolCalls tcs :: rest =>
      match pending with
      | [] => pending_after tcs rest
      | _ :: _ => None
      end
  | _ :: rest =>
      match pending with
      | [] => pending_after [] rest
      | _ :: _ => None
      end
  end.

(** Every assistant message with tool calls is followed at once by exactly
    its results, and no tool message stands elsewhere. *)
Definition well_paired (msgs : list Message) : bool :=
  match pending_after [] msgs with
  | Some [] => true
  | _ => false
  end.

(** The transcript of the travel designer: the system message first, and
    well paired. *)
Definition system_first (msgs : list Message) : bool :=
  match msgs with
  | SystemMsg _ :: _ => well_paired msgs
  | _ => false
  end.

(** An endpoint that refuses a transcript that is not well paired and
    otherwise is [create]. *)
Definition guarded {World : Type} (create : Request -> M World Reply)
  : Request -> M World Reply :=
  fun req w =>
    if well_paired (req_messages req) then create req w
    else (Raise (Exn "BadRequestError" "a tool call has no tool message"), w).

End Pairing.

Import Pairing.

(** What a run of the retry policy looks like from outside. *)
Module Retry.

Import Travel.

(** The number of calls of the endpoint in a trace. *)
Fixpoint calls_in (tr : list Event) : nat :=
  match tr with
  | [] => 0
  | Called _ :: rest => S (calls_in rest)
  | Slept _ :: rest => calls_in rest
  end.

(** The delays slept in a trace, in order. *)
Fixpoint sleeps_in (tr : list Event) : list Z :=
  match tr with
  | [] => []
  | Called _ :: rest => sleeps_in rest
  | Slept d :: rest => d :: sleeps_in rest
  end.

(** [more] further attempts after a failed attempt number [attempt]: before
    each one the policy sleeps [delay * 2 ^ attempt], then calls again. *)
Fixpoint backoff_events (req : Request) (delay : Z) (attempt more : nat)
  : list Event :=
  match more with
  | O => []
  | S more' =>
      Slept (delay * 2 ^ Z.of_nat attempt) :: Called req
        :: backoff_events req delay (S attempt) more'
  end.

(** The events of [n] attempts in a row: a call each and, between two
    calls, the backoff sleep that follows the attempt that failed. *)
Definition retry_events (req : Request) (delay : Z) (n : nat) : list Event :=
  match n with
  | O => []
  | S more => Called req :: backoff_events req delay 0 more
  end.

(** The text [process_request] returns when no destination was found. *)
Definition no_destination : string := "❌ Error: Could not determine destination".

(** The replies of the Destination Specialist that yield no destination:
    no reply, an empty one, or one whose first marker is followed by nothing
    but white space up to the next line break or the next occurrence of the
    marker, whichever comes first. *)
Definition blank_destination (reply : option string) : Prop :=
  match reply with
  | None => True
  | Some message =>
      message = "" \/
      exists pre suf,
        partition "Destination:" message = Some (pre, suf) /\
        strip (until nl (until "Destination:" suf)) = ""
  end.

(** The designer of [__init__], about to send its first request. *)
Definition fresh : Machine unit :=
  mkMachine TravelDesigner_init tt [].

End Retry.

Import Retry.

(** Vocabulary for whole turns and sessions. *)
Module Sessions.

(** The request a game agent sends first in a turn: its system message and
    the state summary followed by the player's input. *)
Definition first_request (a : Game.Agent) (st : Game.GameState)
  (player_input : string) : Request :=
  mkRequest "google/gemini-2.0-flash-001"
    [SystemMsg (Game.system_message a);
     UserMsg (Game._get_state_info a st ++ Game.nl ++ Game.nl ++
              "Player: " ++ player_input)]
    (Game.offered a) None.

(** The game master with the player's line stored as the last action. *)
Definition acted (user_input : string) (gm : Game.GameMaster) : Game.GameMaster :=
  Game.mkGameMaster (Game.set_last_action user_input (Game.state gm))
    (Game.current_agent gm) (Game.agent_name gm).

(** The line makes the career mentor leave its loop. *)
Definition leaving (line : string) : bool :=
  existsb (String.eqb (lower (strip line))) ["exit"; "quit"].

(** The number of lines typed before the first one that leaves. *)
Fixpoint turns (lines : list string) : nat :=
  match lines with
  | [] => 0
  | line :: rest => if leaving line then 0 else S (turns rest)
  end.

(** The input holds one of the words that move from skills to jobs. *)
Definition asks_for_jobs (user_input : string) : bool :=
  contains "job" (lower user_input) || contains "opportunit" (lower user_input).

(** In the skill and job states a career is selected. *)
Definition career_chosen (m : Career.CareerMentor) : Prop :=
  Career.current_agent m = Career.career \/ Career.context_career m <> None.

(** [mentor.run] on each input in turn, collecting the replies. *)
Fixpoint run_all (inputs : list string) (m : Career.CareerMentor)
  : Res (list string * Career.CareerMentor) :=
  match inputs with
  | [] => Ok ([], m)
  | user_input :: rest =>
      r <- Career.run user_input m ;;
      let '(shown, m') := r in
      r' <- run_all rest m' ;;
      let '(more, m'') := r' in
      Ok (shown :: more, m'')
  end.

(** The reply of [get_career_roadmap] for a career it has no entry for. *)
Definition no_roadmap (c : string) : string :=
  "⚠️ No roadmap available for " ++ c.

(** The endpoint fails [k] times in a row with an error classified as
    transient, starting in world [w] and leaving world [w']. *)
Fixpoint fails_transiently {World : Type} (create : Request -> M World Reply)
  (req : Request) (k : nat) (w w' : World) : Prop :=
  match k with
  | O => w' = w
  | S k' =>
      exists e w1,
        create req w = (Raise e, w1) /\
        Travel.is_transient (exn_str e) = true /\
        fails_transiently create req k' w1 w'
  end.

(** The endpoint fails [k] times with an error classified as transient,
    starting in world [w], and then answers [reply], leaving world [w']. *)
Fixpoint recovers {World : Type} (create : Request -> M World Reply)
  (req : Request) (k : nat) (w : World) (reply : Reply) (w' : World) : Prop :=
  match k with
  | O => create req w = (Ok reply, w')
  | S k' =>
      exists e w1,
        create req w = (Raise e, w1) /\
        Travel.is_transient (exn_str e) = true /\
        recovers create req k' w1 reply w'
  end.

(** A transcript whose first message is the system message [s] and which
    holds no other system message. *)
Definition one_system (s : string) (msgs : list Message) : Prop :=
  exists rest,
    msgs = SystemMsg s :: rest /\
    forall s', ~ In (SystemMsg s') rest.

(** The place of an agent in the order of the handoffs. *)
Definition rank (a : Travel.Agent) : nat :=
  match a with
  | Travel.destination_agent => 0
  | Travel.booking_agent => 1
  | Travel.explore_agent => 2
  end.

(** The transcript of a designer starts with the instructions of its
    current agent, its only system message. *)
Definition own_system (d : Travel.TravelDesigner) : Prop :=
  one_system (Travel.instructions (Travel.current_agent d)) (Travel.messages d).

(** The names [process_tool_calls] knows. *)
Definition known_tool (name : string) : bool :=
  existsb (String.eqb name) Travel.all_tools.

(** What [format_final_plan] raises on a response that is [None]. *)
Definition none_response : exn :=
  Exn "TypeError" "unsupported operand type(s) for +: 'NoneType' and 'str'".

End Sessions.

Import Sessions.

(* ================================================================== *)
(** * Facts about the string methods *)
(* ================================================================== *)

Section StringFacts.

Lemma prefix_length (p s : string) :
  prefix p s = true -> String.length p <= String.length s.
Proof.
  revert s. induction p as [|a p IH]; intros s; simpl.
  - lia.
  - destruct s as [|b s]; simpl; [discriminate|].
    destruct (ascii_dec a b); [|discriminate].
    intros H. apply IH in H. lia.
Qed.

Lemma prefix_split (p s : string) :
  prefix p s = true -> s = p ++ drop (String.length p) s.
Proof.
  revert s. induction p as [|a p IH]; intros s; simpl.
  - reflexivity.
  - destruct s as [|b s]; simpl; [discriminate|].
    destruct (ascii_dec a b) as [->|]; [|discriminate].
    intros H. f_equal. now apply IH.
Qed.

Lemma prefix_app (p r : string) : prefix p (p ++ r) = true.
Proof.
  induction p as [|a p IH]; simpl.
  - now destruct r.
  - destruct (ascii_dec a a); [assumption|congruence].
Qed.

Lemma drop_app (p r : string) : drop (String.length p) (p ++ r) = r.
Proof. induction p; simpl; auto. Qed.

Lemma partition_app (sep s a b : string) :
  partition sep s = Some (a, b) -> s = a ++ sep ++ b.
Proof.
  revert a b. induction s as [|c s IH]; intros a b H.
  - cbn [partition] in H. destruct (prefix sep "") eqn:P; [|discriminate].
    inversion H; subst. simpl. now apply prefix_split in P.
  - cbn [partition] in H. destruct (prefix sep (String c s)) eqn:P.
    + inversion H; subst. simpl. now apply prefix_split in P.
    + destruct (partition sep s) as [[a' b']|]; [|discriminate].
      inversion H; subst. simpl. f_equal. now apply IH.
Qed.

(** The occurrence [partition] cuts at is the leftmost one. *)
Lemma partition_leftmost (sep s a b : string) :
  partition sep s = Some (a, b) ->
  forall a' b', s = a' ++ sep ++ b' -> String.length a <= String.length a'.
Proof.
  revert a. induction s as [|c s IH]; intros a H a' b' Hs; cbn [partition] in H.
  - destruct (prefix sep ""); [|discriminate]. inversion H; subst. simpl. lia.
  - destruct (prefix sep (String c s)) eqn:P.
    + inversion H; subst. simpl. lia.
    + destruct (partition sep s) as [[a0 b0]|] eqn:E; [|discriminate].
      inversion H; subst. destruct a' as [|c' a'].
      * simpl in Hs. rewrite Hs, prefix_app in P. discriminate.
      * simpl in Hs. inversion Hs; subst. simpl.
        apply le_n_S. now apply (IH a0 eq_refl a' b').
Qed.

Lemma contains_partition (sep s : string) :
  contains sep s = true <-> exists a b, partition sep s = Some (a, b).
Proof.
  induction s as [|c s IH].
  - cbn [contains partition]. destruct (prefix sep ""); simpl; split; intros H;
      try discriminate; eauto. destruct H as (a & b & H). discriminate.
  - cbn [contains partition]. destruct (prefix sep (String c s)); simpl.
    + split; eauto.
    + rewrite IH. split; intros (a & b & H).
      * rewrite H. eauto.
      * destruct (partition sep s) as [[a' b']|]; [eauto|discriminate].
Qed.

Lemma contains_false_partition (sep s : string) :
  contains sep s = false <-> partition sep s = None.
Proof.
  split; intros H.
  - destruct (partition sep s) as [[a b]|] eqn:E; [|reflexivity].
    assert (contains sep s = true) by (apply contains_partition; eauto).
    congruence.
  - destruct (contains sep s) eqn:E; [|reflexivity].
    apply contains_partition in E. destruct E as (a & b & E). congruence.
Qed.

Lemma split_go_skip (sep : string) (k : nat) (s : string) :
  k <= String.length s -> split_go sep k s = split_go sep 0 (drop k s).
Proof.
  revert s. induction k as [|k IH]; intros s H.
  - reflexivity.
  - destruct s as [|c s]; simpl in H; [lia|].
    simpl. apply IH. lia.
Qed.

Lemma split_partition_none (sep s : string) :
  partition sep s = None -> split s sep = [s].
Proof.
  unfold split. induction s as [|c s IH]; intros H.
  - reflexivity.
  - cbn [partition] in H. cbn [split_go].
    destruct (prefix sep (String c s)); [discriminate|].
    destruct (partition sep s) as [[a b]|]; [discriminate|].
    now rewrite IH.
Qed.

Lemma split_partition_some (sep s a b : string) :
  sep <> "" -> partition sep s = Some (a, b) -> split s sep = a :: split b sep.
Proof.
  intros Hsep. unfold split. revert a.
  induction s as [|c s IH]; intros a H.
  - destruct sep; [congruence|discriminate].
  - cbn [partition] in H. cbn [split_go].
    destruct (prefix sep (String c s)) eqn:P.
    + inversion H; subst. f_equal.
      apply prefix_length in P. destruct sep as [|x sep]; [congruence|].
      simpl in *. rewrite Nat.sub_0_r. apply split_go_skip. lia.
    + destruct (partition sep s) as [[a' b']|]; [|discriminate].
      inversion H; subst. now rewrite (IH a' eq_refl).
Qed.

Lemma split_head (sep s : string) :
  sep <> "" -> exists rest, split s sep = until sep s :: rest.
Proof.
  intros Hsep. unfold until.
  destruct (partition sep s) as [[a b]|] eqn:E.
  - rewrite (split_partition_some _ _ _ _ Hsep E). eauto.
  - rewrite (split_partition_none _ _ E). eauto.
Qed.

(** What [parts[0]] and [parts[1]] are when the marker occurs. *)
Lemma marker_at_split (marker text pre payload : string) :
  marker <> "" -> marker_at marker text pre payload ->
  exists rest, split text marker = pre :: payload :: rest.
Proof.
  intros Hm (suf & Hp & ->).
  rewrite (split_partition_some _ _ _ _ Hm Hp).
  destruct (split_head marker suf Hm) as (rest & ->). eauto.
Qed.

Lemma marker_at_contains (marker text pre payload : string) :
  marker_at marker text pre payload -> contains marker text = true.
Proof. intros (suf & Hp & _). apply contains_partition. eauto. Qed.

Lemma contains_marker_at (marker text : string) :
  contains marker text = true -> exists pre payload, marker_at marker text pre payload.
Proof.
  intros H. apply contains_partition in H. destruct H as (a & b & H).
  exists a, (until marker b), b. auto.
Qed.

Lemma marker_at_fun (marker text pre payload pre' payload' : string) :
  marker_at marker text pre payload -> marker_at marker text pre' payload' ->
  pre = pre' /\ payload = payload'.
Proof.
  intros (s & H & ->) (s' & H' & ->). rewrite H in H'. inversion H'. auto.
Qed.

End StringFacts.

Example split_twice : split "a--b--c" "--" = ["a"; "b"; "c"].
Proof. reflexivity. Qed.

Example split_overlap : split "aXXXb" "XX" = ["a"; "Xb"].
Proof. reflexivity. Qed.

Example split_absent : split "abc" "X" = ["abc"].
Proof. reflexivity. Qed.

Example split_trailing : split "aX" "X" = ["a"; ""].
Proof. reflexivity. Qed.

Example strip_both : strip "  a b
" = "a b".
Proof. reflexivity. Qed.

Example split_ws_runs : split_ws "  ab  c d " = ["ab"; "c"; "d"].
Proof. reflexivity. Qed.

Example int_signed : int " -1_0 " = Ok (-10)%Z.
Proof. reflexivity. Qed.

Example int_bad : exists e, int "1__0" = Raise e.
Proof. eexists. reflexivity. Qed.

(* ================================================================== *)
(** * Further facts about the string methods *)
(* ================================================================== *)

Section SubstringFacts.

Lemma append_assoc (a b c : string) : (a ++ b) ++ c = a ++ b ++ c.
Proof. induction a as [|x a IH]; simpl; [reflexivity|now rewrite IH]. Qed.

Lemma append_empty_r (a : string) : a ++ "" = a.
Proof. induction a as [|x a IH]; simpl; [reflexivity|now rewrite IH]. Qed.

Lemma length_append (a b : string) :
  String.length (a ++ b) = String.length a + String.length b.
Proof. induction a as [|x a IH]; simpl; [reflexivity|now rewrite IH]. Qed.

Lemma prefix_contains (sub s : string) :
  prefix sub s = true -> contains sub s = true.
Proof. intros H. destruct s; cbn [contains]; now rewrite H. Qed.

(** [sub in s] holds exactly when [s] is some text, [sub], some text. *)
Lemma contains_iff (sub s : string) :
  contains sub s = true <-> exists a b, s = a ++ sub ++ b.
Proof.
  split.
  - intros H. apply contains_partition in H. destruct H as (a & b & H).
    exists a, b. now apply partition_app.
  - intros (a & b & ->). induction a as [|x a IH]; cbn [append contains].
    + apply prefix_contains, prefix_app.
    + rewrite IH. apply orb_true_r.
Qed.

Lemma contains_inside (sub l s r : string) :
  contains sub s = true -> contains sub (l ++ s ++ r) = true.
Proof.
  intros H. apply contains_iff in H. destruct H as (a & b & ->).
  apply contains_iff. exists (l ++ a), (b ++ r).
  now rewrite !append_assoc.
Qed.

Lemma lstrip_suffix (s : string) : exists l, s = l ++ lstrip s.
Proof.
  induction s as [|c s (l & IH)]; cbn [lstrip].
  - now exists "".
  - destruct (isspace c).
    + exists (String c l). simpl. now rewrite <- IH.
    + now exists "".
Qed.

Lemma rstrip_prefix (s : string) : exists r, s = rstrip s ++ r.
Proof.
  induction s as [|c s (r & IH)]; cbn [rstrip].
  - now exists "".
  - destruct (rstrip s) as [|x t] eqn:E.
    + destruct (isspace c).
      * exists (String c s). reflexivity.
      * exists s. reflexivity.
    + exists r. simpl. now rewrite IH at 1.
Qed.

(** [s.strip()] is a piece of [s]. *)
Lemma strip_inside (s : string) : exists l r, s = l ++ strip s ++ r.
Proof.
  unfold strip. destruct (lstrip_suffix s) as (l & Hl).
  destruct (rstrip_prefix (lstrip s)) as (r & Hr).
  exists l, r. now rewrite <- Hr.
Qed.

Lemma contains_strip (sub s : string) :
  contains sub (strip s) = true -> contains sub s = true.
Proof.
  intros H. destruct (strip_inside s) as (l & r & Hs).
  rewrite Hs. now apply contains_inside.
Qed.

(** The text before the first occurrence of [sep] holds no [sep]. *)
Lemma partition_before (sep s a b : string) :
  sep <> "" -> partition sep s = Some (a, b) -> contains sep a = false.
Proof.
  intros Hsep Hp. destruct (contains sep a) eqn:Hc; [|reflexivity].
  apply contains_iff in Hc. destruct Hc as (a' & b' & Ha).
  pose proof (partition_app _ _ _ _ Hp) as Hs.
  assert (Hs' : s = a' ++ sep ++ (b' ++ sep ++ b)).
  { rewrite Hs, Ha. now rewrite !append_assoc. }
  pose proof (partition_leftmost _ _ _ _ Hp _ _ Hs') as Hlen.
  rewrite Ha, !length_append in Hlen.
  destruct sep; [congruence|]. simpl in Hlen. lia.
Qed.

Lemma until_free (sep s : string) :
  sep <> "" -> contains sep (until sep s) = false.
Proof.
  intros Hsep. unfold until.
  destruct (partition sep s) as [[a b]|] eqn:E.
  - now apply (partition_before sep s a b).
  - now apply contains_false_partition.
Qed.

Lemma lstrip_no_space (s : string) :
  match lstrip s with
  | String c _ => isspace c = false
  | EmptyString => True
  end.
Proof.
  induction s as [|c s IH]; cbn [lstrip]; [exact I|].
  destruct (isspace c) eqn:E; [exact IH|exact E].
Qed.

Lemma lstrip_fixed (s : string) :
  match s with
  | String c _ => isspace c = false
  | EmptyString => True
  end -> lstrip s = s.
Proof. destruct s as [|c s]; cbn [lstrip]; [reflexivity|]. now intros ->. Qed.

Lemma rstrip_idempotent (s : string) : rstrip (rstrip s) = rstrip s.
Proof.
  induction s as [|c s IH]; cbn [rstrip]; [reflexivity|].
  destruct (rstrip s) as [|x t] eqn:E.
  - destruct (isspace c) eqn:Ec; cbn [rstrip]; [reflexivity|]. now rewrite Ec.
  - cbn [rstrip]. cbn [rstrip] in IH. rewrite IH. reflexivity.
Qed.

Lemma rstrip_head (s : string) (c : ascii) (t : string) :
  rstrip s = String c t -> exists t', s = String c t'.
Proof.
  destruct s as [|x s]; cbn [rstrip]; [discriminate|].
  destruct (rstrip s); [destruct (isspace x)|]; intros H; inversion H; eauto.
Qed.

(** Trimming twice is trimming once. *)
Lemma strip_idempotent (s : string) : strip (strip s) = strip s.
Proof.
  unfold strip. rewrite lstrip_fixed; [apply rstrip_idempotent|].
  destruct (rstrip (lstrip s)) as [|c t] eqn:E; [exact I|].
  apply rstrip_head in E. destruct E as (t' & E).
  pose proof (lstrip_no_space s) as H. now rewrite E in H.
Qed.

Lemma lower_char_idempotent (c : ascii) : lower_char (lower_char c) = lower_char c.
Proof. destruct c as [[] [] [] [] [] [] [] []]; reflexivity. Qed.

Lemma lower_upper_char (c : ascii) : lower_char (upper_char c) = lower_char c.
Proof. destruct c as [[] [] [] [] [] [] [] []]; reflexivity. Qed.

Lemma lower_idempotent (s : string) : lower (lower s) = lower s.
Proof.
  unfold lower. induction s as [|c s IH]; simpl; [reflexivity|].
  now rewrite lower_char_idempotent, IH.
Qed.

Lemma lower_upper (s : string) : lower (upper s) = lower s.
Proof.
  unfold lower, upper. induction s as [|c s IH]; simpl; [reflexivity|].
  now rewrite lower_upper_char, IH.
Qed.


(** A text cut in two: a prefix of it holds what the whole holds only. *)
Lemma contains_prefix_part (sub a b : string) :
  contains sub a = true -> contains sub (a ++ b) = true.
Proof.
  intros H. pose proof (contains_inside sub "" a b H) as H'. exact H'.
Qed.




(** The text before the next occurrence of [sep] and what is left: nothing,
    or a text that starts with [sep]. *)
Lemma until_split (sep s : string) :
  exists rest, s = until sep s ++ rest /\ (rest = "" \/ prefix sep rest = true).
Proof.
  unfold until. destruct (partition sep s) as [[a b]|] eqn:E.
  - exists (sep ++ b). split; [now apply partition_app|].
    right. apply prefix_app.
  - exists "". split; [now rewrite append_empty_r|now left].
Qed.

Lemma prefix_append (p r r1 : string) :
  prefix p r = true -> prefix p (r ++ r1) = true.
Proof.
  revert r. induction p as [|x p IH]; intros r H;
    [now destruct (r ++ r1)|].
  destruct r as [|y r]; [discriminate H|]. cbn [append prefix] in H |- *.
  destruct (Ascii.ascii_dec x y); [now apply IH|discriminate H].
Qed.

(** Where a payload cut at the next [sep1], then at the next [sep2], ends:
    it is the text up to the first of the two separators, or all the text
    when neither occurs. *)
Lemma until_both (sep1 sep2 s : string) :
  sep1 <> "" -> sep2 <> "" ->
  exists rest,
    s = until sep2 (until sep1 s) ++ rest /\
    contains sep1 (until sep2 (until sep1 s)) = false /\
    contains sep2 (until sep2 (until sep1 s)) = false /\
    (rest = "" \/ prefix sep1 rest = true \/ prefix sep2 rest = true).
Proof.
  intros H1 H2.
  destruct (until_split sep1 s) as (r1 & Hs & Hr1).
  destruct (until_split sep2 (until sep1 s)) as (r2 & Hq & Hr2).
  exists (r2 ++ r1). repeat split.
  - rewrite <- append_assoc, <- Hq. exact Hs.
  - destruct (contains sep1 (until sep2 (until sep1 s))) eqn:Hc; [|reflexivity].
    apply (contains_prefix_part _ _ r2) in Hc. rewrite <- Hq in Hc.
    now rewrite until_free in Hc.
  - now apply until_free.
  - destruct Hr2 as [->|Hp].
    + cbn [append]. destruct Hr1; auto.
    + right; right. now apply prefix_append.
Qed.




End SubstringFacts.

(* ================================================================== *)
(** * The marker parser of the game master *)
(* ================================================================== *)

Section MarkerParser.

Import Game.

Lemma marker_nonempty (f : Family) : marker_of f <> "".
Proof. destruct f; discriminate. Qed.

(** When the text holds no marker at all it passes through unchanged. *)
Lemma process_response_no_marker (response : string) (gm : GameMaster) :
  first_family response = None ->
  process_response response gm = Ok (response, gm).
Proof.
  unfold first_family, families, process_response. cbn [find marker_of].
  repeat match goal with
         | |- context [contains ?m response] => destruct (contains m response)
         end; intros H; try discriminate H; reflexivity.
Qed.

(** [process_response] honours the first family present, and that one only:
    the display text is what precedes its first occurrence, trimmed, and the
    payload what follows it, trimmed. *)
Lemma process_response_first_family (response : string) (gm : GameMaster)
  (f : Family) (pre payload : string) :
  first_family response = Some f ->
  marker_at (marker_of f) response pre payload ->
  process_response response gm =
    (gm' <- honour f (strip payload) gm ;; Ok (strip pre, gm')).
Proof.
  intros Hf Hm.
  destruct (marker_at_split _ _ _ _ (marker_nonempty f) Hm) as (rest & Hs).
  revert Hf. unfold first_family, families, process_response.
  cbn [find marker_of].
  repeat match goal with
         | |- context [contains ?m response] => destruct (contains m response)
         end; intros Hf; inversion Hf; subst f; cbn [marker_of] in Hs;
    rewrite Hs; cbn [getitem nth_error bind List.length Nat.ltb Nat.leb honour];
    try reflexivity.
  all: destruct (int (strip payload)) as [d|e]; cbn [bind]; try reflexivity.
  all: destruct gm as [st ag nm]; destruct st; unfold with_state; cbn.
  all: try reflexivity.
  all: destruct (Z.leb_spec (player_health0 - d) 0);
    [ rewrite Z.max_r by lia; now rewrite orb_true_r
    | rewrite Z.max_l by lia; now rewrite orb_false_r ].
Qed.

Lemma honour_frame (f : Family) (payload : string) (gm gm' : GameMaster) :
  honour f payload gm = Ok gm' -> frame f gm gm'.
Proof.
  destruct f; cbn [honour]; try destruct (int payload); cbn [bind];
    intros H; inversion H; subst; unfold frame, with_state; cbn;
    repeat split; intros; congruence.
Qed.

Lemma int_raises_value_error (s : string) (e : exn) :
  int s = Raise e -> exn_class e = "ValueError".
Proof.
  unfold int. match goal with |- context [match ?r with Some _ => _ | None => _ end] =>
    destruct r end; intros H; inversion H; reflexivity.
Qed.







(** A marker of another family that stands after the honoured one: the
    damage marker is stored with the monster's name and cut from the
    display text, and no damage is done. *)
Example marker_after_is_payload :
  exists gm',
    process_response "HANDOFF_MONSTER: Goblin DAMAGE_PLAYER: 10" GameMaster_init
    = Ok ("", gm') /\
    monster (state gm') = Some "Goblin DAMAGE_PLAYER: 10" /\
    player_health (state gm') = 100%Z.
Proof. eexists. repeat split. Qed.

(** After an amount, it makes the conversion fail: nothing is healed and
    nothing added. *)
Example marker_after_amount_raises :
  process_response "HEAL_PLAYER: 5 ADD_ITEM: Key" GameMaster_init
  = Raise (Exn "ValueError"
             "invalid literal for int() with base 10: '5 ADD_ITEM: Key'").
Proof. reflexivity. Qed.

(** What follows a second occurrence of the honoured marker is dropped. *)
Example second_occurrence_dropped :
  exists gm',
    process_response "HANDOFF_MONSTER: Goblin HANDOFF_MONSTER: Troll ADD_ITEM: Key"
      GameMaster_init
    = Ok ("", gm') /\
    monster (state gm') = Some "Goblin" /\
    player_inventory (state gm') = player_inventory GameState_init.
Proof. eexists. repeat split. Qed.

(** C5.  A DAMAGE_PLAYER marker whose payload reads as the integer [d],
    applied to a state of health [h], sets the health to [max (h - d) 0];
    the game-over flag becomes true when [h - d <= 0] and keeps its value
    otherwise. *)
Theorem damage_player_clamp (response : string) (gm : GameMaster)
  (pre payload : string) (d : Z) :
  first_family response = Some DamagePlayer ->
  marker_at "DAMAGE_PLAYER:" response pre payload ->
  int (strip payload) = Ok d ->
  exists gm',
    process_response response gm = Ok (strip pre, gm') /\
    player_health (state gm') = Z.max (player_health (state gm) - d) 0 /\
    (player_health (state gm) - d <= 0 -> game_over (state gm') = true)%Z /\
    (0 < player_health (state gm) - d ->
       game_over (state gm') = game_over (state gm))%Z.
Proof.
  intros Hf Hm Hd.
  rewrite (process_response_first_family _ gm _ _ _ Hf Hm).
  cbn [honour]. rewrite Hd. cbn [bind]. eexists. split; [reflexivity|].
  unfold with_state; cbn. repeat split.
  - intros H. apply Z.leb_le in H. rewrite H. apply orb_true_r.
  - intros H. apply Z.leb_gt in H. rewrite H. apply orb_false_r.
Qed.

(** The two cases of the design: 150 on health 100, and 30 on health 100. *)
Lemma damage_player_clamp_witness :
  (exists gm',
     process_response "The troll hits you. DAMAGE_PLAYER: 150" GameMaster_init
     = Ok (strip "The troll hits you. ", gm') /\
     player_health (state gm') = Z.max (100 - 150) 0 /\
     (100 - 150 <= 0 -> game_over (state gm') = true)%Z /\
     (0 < 100 - 150 -> game_over (state gm') = false)%Z) /\
  (exists gm',
     process_response "The troll hits you. DAMAGE_PLAYER: 30" GameMaster_init
     = Ok (strip "The troll hits you. ", gm') /\
     player_health (state gm') = Z.max (100 - 30) 0 /\
     (100 - 30 <= 0 -> game_over (state gm') = true)%Z /\
     (0 < 100 - 30 -> game_over (state gm') = false)%Z).
Proof.
  split.
  - apply (damage_player_clamp "The troll hits you. DAMAGE_PLAYER: 150"
             GameMaster_init "The troll hits you. " " 150" 150).
    + reflexivity.
    + exists " 150". split; reflexivity.
    + reflexivity.
  - apply (damage_player_clamp "The troll hits you. DAMAGE_PLAYER: 30"
             GameMaster_init "The troll hits you. " " 30" 30).
    + reflexivity.
    + exists " 30". split; reflexivity.
    + reflexivity.
Defined.

Example damage_150 :
  process_response "The troll hits you. DAMAGE_PLAYER: 150" GameMaster_init
  = Ok ("The troll hits you.",
        with_state (set_game_over true (set_player_health 0 GameState_init))
          GameMaster_init).
Proof. reflexivity. Qed.

Example damage_30 :
  process_response "The troll hits you. DAMAGE_PLAYER: 30" GameMaster_init
  = Ok ("The troll hits you.",
        with_state (set_player_health 70 GameState_init) GameMaster_init).
Proof. reflexivity. Qed.

(** C9.  The amount of a DAMAGE_PLAYER or HEAL_PLAYER marker is not
    validated: when the payload does not read as an integer, the
    [ValueError] of the conversion leaves [process_response], and no
    display text is returned. *)
Theorem malformed_amount_raises (response : string) (gm : GameMaster)
  (f : Family) (pre payload : string) (e : exn) :
  f = DamagePlayer \/ f = HealPlayer ->
  first_family response = Some f ->
  marker_at (marker_of f) response pre payload ->
  int (strip payload) = Raise e ->
  process_response response gm = Raise e /\ exn_class e = "ValueError".
Proof.
  intros Hk Hf Hm He.
  rewrite (process_response_first_family _ gm _ _ _ Hf Hm).
  split; [|eapply int_raises_value_error; eassumption].
  destruct Hk; subst f; cbn [honour]; rewrite He; reflexivity.
Qed.

Lemma malformed_amount_raises_witness :
  (process_response "The troll hits you. DAMAGE_PLAYER: lots" GameMaster_init
   = Raise (Exn "ValueError" "invalid literal for int() with base 10: 'lots'") /\
   exn_class (Exn "ValueError" "invalid literal for int() with base 10: 'lots'")
   = "ValueError") /\
  (process_response "You rest. HEAL_PLAYER: a bit" GameMaster_init
   = Raise (Exn "ValueError" "invalid literal for int() with base 10: 'a bit'") /\
   exn_class (Exn "ValueError" "invalid literal for int() with base 10: 'a bit'")
   = "ValueError").
Proof.
  split.
  - apply (malformed_amount_raises _ _ DamagePlayer "The troll hits you. " " lots").
    + now left.
    + reflexivity.
    + exists " lots". split; reflexivity.
    + reflexivity.
  - apply (malformed_amount_raises _ _ HealPlayer "You rest. " " a bit").
    + now right.
    + reflexivity.
    + exists " a bit". split; reflexivity.
    + reflexivity.
Defined.

End MarkerParser.

(* ================================================================== *)
(** * The destination extractor of the travel designer *)
(* ================================================================== *)

Section Destination.

Import Travel.

Lemma nl_nonempty : nl <> "".
Proof. discriminate. Qed.

(** With the marker present, the destination is the text after its first
    occurrence, up to the next line break, trimmed. *)
Lemma extract_destination_marker (message pre payload : string) :
  message <> "" ->
  marker_at "Destination:" message pre payload ->
  extract_destination (Some message) = Ok (Some (strip (until nl payload))).
Proof.
  intros Hne Hm.
  assert (Hd : "Destination:" <> "") by discriminate.
  destruct (marker_at_split _ _ _ _ Hd Hm) as (rest & Hs).
  pose proof (marker_at_contains _ _ _ _ Hm) as Hc.
  destruct (split_head nl payload nl_nonempty) as (rest' & Hl).
  destruct message as [|c message]; [congruence|].
  unfold extract_destination. rewrite Hc, Hs.
  cbn [List.length Nat.ltb Nat.leb getitem nth_error bind].
  rewrite Hl. reflexivity.
Qed.

Lemma filter_head_find {A} (p : A -> bool) (l : list A) (x : A) (xs : list A) :
  filter p l = x :: xs -> find p l = Some x.
Proof.
  induction l as [|a l IH]; cbn [filter find]; [discriminate|].
  destruct (p a); [|exact IH]. intros H. now inversion H.
Qed.

(** Without the marker, the destination is the first line of the reply that
    is not blank, trimmed, or the whole reply; it is never empty. *)
Lemma extract_destination_fallback (message : string) :
  message <> "" ->
  contains "Destination:" message = false ->
  exists d,
    extract_destination (Some message) = Ok (Some d) /\
    d <> "" /\
    (d = message \/
     exists line,
       find (fun line => negb (strip line =? "")) (split message nl) = Some line /\
       d = strip line).
Proof.
  intros Hne Hc.
  destruct message as [|c message]; [congruence|].
  unfold extract_destination. rewrite Hc.
  set (msg := String c message) in *.
  destruct (filter (fun line => negb (strip line =? "")) (split msg nl))
    as [|l ls] eqn:Hl; cbn [map].
  - exists msg. repeat split; auto.
  - pose proof (filter_head_find _ _ _ _ Hl) as Hfind.
    pose proof (find_some _ _ Hfind) as [_ Hnb].
    apply negb_true_iff, String.eqb_neq in Hnb.
    destruct ((List.length (split_ws (strip l)) <=? 3)%nat && negb (any_isdigit (strip l))).
    + exists (strip l). repeat split; auto. right. exists l. auto.
    + exists msg. repeat split; auto.
Qed.

(** A reply that is not empty always yields a destination, possibly the
    empty string. *)
Lemma extract_destination_some (message : string) :
  message <> "" -> exists d, extract_destination (Some message) = Ok (Some d).
Proof.
  intros Hne. destruct (contains "Destination:" message) eqn:Hc.
  - destruct (contains_marker_at _ _ Hc) as (pre & payload & Hm).
    rewrite (extract_destination_marker _ _ _ Hne Hm). eauto.
  - destruct (extract_destination_fallback _ Hne Hc) as (d & H & _). eauto.
Qed.

End Destination.

(* ================================================================== *)
(** * Where a payload ends *)
(* ================================================================== *)

Section Payload.

Import Game.




Example item_round_trip :
  exists gm',
    process_response "You find something. HANDOFF_ITEM: Ancient Key" GameMaster_init
    = Ok ("You find something.", gm') /\
    item_discovered (state gm') = Some "Ancient Key".
Proof. eexists. split; reflexivity. Qed.

Example destination_first_line :
  Travel.extract_destination (Some ("I suggest. Destination: Lisbon" ++ nl ++ "Enjoy."))
  = Ok (Some "Lisbon").
Proof. reflexivity. Qed.

(** The next occurrence of the marker ends the destination before the line
    break does. *)
Example destination_second_marker :
  Travel.extract_destination (Some "Destination: Lisbon Destination: Rome")
  = Ok (Some "Lisbon").
Proof. reflexivity. Qed.

End Payload.

(* ================================================================== *)
(** * The career mentor: selection of a career *)
(* ================================================================== *)

Section Selection.

Import Career.

Lemma find_none_iff {A} (p : A -> bool) (l : list A) :
  find p l = None <-> forall x, In x l -> p x = false.
Proof.
  split.
  - intros H x Hin. now apply (find_none p l H).
  - intros H. destruct (find p l) as [x|] eqn:E; [|reflexivity].
    apply find_some in E. destruct E as [Hin Hp].
    rewrite (H x Hin) in Hp. discriminate.
Qed.

(** What [find] returns is the first element that passes the test. *)
Lemma find_first {A} (p : A -> bool) (l : list A) (x : A) :
  find p l = Some x ->
  p x = true /\
  exists before after,
    l = (before ++ x :: after)%list /\
    forall y, In y before -> p y = false.
Proof.
  induction l as [|a l IH]; cbn [find]; [discriminate|].
  destruct (p a) eqn:Hp.
  - intros H. inversion H; subst a. split; [assumption|].
    exists [], l. split; [reflexivity|]. intros y [].
  - intros H. destruct (IH H) as (Hx & before & after & -> & Hb).
    split; [assumption|]. exists (a :: before), after. split; [reflexivity|].
    intros y [<-|Hin]; [assumption|now apply Hb].
Qed.

(** C7 (as amended).  In the career state with a selection awaited, the
    first option of the list that the input contains, letter case ignored,
    becomes the selected career (the option itself when the input contains
    no other), the sub-mode is left and the skill state entered.  The
    selection is made by [_handle_agent_handoff], so that [run] answers
    with the roadmap of the skill agent; [_career_agent] called in that
    state makes the same selection and answers with its own line.  When the
    input contains no option, the handoff changes nothing, the same list is
    prompted again and the state stays as it was. *)
Theorem career_selection (user_input : string) (m : CareerMentor) :
  current_agent m = career ->
  awaiting_selection m = true ->
  match find (fun c => contains (lower c) (lower user_input))
             (context_recommendations m) with
  | Some c =>
      In c (context_recommendations m) /\
      contains (lower c) (lower user_input) = true /\
      (exists before after,
          context_recommendations m = (before ++ c :: after)%list /\
          forall c', In c' before ->
                     contains (lower c') (lower user_input) = false) /\
      (forall c0,
          (forall c', In c' (context_recommendations m) ->
                      contains (lower c') (lower user_input) = true -> c' = c0) ->
          c = c0) /\
      _handle_agent_handoff user_input m
      = mkCareerMentor skill (Some c) (context_recommendations m) false /\
      run user_input m
      = Ok (get_career_roadmap c ++ nl ++ nl ++
            "Type 'jobs' to see career opportunities",
            mkCareerMentor skill (Some c) (context_recommendations m) false) /\
      _career_agent user_input m
      = ("🚀 Great choice! Exploring " ++ c ++ " now...",
         mkCareerMentor skill (Some c) (context_recommendations m) false)
  | None =>
      (forall c, In c (context_recommendations m) ->
                 contains (lower c) (lower user_input) = false) /\
      _handle_agent_handoff user_input m = m /\
      run user_input m = Ok (reprompt (context_recommendations m), m) /\
      _career_agent user_input m = (reprompt (context_recommendations m), m)
  end.
Proof.
  intros Hcur Haw.
  destruct (find _ (context_recommendations m)) as [c|] eqn:Hfind.
  - pose proof (find_some _ _ Hfind) as [Hin Hp].
    destruct (find_first _ _ _ Hfind) as (_ & Hfirst).
    split; [assumption|]. split; [assumption|]. split; [exact Hfirst|].
    split; [intros c0 H; now apply H|].
    assert (Hh : _handle_agent_handoff user_input m
                 = mkCareerMentor skill (Some c) (context_recommendations m) false).
    { unfold _handle_agent_handoff. now rewrite Hcur, Haw, Hfind. }
    split; [exact Hh|]. split.
    + unfold run. rewrite Hh.
      cbn [current_agent _skill_agent context_career bind]. reflexivity.
    + unfold _career_agent. now rewrite Haw, Hfind.
  - split; [now apply find_none_iff|].
    assert (Hh : _handle_agent_handoff user_input m = m).
    { unfold _handle_agent_handoff. now rewrite Hcur, Haw, Hfind. }
    split; [exact Hh|].
    assert (Ha : _career_agent user_input m
                 = (reprompt (context_recommendations m), m)).
    { unfold _career_agent. now rewrite Haw, Hfind. }
    split; [|exact Ha].
    unfold run. rewrite Hh, Hcur, Ha. reflexivity.
Qed.

(** The example of the design: the list Data Scientist, Data Analyst. *)
Lemma career_selection_witness :
  (In "Data Scientist" ["Data Scientist"; "Data Analyst"] /\
   contains (lower "Data Scientist") (lower "I'll go with data scientist please") = true /\
   (exists before after,
       ["Data Scientist"; "Data Analyst"] = (before ++ "Data Scientist" :: after)%list /\
       forall c', In c' before ->
                  contains (lower c') (lower "I'll go with data scientist please")
                  = false) /\
   (forall c0,
       (forall c', In c' ["Data Scientist"; "Data Analyst"] ->
                   contains (lower c') (lower "I'll go with data scientist please")
                   = true -> c' = c0) ->
       "Data Scientist" = c0) /\
   _handle_agent_handoff "I'll go with data scientist please"
     (mkCareerMentor career None ["Data Scientist"; "Data Analyst"] true)
   = mkCareerMentor skill (Some "Data Scientist")
       ["Data Scientist"; "Data Analyst"] false /\
   run "I'll go with data scientist please"
     (mkCareerMentor career None ["Data Scientist"; "Data Analyst"] true)
   = Ok (get_career_roadmap "Data Scientist" ++ nl ++ nl ++
         "Type 'jobs' to see career opportunities",
         mkCareerMentor skill (Some "Data Scientist")
           ["Data Scientist"; "Data Analyst"] false) /\
   _career_agent "I'll go with data scientist please"
     (mkCareerMentor career None ["Data Scientist"; "Data Analyst"] true)
   = ("🚀 Great choice! Exploring " ++ "Data Scientist" ++ " now...",
      mkCareerMentor skill (Some "Data Scientist")
        ["Data Scientist"; "Data Analyst"] false)) /\
  ((forall c, In c ["Data Scientist"; "Data Analyst"] ->
              contains (lower c) (lower "tell me more") = false) /\
   _handle_agent_handoff "tell me more"
     (mkCareerMentor career None ["Data Scientist"; "Data Analyst"] true)
   = mkCareerMentor career None ["Data Scientist"; "Data Analyst"] true /\
   run "tell me more" (mkCareerMentor career None ["Data Scientist"; "Data Analyst"] true)
   = Ok (reprompt ["Data Scientist"; "Data Analyst"],
         mkCareerMentor career None ["Data Scientist"; "Data Analyst"] true) /\
   _career_agent "tell me more"
     (mkCareerMentor career None ["Data Scientist"; "Data Analyst"] true)
   = (reprompt ["Data Scientist"; "Data Analyst"],
      mkCareerMentor career None ["Data Scientist"; "Data Analyst"] true)).
Proof.
  split.
  - exact (career_selection "I'll go with data scientist please"
             (mkCareerMentor career None ["Data Scientist"; "Data Analyst"] true)
             eq_refl eq_refl).
  - exact (career_selection "tell me more"
             (mkCareerMentor career None ["Data Scientist"; "Data Analyst"] true)
             eq_refl eq_refl).
Defined.

(** C7 (as stated) fails for an input that contains more than one listed
    option: the option recorded is the first of the list that the input
    contains, here Data Scientist, although the input contains Data Analyst
    and names it first. *)
Lemma later_option_not_selected :
  contains (lower "Data Analyst") (lower "data analyst, not data scientist") = true /\
  run "data analyst, not data scientist"
    (mkCareerMentor career None ["Data Scientist"; "Data Analyst"] true)
  = Ok (get_career_roadmap "Data Scientist" ++ nl ++ nl ++
        "Type 'jobs' to see career opportunities",
        mkCareerMentor skill (Some "Data Scientist")
          ["Data Scientist"; "Data Analyst"] false).
Proof. split; reflexivity. Qed.

(** [mentor_turn] quits on exit and on quit, and on nothing else. *)
Lemma mentor_turn_quit (line : string) (m : CareerMentor) :
  mentor_turn line m = Ok Quit <->
  lower (strip line) = "exit" \/ lower (strip line) = "quit".
Proof.
  unfold mentor_turn. cbn [existsb].
  destruct (String.eqb_spec (lower (strip line)) "exit") as [E|E];
    destruct (String.eqb_spec (lower (strip line)) "quit") as [Q|Q];
    cbn [orb]; try (split; auto; fail).
  split.
  - destruct (run (strip line) m) as [[response m']|e]; cbn [bind];
      intros H; discriminate H.
  - intros [H|H]; congruence.
Qed.

End Selection.

(* ================================================================== *)
(** * Leaving a chat session *)
(* ================================================================== *)

Section Leaving.

Variable World : Type.
Variable json_loads : string -> Res JValue.
Variable create : Request -> M World Reply.
Variable roll_dice : JValue -> M World string.
Variable generate_event : JValue -> M World string.

Let game_turn := Game.game_turn World json_loads create roll_dice generate_event.
Let game_loop := Game.game_loop World json_loads create roll_dice generate_event.

(** [game_turn] quits on quit, and on nothing else. *)
Lemma game_turn_quit (fuel : nat) (line : string) (gm : Game.GameMaster) (w : World) :
  fst (game_turn fuel line gm w) = Ok (Done Game.Quit) <->
  lower (strip line) = "quit".
Proof.
  unfold game_turn, Game.game_turn.
  destruct (String.eqb_spec (lower (strip line)) "quit") as [Q|Q].
  - split; auto.
  - split; [|intros H; congruence].
    unfold mbind, ret, raise, lift.
    match goal with |- context [Game.generate_response ?a ?b ?c ?d ?e ?f ?g ?h ?i ?j] =>
      destruct (Game.generate_response a b c d e f g h i j) as [[[[text|]|]|e0] w1]
    end; cbn [fst]; try (intros H; discriminate H).
    match goal with |- context [Game.process_response ?a ?b] =>
      destruct (Game.process_response a b) as [[processed gm']|e1]
    end; cbn [fst]; try (intros H; discriminate H).
    destruct (Game.player_health (Game.state gm') <=? 0)%Z; cbn [fst];
      intros H; discriminate H.
Qed.

(** C8 (as amended).  The career mentor leaves its loop, and the process
    ends normally, on an input that is exit or quit once trimmed and in
    lower case, and on no other input.  The game master does so on quit
    only: there exit is processed as a turn. *)
Theorem leaving_words (line : string) :
  (forall m : Career.CareerMentor,
      Career.mentor_turn line m = Ok Career.Quit <->
      lower (strip line) = "exit" \/ lower (strip line) = "quit") /\
  (forall (m : Career.CareerMentor) (rest out : list string),
      lower (strip line) = "exit" \/ lower (strip line) = "quit" ->
      Career.main_loop (line :: rest) m out = Ok (out ++ ["Goodbye! 👋"])%list) /\
  (forall (fuel : nat) (gm : Game.GameMaster) (w : World),
      fst (game_turn fuel line gm w) = Ok (Done Game.Quit) <->
      lower (strip line) = "quit") /\
  (forall (fuel : nat) (gm : Game.GameMaster) (rest out : list string) (w : World),
      Game.game_over (Game.state gm) = false ->
      lower (strip line) = "quit" ->
      game_loop fuel (line :: rest) gm out w
      = (Ok (Done (out ++ ["Thanks for playing!"])%list), w)).
Proof.
  split; [|split; [|split]].
  - intros m. apply mentor_turn_quit.
  - intros m rest out H. apply (mentor_turn_quit line m) in H.
    cbn [Career.main_loop]. now rewrite H.
  - intros fuel gm w. apply game_turn_quit.
  - intros fuel gm rest out w Hgo Hq. unfold game_loop.
    cbn [Game.game_loop]. rewrite Hgo.
    unfold mbind, Game.game_turn. rewrite Hq. reflexivity.
Qed.

End Leaving.

Lemma leaving_words_witness :
  Career.mentor_turn " Quit " Career.CareerMentor_init = Ok Career.Quit /\
  Career.main_loop [" Quit "] Career.CareerMentor_init [] = Ok ["Goodbye! 👋"] /\
  fst (Game.game_turn unit Stubs.loads_empty_object
         (Stubs.answering "The forest is quiet.")
         (Stubs.tool_returning "Dice rolls: [3] (Total: 3)")
         (Stubs.tool_returning "A hidden trap triggers!")
         1 " Quit " Game.GameMaster_init tt)
  = Ok (Done Game.Quit) /\
  Game.game_loop unit Stubs.loads_empty_object
    (Stubs.answering "The forest is quiet.")
    (Stubs.tool_returning "Dice rolls: [3] (Total: 3)")
    (Stubs.tool_returning "A hidden trap triggers!")
    1 [" Quit "] Game.GameMaster_init [] tt
  = (Ok (Done ["Thanks for playing!"]), tt).
Proof.
  destruct (leaving_words unit Stubs.loads_empty_object
              (Stubs.answering "The forest is quiet.")
              (Stubs.tool_returning "Dice rolls: [3] (Total: 3)")
              (Stubs.tool_returning "A hidden trap triggers!")
              " Quit ") as (Hm & Hml & Hg & Hgl).
  split; [|split; [|split]].
  - apply Hm. now right.
  - apply (Hml Career.CareerMentor_init [] []). now right.
  - apply Hg. reflexivity.
  - apply (Hgl 1 Game.GameMaster_init [] [] tt); reflexivity.
Defined.

(** C8 (as stated) fails in the game master: typing exit does not end the
    session; the line is stored as the last action and sent to the
    narrator. *)
Lemma exit_is_a_game_turn :
  exists gm',
    Game.game_turn unit Stubs.loads_empty_object
      (Stubs.answering "The forest is quiet.")
      (Stubs.tool_returning "Dice rolls: [3] (Total: 3)")
      (Stubs.tool_returning "A hidden trap triggers!")
      1 "exit" Game.GameMaster_init tt
    = (Ok (Done (Game.Continue gm' "Narrator: The forest is quiet.")), tt) /\
    Game.last_action (Game.state gm') = "exit".
Proof. eexists. split; reflexivity. Qed.

Example exit_leaves_the_mentor :
  Career.main_loop ["I like data"; " EXIT "] Career.CareerMentor_init []
  = Ok [Career.nl ++ "Mentor: " ++
        fst (Career._career_agent "I like data" Career.CareerMentor_init) ++ Career.nl;
        "Goodbye! 👋"].
Proof. reflexivity. Qed.

Example quit_leaves_the_game :
  Game.game_loop unit Stubs.loads_empty_object
    (Stubs.answering "The forest is quiet.")
    (Stubs.tool_returning "Dice rolls: [3] (Total: 3)")
    (Stubs.tool_returning "A hidden trap triggers!")
    1 ["Quit"] Game.GameMaster_init [] tt
  = (Ok (Done ["Thanks for playing!"]), tt).
Proof. reflexivity. Qed.

(* ================================================================== *)
(** * The retry policy of the travel designer *)
(* ================================================================== *)

Section RetryPolicy.

Import Travel.

Variable World : Type.
Variable create : Request -> M World Reply.

Let call_openai_from := Travel.call_openai_from World create.
Let call_openai := Travel.call_openai World create.

Lemma calls_in_app (a b : list Event) :
  calls_in (a ++ b) = calls_in a + calls_in b.
Proof. induction a as [|[r|d] a IH]; simpl; auto. Qed.

Lemma sleeps_in_app (a b : list Event) :
  sleeps_in (a ++ b) = (sleeps_in a ++ sleeps_in b)%list.
Proof. induction a as [|[r|d] a IH]; simpl; auto. now rewrite IH. Qed.

Lemma calls_in_backoff (req : Request) (delay : Z) (attempt more : nat) :
  calls_in (backoff_events req delay attempt more) = more.
Proof. revert attempt. induction more; intros; simpl; auto. Qed.

Lemma sleeps_in_backoff (req : Request) (delay : Z) (attempt more : nat) :
  sleeps_in (backoff_events req delay attempt more)
  = map (fun k => (delay * 2 ^ Z.of_nat k)%Z) (seq attempt more).
Proof. revert attempt. induction more; intros; simpl; auto. now rewrite IHmore. Qed.

(** An error that is not classified as transient leaves [call_openai] at
    once. *)
Lemma call_openai_from_permanent (remaining attempt : nat) (m : Machine World)
  (e : exn) (w' : World) :
  create (request_of (self m)) (world m) = (Raise e, w') ->
  is_transient (exn_str e) = false ->
  call_openai_from (S remaining) attempt m
  = (Raise e, mkMachine (self m) w' (trace m ++ [Called (request_of (self m))])).
Proof.
  intros Hc Ht. unfold call_openai_from. cbn [Travel.call_openai_from].
  unfold mbind, get_self, try_except, client_create. cbn [self world trace].
  rewrite Hc. cbn [self].
  destruct (attempt <? max_retries (self m) - 1)%nat; [|reflexivity].
  unfold handle_rate_limit, mbind, get_self, ret. cbn [self].
  rewrite Ht. reflexivity.
Qed.

(** One failed attempt that is classified as transient and is not the
    last: the policy sleeps and goes on to the next attempt. *)
Lemma call_openai_from_retry (remaining attempt : nat) (m : Machine World)
  (e : exn) (w' : World) :
  create (request_of (self m)) (world m) = (Raise e, w') ->
  is_transient (exn_str e) = true ->
  (attempt < max_retries (self m) - 1)%nat ->
  (0 <= retry_delay (self m) * 2 ^ Z.of_nat attempt <= sleep_limit)%Z ->
  call_openai_from (S remaining) attempt m
  = call_openai_from remaining (S attempt)
      (mkMachine (self m) w'
         (trace m ++ [Called (request_of (self m));
                      Slept (retry_delay (self m) * 2 ^ Z.of_nat attempt)])).
Proof.
  intros Hc Ht Ha [Hlo Hhi]. unfold call_openai_from.
  cbn [Travel.call_openai_from].
  unfold mbind at 1. unfold get_self at 1. unfold try_except, client_create.
  rewrite Hc. cbn [self world trace].
  apply Nat.ltb_lt in Ha. rewrite Ha.
  unfold handle_rate_limit, mbind, get_self, ret, time_sleep. cbn [self].
  rewrite Ht.
  apply Z.ltb_ge in Hlo. rewrite Hlo.
  apply Z.ltb_ge in Hhi. rewrite Hhi.
  cbn [self world trace]. rewrite <- app_assoc. reflexivity.
Qed.

Lemma delay_in_range (delay : Z) (n k : nat) :
  (0 <= delay)%Z ->
  (delay * 2 ^ (Z.of_nat n - 2) <= sleep_limit)%Z ->
  (k < n - 1)%nat ->
  (0 <= delay * 2 ^ Z.of_nat k <= sleep_limit)%Z.
Proof.
  intros Hd Hl Hk. split.
  - apply Z.mul_nonneg_nonneg; [assumption|]. apply Z.pow_nonneg. lia.
  - eapply Z.le_trans; [|exact Hl].
    apply Z.mul_le_mono_nonneg_l; [assumption|].
    apply Z.pow_le_mono_r; lia.
Qed.

(** When every call raises an error classified as transient, the attempts
    from [attempt] on are all made, with a sleep before each but the
    first, and the last error is raised. *)
Lemma call_openai_from_transient (remaining : nat) :
  (forall req w, exists e w',
      create req w = (Raise e, w') /\ is_transient (exn_str e) = true) ->
  forall (attempt : nat) (m : Machine World),
    (attempt + S remaining = max_retries (self m))%nat ->
    (0 <= retry_delay (self m))%Z ->
    (retry_delay (self m) * 2 ^ (Z.of_nat (max_retries (self m)) - 2)
     <= sleep_limit)%Z ->
    exists e w',
      call_openai_from (S remaining) attempt m
      = (Raise e,
         mkMachine (self m) w'
           (trace m ++
            Called (request_of (self m))
              :: backoff_events (request_of (self m)) (retry_delay (self m))
                   attempt remaining)) /\
      is_transient (exn_str e) = true.
Proof.
  intros Hall. induction remaining as [|r IH]; intros attempt m Hn Hd Hl.
  - destruct (Hall (request_of (self m)) (world m)) as (e & w' & Hc & Ht).
    exists e, w'. split; [|assumption].
    unfold call_openai_from. cbn [Travel.call_openai_from backoff_events].
    unfold mbind, get_self, try_except, client_create. rewrite Hc.
    cbn [self world trace].
    replace (attempt <? max_retries (self m) - 1)%nat with false
      by (symmetry; apply Nat.ltb_ge; lia).
    reflexivity.
  - destruct (Hall (request_of (self m)) (world m)) as (e & w' & Hc & Ht).
    rewrite (call_openai_from_retry _ _ _ _ _ Hc Ht);
      [| lia | apply (delay_in_range _ (max_retries (self m))); auto; lia].
    match goal with |- context [call_openai_from _ _ ?m1] =>
      destruct (IH (S attempt) m1) as (e1 & w1 & Hr & Ht1)
    end; cbn [self]; try assumption; [lia|].
    exists e1, w1. split; [|assumption].
    rewrite Hr. cbn [self trace backoff_events].
    rewrite <- app_assoc. reflexivity.
Qed.

(** C4.  When the Completion Client raises an error classified as transient
    on every call, [call_openai] calls it exactly [max_retries] times,
    sleeps [retry_delay * 2 ^ attempt] seconds after the failed attempt
    number [attempt] (none after the last), and then raises an error to the
    caller; with the values of [__init__] that is 5 calls and sleeps of 30,
    60, 120 and 240 seconds. *)
Theorem retry_ceiling (m : Machine World) :
  (forall req w, exists e w',
      create req w = (Raise e, w') /\ is_transient (exn_str e) = true) ->
  (0 <= retry_delay (self m))%Z ->
  (retry_delay (self m) * 2 ^ (Z.of_nat (max_retries (self m)) - 2)
   <= sleep_limit)%Z ->
  exists e m',
    call_openai m = (Raise e, m') /\
    self m' = self m /\
    trace m' = (trace m ++ retry_events (request_of (self m)) (retry_delay (self m))
                             (max_retries (self m)))%list /\
    calls_in (trace m') = (calls_in (trace m) + max_retries (self m))%nat /\
    sleeps_in (trace m')
    = (sleeps_in (trace m) ++
       map (fun attempt => (retry_delay (self m) * 2 ^ Z.of_nat attempt)%Z)
         (seq 0 (max_retries (self m) - 1)))%list.
Proof.
  intros Hall Hd Hl. unfold call_openai, Travel.call_openai.
  unfold mbind at 1. unfold get_self at 1.
  destruct (max_retries (self m)) as [|n] eqn:Hn.
  - eexists _, m. cbn [Travel.call_openai_from retry_events].
    unfold raise. rewrite app_nil_r, Nat.add_0_r. cbn [seq map].
    rewrite app_nil_r. repeat split; reflexivity.
  - destruct (call_openai_from_transient n Hall 0 m) as (e & w' & Hr & _);
      [lia | assumption | now rewrite Hn |].
    unfold call_openai_from in Hr. rewrite Hr.
    eexists e, _. split; [reflexivity|]. cbn [self trace retry_events].
    repeat split.
    + rewrite calls_in_app. cbn [calls_in]. now rewrite calls_in_backoff.
    + rewrite sleeps_in_app. cbn [sleeps_in]. rewrite sleeps_in_backoff.
      now replace (S n - 1)%nat with n by lia.
Qed.

(** Whatever the endpoint does, [call_openai_from] only adds to the trace
    and leaves the designer as it was. *)
Lemma call_openai_from_extends (remaining : nat) :
  forall (attempt : nat) (m : Machine World),
  exists tail,
    trace (snd (call_openai_from remaining attempt m)) = (trace m ++ tail)%list /\
    self (snd (call_openai_from remaining attempt m)) = self m.
Proof.
  unfold call_openai_from.
  induction remaining as [|r IH]; intros attempt m; cbn [Travel.call_openai_from].
  - exists []. unfold raise. cbn [snd]. now rewrite app_nil_r.
  - unfold mbind, get_self, try_except, client_create. cbn [self world trace].
    destruct (create (request_of (self m)) (world m)) as [[reply|e] w1].
    + eexists. cbn [snd trace self]. split; reflexivity.
    + destruct (attempt <? max_retries (self m) - 1)%nat;
        [|eexists; unfold raise; cbn [snd trace self]; split; reflexivity].
      unfold handle_rate_limit, mbind, get_self, ret, time_sleep, raise.
      cbn [self].
      destruct (is_transient (exn_str e));
        [|eexists; cbn [snd trace self]; split; reflexivity].
      destruct (retry_delay (self m) * 2 ^ Z.of_nat attempt <? 0)%Z;
        [eexists; cbn [snd trace self]; split; reflexivity|].
      destruct (sleep_limit <? retry_delay (self m) * 2 ^ Z.of_nat attempt)%Z;
        [eexists; cbn [snd trace self]; split; reflexivity|].
      cbn [self world trace].
      match goal with |- context [Travel.call_openai_from _ _ _ _ ?m1] =>
        destruct (IH (S attempt) m1) as (tail & Ht & Hs)
      end.
      rewrite Ht, Hs. cbn [trace self]. rewrite <- !app_assoc.
      eexists. split; reflexivity.
Qed.

(** Every attempt starts with a call of the endpoint. *)
Lemma call_openai_from_calls (remaining attempt : nat) (m : Machine World) :
  exists tail,
    trace (snd (call_openai_from (S remaining) attempt m))
    = (trace m ++ Called (request_of (self m)) :: tail)%list.
Proof.
  unfold call_openai_from. cbn [Travel.call_openai_from].
  unfold mbind, get_self, try_except, client_create. cbn [self world trace].
  destruct (create (request_of (self m)) (world m)) as [[reply|e] w1].
  - exists []. reflexivity.
  - destruct (attempt <? max_retries (self m) - 1)%nat;
      [|exists []; reflexivity].
    unfold handle_rate_limit, mbind, get_self, ret, time_sleep, raise.
    cbn [self].
    destruct (is_transient (exn_str e)); [|exists []; reflexivity].
    destruct (retry_delay (self m) * 2 ^ Z.of_nat attempt <? 0)%Z;
      [exists []; reflexivity|].
    destruct (sleep_limit <? retry_delay (self m) * 2 ^ Z.of_nat attempt)%Z;
      [exists []; reflexivity|].
    cbn [self world trace].
    match goal with |- context [Travel.call_openai_from _ _ ?r ?a ?m1] =>
      destruct (call_openai_from_extends r a m1) as (tail & Ht & _)
    end.
    unfold call_openai_from in Ht. rewrite Ht. cbn [trace].
    eexists. rewrite <- !app_assoc. cbn [app]. reflexivity.
Qed.

(** After [k] failures classified as transient, none of them at the last
    attempt, the failure of the next attempt is raised when it is not
    classified as transient or when that attempt is the last; nothing is
    slept after it. *)
Lemma call_openai_from_fails (k : nat) :
  forall (remaining attempt : nat) (m : Machine World) (e : exn) (w1 w' : World),
    fails_transiently create (request_of (self m)) k (world m) w1 ->
    create (request_of (self m)) w1 = (Raise e, w') ->
    (k <= remaining)%nat ->
    (forall i, (i < k)%nat ->
       (attempt + i < max_retries (self m) - 1)%nat /\
       (0 <= retry_delay (self m) * 2 ^ Z.of_nat (attempt + i) <= sleep_limit)%Z) ->
    is_transient (exn_str e) = false
    \/ ~ (attempt + k < max_retries (self m) - 1)%nat ->
    call_openai_from (S remaining) attempt m
    = (Raise e,
       mkMachine (self m) w'
         (trace m ++
          Called (request_of (self m))
            :: backoff_events (request_of (self m)) (retry_delay (self m))
                 attempt k)).
Proof.
  induction k as [|k IH]; intros remaining attempt m e w1 w' Hf Hc Hk Hi Hlast.
  - cbn [fails_transiently] in Hf. subst w1. cbn [backoff_events].
    destruct Hlast as [Ht|Hl]; [now apply call_openai_from_permanent|].
    unfold call_openai_from. cbn [Travel.call_openai_from].
    unfold mbind, get_self, try_except, client_create. rewrite Hc.
    cbn [self world trace].
    replace (attempt <? max_retries (self m) - 1)%nat with false
      by (symmetry; apply Nat.ltb_ge; lia).
    reflexivity.
  - cbn [fails_transiently] in Hf. destruct Hf as (e0 & w0 & Hc0 & Ht0 & Hf).
    destruct (Hi 0%nat ltac:(lia)) as [Ha Hd]. rewrite Nat.add_0_r in Ha, Hd.
    rewrite (call_openai_from_retry _ _ _ _ _ Hc0 Ht0 Ha Hd).
    destruct remaining as [|remaining]; [lia|].
    rewrite (IH remaining (S attempt) _ e w1 w'); cbn [self world trace];
      try assumption; try lia.
    + cbn [backoff_events]. now rewrite <- app_assoc.
    + intros i Hlt. destruct (Hi (S i) ltac:(lia)) as [Ha' Hd'].
      rewrite Nat.add_succ_r in Ha', Hd'. now split.
    + destruct Hlast as [Ht|Hl]; [now left|right; lia].
Qed.

(** After [k] failures classified as transient, none of them at the last
    attempt, the policy has slept after each and calls once more. *)
Lemma call_openai_from_goes_on (k : nat) :
  forall (remaining attempt : nat) (m : Machine World) (w' : World),
    fails_transiently create (request_of (self m)) k (world m) w' ->
    (k <= remaining)%nat ->
    (forall i, (i < k)%nat ->
       (attempt + i < max_retries (self m) - 1)%nat /\
       (0 <= retry_delay (self m) * 2 ^ Z.of_nat (attempt + i) <= sleep_limit)%Z) ->
    exists tail,
      trace (snd (call_openai_from (S remaining) attempt m))
      = (trace m ++
         (Called (request_of (self m))
            :: backoff_events (request_of (self m)) (retry_delay (self m))
                 attempt k) ++ tail)%list.
Proof.
  induction k as [|k IH]; intros remaining attempt m w' Hf Hk Hi.
  - exact (call_openai_from_calls remaining attempt m).
  - cbn [fails_transiently] in Hf. destruct Hf as (e0 & w0 & Hc0 & Ht0 & Hf).
    destruct (Hi 0%nat ltac:(lia)) as [Ha Hd]. rewrite Nat.add_0_r in Ha, Hd.
    rewrite (call_openai_from_retry _ _ _ _ _ Hc0 Ht0 Ha Hd).
    destruct remaining as [|remaining]; [lia|].
    match goal with |- context [call_openai_from _ _ ?m1] =>
      destruct (IH remaining (S attempt) m1 w') as (tail & Ht)
    end; cbn [self world trace]; try assumption; try lia.
    + intros i Hlt. destruct (Hi (S i) ltac:(lia)) as [Ha' Hd'].
      rewrite Nat.add_succ_r in Ha', Hd'. now split.
    + exists tail. rewrite Ht. cbn [self trace backoff_events app].
      rewrite <- !app_assoc. reflexivity.
Qed.

Lemma fails_transiently_snoc (k : nat) :
  forall (req : Request) (w w1 w' : World) (e : exn),
    fails_transiently create req k w w1 ->
    create req w1 = (Raise e, w') ->
    is_transient (exn_str e) = true ->
    fails_transiently create req (S k) w w'.
Proof.
  induction k as [|k IH]; intros req w w1 w' e Hf Hc Ht.
  - cbn [fails_transiently] in Hf. subst w1. exists e, w'. now repeat split.
  - cbn [fails_transiently] in Hf. destruct Hf as (e0 & w0 & Hc0 & Ht0 & Hf).
    exists e0, w0. repeat split; try assumption. now apply (IH req w0 w1 w' e).
Qed.

(** C1 (as amended).  The classification by [handle_rate_limit] gates the
    retry as well as the delay, at every attempt.  Let the first [k]
    attempts of [call_openai] fail with errors classified as transient and
    let attempt number [k] fail with the error [e].  When [e] is not
    classified as transient it is not retried: [call_openai] raises [e]
    after these [k + 1] calls, having slept after each of the first [k] and
    not after the last.  When [e] is classified as transient and the
    attempt is not the last one allowed, the backoff sleep and a further
    call follow.  When it is the last one allowed, [e] is raised without a
    sleep. *)
Theorem classification_gates_retry (k : nat) (m : Machine World) (e : exn)
  (w1 w' : World) :
  fails_transiently create (request_of (self m)) k (world m) w1 ->
  create (request_of (self m)) w1 = (Raise e, w') ->
  (k < max_retries (self m))%nat ->
  (forall i, (i < k)%nat ->
     (0 <= retry_delay (self m) * 2 ^ Z.of_nat i <= sleep_limit)%Z) ->
  (is_transient (exn_str e) = false ->
   call_openai m
   = (Raise e,
      mkMachine (self m) w'
        (trace m ++ retry_events (request_of (self m)) (retry_delay (self m)) (S k)))) /\
  (is_transient (exn_str e) = true ->
   (S k < max_retries (self m))%nat ->
   (0 <= retry_delay (self m) * 2 ^ Z.of_nat k <= sleep_limit)%Z ->
   exists tail,
     trace (snd (call_openai m))
     = (trace m ++
        retry_events (request_of (self m)) (retry_delay (self m)) (S (S k)) ++
        tail)%list) /\
  (is_transient (exn_str e) = true ->
   S k = max_retries (self m) ->
   call_openai m
   = (Raise e,
      mkMachine (self m) w'
        (trace m ++ retry_events (request_of (self m)) (retry_delay (self m)) (S k)))).
Proof.
  intros Hf Hc Hk Hd. unfold call_openai, Travel.call_openai.
  unfold mbind at 1. unfold get_self at 1. unfold mbind at 1. unfold get_self at 1.
  unfold mbind at 1. unfold get_self at 1.
  destruct (max_retries (self m)) as [|n] eqn:Hmax; [lia|].
  cbn [retry_events].
  split; [|split].
  - intros Ht.
    apply (call_openai_from_fails k n 0 m e w1 w'); try assumption; [lia| |now left].
    intros i Hlt. cbn [Nat.add]. split; [lia|now apply Hd].
  - intros Ht Hlt Hdk.
    apply (call_openai_from_goes_on (S k) n 0 m w').
    + now apply (fails_transiently_snoc k _ _ w1 w' e).
    + lia.
    + intros i Hi. cbn [Nat.add]. split; [lia|].
      destruct (Nat.eq_dec i k) as [->|Hne]; [assumption|apply Hd; lia].
  - intros Ht Hlast.
    apply (call_openai_from_fails k n 0 m e w1 w'); try assumption; [lia| |right; lia].
    intros i Hlt. cbn [Nat.add]. split; [lia|now apply Hd].
Qed.

End RetryPolicy.

Lemma retry_ceiling_witness :
  exists e m',
    Travel.call_openai unit (Stubs.failing "Rate limit exceeded") fresh = (Raise e, m') /\
    calls_in (Travel.trace m') = 5 /\
    sleeps_in (Travel.trace m') = [30; 60; 120; 240]%Z.
Proof.
  destruct (retry_ceiling unit (Stubs.failing "Rate limit exceeded") fresh)
    as (e & m' & Hr & _ & _ & Hc & Hs).
  - intros req w. eexists _, _. split; reflexivity.
  - vm_compute. discriminate.
  - vm_compute. discriminate.
  - exists e, m'. repeat split; assumption.
Defined.

(** A rate-limit error, then an error that is not classified as transient:
    two calls and one sleep, and the second error is raised.  Two
    rate-limit errors: a third call follows.  Four of them and a fifth at
    the last attempt allowed: it is raised with no sleep after it. *)
Lemma classification_gates_retry_witness :
  Travel.call_openai (list string) (Stubs.failing_then "Lisbon")
    (Travel.mkMachine Travel.TravelDesigner_init
       ["Rate limit exceeded"; "Invalid API key"] [])
  = (Raise (Exn "APIError" "Invalid API key"),
     Travel.mkMachine Travel.TravelDesigner_init []
       ([] ++ retry_events (Travel.request_of Travel.TravelDesigner_init) 30 2)) /\
  (exists tail,
     Travel.trace
       (snd (Travel.call_openai (list string) (Stubs.failing_then "Lisbon")
               (Travel.mkMachine Travel.TravelDesigner_init
                  ["Rate limit exceeded"; "Rate limit exceeded"] [])))
     = ([] ++ retry_events (Travel.request_of Travel.TravelDesigner_init) 30 3
        ++ tail)%list) /\
  Travel.call_openai (list string) (Stubs.failing_then "Lisbon")
    (Travel.mkMachine Travel.TravelDesigner_init
       ["Rate limit exceeded"; "Rate limit exceeded"; "Rate limit exceeded";
        "Rate limit exceeded"; "Rate limit exceeded"] [])
  = (Raise (Exn "APIError" "Rate limit exceeded"),
     Travel.mkMachine Travel.TravelDesigner_init []
       ([] ++ retry_events (Travel.request_of Travel.TravelDesigner_init) 30 5)).
Proof.
  assert (Hd : forall k i : nat, (k <= 4)%nat -> (i < k)%nat ->
                 (0 <= 30 * 2 ^ Z.of_nat i <= Travel.sleep_limit)%Z).
  { intros k i Hk Hi.
    assert (H : i = 0%nat \/ i = 1%nat \/ i = 2%nat \/ i = 3%nat) by lia.
    destruct H as [-> | [-> | [-> | ->]]]; split; vm_compute; discriminate. }
  split; [|split].
  - apply (proj1 (classification_gates_retry (list string)
                    (Stubs.failing_then "Lisbon") 1
                    (Travel.mkMachine Travel.TravelDesigner_init
                       ["Rate limit exceeded"; "Invalid API key"] [])
                    (Exn "APIError" "Invalid API key") ["Invalid API key"] []
                    ltac:(do 2 eexists; repeat split)
                    eq_refl ltac:(cbv; repeat constructor)
                    ltac:(intros i Hi; apply (Hd 1%nat); [lia|exact Hi]))).
    reflexivity.
  - apply (proj1 (proj2 (classification_gates_retry (list string)
                    (Stubs.failing_then "Lisbon") 1
                    (Travel.mkMachine Travel.TravelDesigner_init
                       ["Rate limit exceeded"; "Rate limit exceeded"] [])
                    (Exn "APIError" "Rate limit exceeded") ["Rate limit exceeded"] []
                    ltac:(do 2 eexists; repeat split)
                    eq_refl ltac:(cbv; repeat constructor)
                    ltac:(intros i Hi; apply (Hd 1%nat); [lia|exact Hi])))).
    + reflexivity.
    + cbv. repeat constructor.
    + apply (Hd 2%nat); lia.
  - apply (proj2 (proj2 (classification_gates_retry (list string)
                    (Stubs.failing_then "Lisbon") 4
                    (Travel.mkMachine Travel.TravelDesigner_init
                       ["Rate limit exceeded"; "Rate limit exceeded";
                        "Rate limit exceeded"; "Rate limit exceeded";
                        "Rate limit exceeded"] [])
                    (Exn "APIError" "Rate limit exceeded") ["Rate limit exceeded"] []
                    ltac:(repeat (do 2 eexists; split; [reflexivity|split; [reflexivity|]]);
                          reflexivity)
                    eq_refl ltac:(cbv; repeat constructor)
                    ltac:(intros i Hi; apply (Hd 4%nat); [lia|exact Hi])))).
    + reflexivity.
    + reflexivity.
Defined.

(** C1 (as stated) fails: an error that is not classified as transient is
    raised after one call, where a transient one is tried five times. *)
Lemma permanent_failure_one_call :
  Travel.is_transient "Invalid API key" = false /\
  calls_in (Travel.trace
              (snd (Travel.call_openai unit (Stubs.failing "Invalid API key") fresh)))
  = 1 /\
  Travel.is_transient "Rate limit exceeded" = true /\
  calls_in (Travel.trace
              (snd (Travel.call_openai unit (Stubs.failing "Rate limit exceeded") fresh)))
  = 5.
Proof. repeat split. Qed.

(* ================================================================== *)
(** * The travel designer: when no destination is found *)
(* ================================================================== *)

Section NoDestination.

Import Travel.

Variable World : Type.
Variable json_loads : string -> Res JValue.
Variable json_dumps : JValue -> string.
Variable departure_date : string.
Variable return_date : string.

Let handle_reply :=
  Travel.handle_reply World json_loads json_dumps departure_date return_date.

(** What the Destination Specialist's final reply leads to: the error
    text when the destination extracted is falsy, a handoff otherwise. *)
Lemma handle_reply_destination (reply d : option string) (m : Machine World) :
  current_agent (self m) = destination_agent ->
  extract_destination reply = Ok d ->
  fst (handle_reply (mkReply reply []) m)
  = if falsy d then Ok (Return no_destination) else Ok Again.
Proof.
  intros Hcur Hd. unfold handle_reply, Travel.handle_reply.
  cbn [tool_calls content].
  unfold mbind, modify_self, get_self, lift, ret.
  cbn [self world trace current_agent set_full_plan set_messages].
  rewrite Hcur, Hd. destruct (falsy d); [reflexivity|].
  unfold handoff, mbind, get_self, lift, modify_self, ret.
  cbn [self world trace messages set_user_preferences].
  destruct (messages (self m)); reflexivity.
Qed.

Lemma extract_destination_blank (reply : option string) :
  exists d, extract_destination reply = Ok d /\
            (falsy d = true <-> blank_destination reply).
Proof.
  destruct reply as [message|]; [|exists None; simpl; tauto].
  destruct (string_dec message "") as [->|Hne].
  { exists None. simpl. tauto. }
  destruct (contains "Destination:" message) eqn:Hc.
  - destruct (proj1 (contains_partition _ _) Hc) as (pre & suf & Hp).
    exists (Some (strip (until nl (until "Destination:" suf)))).
    split.
    { apply (extract_destination_marker message pre); [assumption|].
      exists suf. split; [assumption|reflexivity]. }
    cbn [falsy blank_destination]. rewrite String.eqb_eq. split.
    + intros H. right. exists pre, suf. auto.
    + intros [H|(pre' & suf' & Hp' & H)]; [congruence|].
      rewrite Hp in Hp'. inversion Hp'; subst. exact H.
  - destruct (extract_destination_fallback _ Hne Hc) as (d & Hd & Hnb & _).
    exists (Some d). split; [assumption|].
    cbn [falsy blank_destination]. rewrite String.eqb_eq. split.
    + congruence.
    + intros [H|(pre & suf & Hp & _)]; [congruence|].
      apply contains_false_partition in Hc. congruence.
Qed.

(** C10 (as amended).  For a reply that is neither [None] nor empty,
    [extract_destination] returns a string: with the marker present, the
    text after its first occurrence up to the next line break or the next
    occurrence of the marker, whichever comes first, trimmed, and this
    string can be empty; without it, a fallback that is never empty.  The
    branch that reports that no destination could be determined is taken
    exactly when the reply is [None], is empty, or holds the marker followed
    by nothing but white space up to the next line break or the next
    occurrence of the marker. *)
Theorem destination_error_branch (reply : option string) (m : Machine World) :
  current_agent (self m) = destination_agent ->
  (forall message, reply = Some message -> message <> "" ->
     exists d,
       extract_destination reply = Ok (Some d) /\
       (forall pre suf,
           partition "Destination:" message = Some (pre, suf) ->
           d = strip (until nl (until "Destination:" suf)) /\
           exists rest,
             suf = until nl (until "Destination:" suf) ++ rest /\
             contains "Destination:" (until nl (until "Destination:" suf)) = false /\
             contains nl (until nl (until "Destination:" suf)) = false /\
             (rest = "" \/ prefix "Destination:" rest = true
              \/ prefix nl rest = true)) /\
       (contains "Destination:" message = false ->
        d <> "" /\
        (d = message \/
         exists line,
           find (fun line => negb (strip line =? "")) (split message nl) = Some line /\
           d = strip line))) /\
  (fst (handle_reply (mkReply reply []) m) = Ok (Return no_destination)
   <-> blank_destination reply).
Proof.
  intros Hcur. split.
  - intros message -> Hne.
    destruct (contains "Destination:" message) eqn:Hc.
    + destruct (proj1 (contains_partition _ _) Hc) as (pre & suf & Hp).
      exists (strip (until nl (until "Destination:" suf))).
      split.
      { apply (extract_destination_marker message pre); [assumption|].
        exists suf. split; [assumption|reflexivity]. }
      split; [|discriminate].
      intros pre' suf' Hp'. rewrite Hp in Hp'. inversion Hp'; subst pre' suf'.
      split; [reflexivity|].
      assert (Hd : "Destination:" <> "") by discriminate.
      destruct (until_both "Destination:" nl suf Hd nl_nonempty)
        as (rest & Hs & H1 & H2 & Hr).
      exists rest. repeat split; assumption.
    + destruct (extract_destination_fallback _ Hne Hc) as (d & Hd & Hnb & Hline).
      exists d. split; [assumption|]. split; [|auto].
      intros pre suf Hp. apply contains_false_partition in Hc. congruence.
  - destruct (extract_destination_blank reply) as (d & Hd & Hiff).
    rewrite (handle_reply_destination _ _ _ Hcur Hd). rewrite <- Hiff.
    destruct (falsy d); split; intros H; try reflexivity; discriminate H.
Qed.

End NoDestination.

Lemma destination_error_branch_witness :
  (forall message, Some "Destination: Destination: Rome" = Some message ->
     message <> "" ->
     exists d,
       Travel.extract_destination (Some "Destination: Destination: Rome")
       = Ok (Some d) /\
       (forall pre suf,
           partition "Destination:" message = Some (pre, suf) ->
           d = strip (until Travel.nl (until "Destination:" suf)) /\
           exists rest,
             suf = until Travel.nl (until "Destination:" suf) ++ rest /\
             contains "Destination:" (until Travel.nl (until "Destination:" suf))
             = false /\
             contains Travel.nl (until Travel.nl (until "Destination:" suf)) = false /\
             (rest = "" \/ prefix "Destination:" rest = true
              \/ prefix Travel.nl rest = true)) /\
       (contains "Destination:" message = false ->
        d <> "" /\
        (d = message \/
         exists line,
           find (fun line => negb (strip line =? "")) (split message Travel.nl)
           = Some line /\
           d = strip line))) /\
  (fst (Travel.handle_reply unit Stubs.loads_empty_object Stubs.dumps_kind
          "2026-11-10" "2026-11-17"
          (mkReply (Some "Destination: Destination: Rome") []) fresh)
   = Ok (Travel.Return no_destination)
   <-> blank_destination (Some "Destination: Destination: Rome")).
Proof.
  exact (destination_error_branch unit Stubs.loads_empty_object Stubs.dumps_kind
           "2026-11-10" "2026-11-17" (Some "Destination: Destination: Rome")
           fresh eq_refl).
Defined.

(** C10 (as stated) fails: a reply that is neither [None] nor empty, the
    bare marker, yields the empty destination and the error text. *)
Lemma bare_marker_no_destination :
  Travel.extract_destination (Some "Destination:") = Ok (Some "") /\
  fst (Travel.start_conversation unit (Stubs.answering "Destination:")
         Stubs.loads_empty_object Stubs.dumps_kind "2026-11-10" "2026-11-17"
         3 "somewhere warm" fresh)
  = Ok (Done no_destination).
Proof. split; reflexivity. Qed.

(** A second marker ends the destination as a line break does: a reply
    whose first marker is followed at once by another one yields no
    destination, whatever the second one names. *)
Example second_marker_no_destination :
  Travel.extract_destination (Some "Destination: Destination: Rome") = Ok (Some "") /\
  blank_destination (Some "Destination: Destination: Rome") /\
  fst (Travel.start_conversation unit (Stubs.answering "Destination: Destination: Rome")
         Stubs.loads_empty_object Stubs.dumps_kind "2026-11-10" "2026-11-17"
         3 "somewhere warm" fresh)
  = Ok (Done no_destination).
Proof.
  split; [reflexivity|]. split; [|reflexivity].
  right. exists "", " Destination: Rome". split; reflexivity.
Qed.

Example destination_found :
  fst (Travel.handle_reply unit Stubs.loads_empty_object Stubs.dumps_kind
         "2026-11-10" "2026-11-17" (mkReply (Some "Destination: Lisbon") []) fresh)
  = Ok Travel.Again.
Proof. reflexivity. Qed.

Example destination_fallback_line :
  Travel.extract_destination (Some ("  Lisbon  " ++ Travel.nl ++ "A sunny city by the sea."))
  = Ok (Some "Lisbon").
Proof. reflexivity. Qed.

Example destination_fallback_whole :
  Travel.extract_destination (Some "You should really visit Lisbon")
  = Ok (Some "You should really visit Lisbon").
Proof. reflexivity. Qed.

(* ================================================================== *)
(** * The tool-call loop *)
(* ================================================================== *)

Section Transcripts.

Lemma answers_length (tcs : list ToolCall) (results : list Message) :
  answers tcs results -> List.length results = List.length tcs.
Proof. intros H. symmetry. exact (Forall2_length H). Qed.

Lemma answers_ids (tcs : list ToolCall) (results : list Message) :
  answers tcs results -> result_ids results = map tc_id tcs.
Proof.
  induction 1 as [|tc msg tcs results (content & ->) _ IH]; simpl.
  - reflexivity.
  - now rewrite IH.
Qed.

Lemma answers_app (tcs1 tcs2 : list ToolCall) (r1 r2 : list Message) :
  answers tcs1 r1 -> answers tcs2 r2 -> answers (tcs1 ++ tcs2) (r1 ++ r2).
Proof. apply Forall2_app. Qed.

Lemma answers_one (tc : ToolCall) (content : string) :
  answers [tc] [ToolMsg (tc_id tc) (tc_name tc) content].
Proof. repeat constructor. eauto. Qed.

Lemma pending_after_app (pending : list ToolCall) (a b : list Message) :
  pending_after pending (a ++ b) =
  match pending_after pending a with
  | Some pending' => pending_after pending' b
  | None => None
  end.
Proof.
  revert pending. induction a as [|msg a IH]; intros pending.
  - reflexivity.
  - cbn [app pending_after].
    destruct msg, pending; try rewrite IH; try reflexivity.
    destruct ((tool_call_id =? tc_id t) && (name =? tc_name t)); auto.
Qed.

Lemma pending_after_answers (tcs pending : list ToolCall) (results : list Message) :
  answers tcs results -> pending_after (tcs ++ pending) results = Some pending.
Proof.
  induction 1 as [|tc msg tcs results (content & ->) _ IH].
  - reflexivity.
  - cbn [app pending_after]. now rewrite !String.eqb_refl.
Qed.

(** A completed round keeps a transcript well paired. *)
Lemma well_paired_round (msgs results : list Message) (tcs : list ToolCall) :
  well_paired msgs = true -> answers tcs results ->
  well_paired (msgs ++ AssistantToolCalls tcs :: results) = true.
Proof.
  unfold well_paired. intros Hw Ha. rewrite pending_after_app.
  destruct (pending_after [] msgs) as [[|? ?]|]; try discriminate.
  cbn [pending_after].
  rewrite <- (app_nil_r tcs). now rewrite (pending_after_answers _ _ _ Ha).
Qed.

Lemma well_paired_plain (msgs : list Message) (msg : Message) :
  well_paired msgs = true ->
  match msg with
  | AssistantToolCalls _ | ToolMsg _ _ _ => False
  | _ => True
  end ->
  well_paired (msgs ++ [msg]) = true.
Proof.
  unfold well_paired. intros Hw Hm. rewrite pending_after_app.
  destruct (pending_after [] msgs) as [[|? ?]|]; try discriminate.
  destruct msg; try contradiction; reflexivity.
Qed.

(** With identifiers that differ, a result has one request only. *)
Lemma answers_unique_request (tcs : list ToolCall) (results : list Message) :
  answers tcs results ->
  NoDup (map tc_id tcs) ->
  forall id name content,
    In (ToolMsg id name content) results ->
    exists tc, In tc tcs /\ tc_id tc = id /\
               forall tc', In tc' tcs -> tc_id tc' = id -> tc' = tc.
Proof.
  induction 1 as [|tc msg tcs results (c & ->) Hrest IH];
    intros Hnd id name content Hin.
  - destruct Hin.
  - cbn [map] in Hnd. inversion Hnd as [|x l Hnotin Hnd']; subst.
    destruct Hin as [Heq|Hin].
    + inversion Heq; subst. exists tc. repeat split; [now left|].
      intros tc' [->|Hin'] Hid; [reflexivity|].
      exfalso. apply Hnotin. rewrite <- Hid. now apply in_map.
    + destruct (IH Hnd' id name content Hin) as (tc0 & Hin0 & Hid0 & Huniq).
      exists tc0. repeat split; [now right|assumption|].
      intros tc' [->|Hin'] Hid; [|now apply Huniq].
      exfalso. apply Hnotin. rewrite Hid, <- Hid0. now apply in_map.
Qed.

End Transcripts.

(** ** In the game master *)

Section GameLoop.

Variable World : Type.
Variable json_loads : string -> Res JValue.
Variable create : Request -> M World Reply.
Variable roll_dice : JValue -> M World string.
Variable generate_event : JValue -> M World string.

Let call_tool := Game.call_tool World json_loads roll_dice generate_event.
Let run_tool_calls := Game.run_tool_calls World json_loads roll_dice generate_event.
Let tool_round := Game.tool_round World json_loads roll_dice generate_event.
Let loop_with (c : Request -> M World Reply) :=
  Game._process_tool_calls World json_loads c roll_dice generate_event.

Lemma run_tool_calls_ok (tcs : list ToolCall) :
  forall (msgs : list Message) (w : World) (msgs' : list Message) (w' : World),
    run_tool_calls tcs msgs w = (Ok msgs', w') ->
    exists results, msgs' = (msgs ++ results)%list /\ answers tcs results.
Proof.
  unfold run_tool_calls.
  induction tcs as [|tc tcs IH]; intros msgs w msgs' w' H; cbn [Game.run_tool_calls] in H.
  - inversion H; subst. exists []. split; [now rewrite app_nil_r|constructor].
  - unfold mbind in H.
    destruct (Game.call_tool World json_loads roll_dice generate_event tc w)
      as [[result|e] w1]; [|discriminate H].
    apply IH in H. destruct H as (results & -> & Ha).
    exists (ToolMsg (tc_id tc) (tc_name tc) result :: results). split.
    + now rewrite <- app_assoc.
    + constructor; eauto.
Qed.

Lemma tool_round_ok (tcs : list ToolCall) (msgs : list Message) (w : World)
  (msgs' : list Message) (w' : World) :
  tool_round tcs msgs w = (Ok msgs', w') ->
  exists results,
    msgs' = (msgs ++ AssistantToolCalls tcs :: results)%list /\ answers tcs results.
Proof.
  unfold tool_round, Game.tool_round. intros H.
  apply run_tool_calls_ok in H. destruct H as (results & -> & Ha).
  exists results. split; [now rewrite <- app_assoc|assumption].
Qed.

(** A round whose calls all return completes. *)
Lemma run_tool_calls_total (tcs : list ToolCall) :
  (forall tc w, In tc tcs -> exists r w', call_tool tc w = (Ok r, w')) ->
  forall (msgs : list Message) (w : World),
  exists msgs' w', run_tool_calls tcs msgs w = (Ok msgs', w').
Proof.
  unfold run_tool_calls, call_tool.
  induction tcs as [|tc tcs IH]; intros Hall msgs w; cbn [Game.run_tool_calls].
  - eexists _, _. reflexivity.
  - destruct (Hall tc w (or_introl eq_refl)) as (r & w1 & Hr).
    unfold mbind. rewrite Hr. apply IH.
    intros tc' w0 Hin. apply Hall. now right.
Qed.

(** Every request of the loop carries a well-paired transcript: an endpoint
    that refuses any other makes no difference. *)
Lemma game_loop_guarded (fuel : nat) (a : Game.Agent) :
  forall (msgs : list Message) (w : World),
    well_paired msgs = true ->
    loop_with (guarded create) fuel a msgs w = loop_with create fuel a msgs w.
Proof.
  unfold loop_with.
  induction fuel as [|fuel IH]; intros msgs w Hw; cbn [Game._process_tool_calls].
  - reflexivity.
  - unfold mbind. unfold guarded at 1. cbn [req_messages]. rewrite Hw.
    match goal with |- context [create ?req w] =>
      destruct (create req w) as [[reply|e] w1]
    end; [|reflexivity].
    destruct (tool_calls reply) as [|tc tcs]; [reflexivity|].
    destruct (Game.tool_round World json_loads roll_dice generate_event
                (tc :: tcs) msgs w1) as [[msgs'|e] w2] eqn:Hr; [|reflexivity].
    apply IH. apply tool_round_ok in Hr. destruct Hr as (results & -> & Ha).
    now apply well_paired_round.
Qed.

(** The transcript the loop leaves extends the one it was given and is
    well paired. *)
Lemma game_loop_result (fuel : nat) (a : Game.Agent) :
  forall (msgs : list Message) (w : World) (text : option string)
         (msgs' : list Message) (w' : World),
    well_paired msgs = true ->
    loop_with create fuel a msgs w = (Ok (Done (text, msgs')), w') ->
    well_paired msgs' = true /\ exists ext, msgs' = (msgs ++ ext)%list.
Proof.
  unfold loop_with.
  induction fuel as [|fuel IH]; intros msgs w text msgs' w' Hw H;
    cbn [Game._process_tool_calls] in H.
  - discriminate H.
  - unfold mbind in H.
    match type of H with context [create ?req w] =>
      destruct (create req w) as [[reply|e] w1]
    end; [|discriminate H].
    destruct (tool_calls reply) as [|tc tcs].
    + inversion H; subst. split; [assumption|]. exists []. now rewrite app_nil_r.
    + destruct (Game.tool_round World json_loads roll_dice generate_event
                  (tc :: tcs) msgs w1) as [[msgs1|e] w2] eqn:Hr; [|discriminate H].
      apply tool_round_ok in Hr. destruct Hr as (results & -> & Ha).
      apply IH in H; [|now apply well_paired_round].
      destruct H as (Hw' & ext & ->). split; [assumption|].
      eexists. now rewrite <- app_assoc.
Qed.

End GameLoop.

(** ** In the travel designer *)

Section TravelLoop.

Import Travel.

Variable World : Type.
Variable create : Request -> M World Reply.
Variable json_loads : string -> Res JValue.
Variable json_dumps : JValue -> string.
Variable departure_date : string.
Variable return_date : string.

Let process_tool_calls :=
  Travel.process_tool_calls json_loads json_dumps departure_date return_date.
Let handle_reply :=
  Travel.handle_reply World json_loads json_dumps departure_date return_date.
Let request_with (c : Request -> M World Reply) :=
  Travel.process_request World c json_loads json_dumps departure_date return_date.

Lemma process_tool_calls_from_ok (tcs : list ToolCall) :
  forall outs outs' : list Message,
    Travel.process_tool_calls_from json_loads json_dumps departure_date return_date
      tcs outs = Ok outs' ->
    exists results, outs' = (outs ++ results)%list /\ answers tcs results.
Proof.
  induction tcs as [|tc tcs IH]; intros outs outs' H;
    cbn [Travel.process_tool_calls_from] in H.
  - inversion H; subst. exists []. split; [now rewrite app_nil_r|constructor].
  - destruct (json_loads (tc_arguments tc)) as [arguments|e]; [|discriminate H].
    cbn [bind] in H. apply IH in H. destruct H as (results & -> & Ha).
    eexists (_ :: results). split.
    + now rewrite <- app_assoc.
    + constructor; eauto.
Qed.

Lemma process_tool_calls_ok (tcs : list ToolCall) (outs : list Message) :
  process_tool_calls tcs = Ok outs -> answers tcs outs.
Proof.
  intros H. apply process_tool_calls_from_ok in H.
  destruct H as (results & -> & Ha). exact Ha.
Qed.

(** The calls whose arguments decode are all answered: a tool that fails
    yields an error text, not an exception. *)
Lemma process_tool_calls_total (tcs : list ToolCall) :
  (forall tc, In tc tcs -> exists v, json_loads (tc_arguments tc) = Ok v) ->
  exists outs, process_tool_calls tcs = Ok outs.
Proof.
  unfold process_tool_calls, Travel.process_tool_calls. generalize (@nil Message).
  induction tcs as [|tc tcs IH]; intros outs Hall;
    cbn [Travel.process_tool_calls_from].
  - eauto.
  - destruct (Hall tc (or_introl eq_refl)) as (v & ->). cbn [bind].
    apply IH. intros tc' Hin. apply Hall. now right.
Qed.

(** A pass that carries tool calls: the assistant message is appended,
    then, when the arguments decode, the results, and the loop goes on;
    otherwise the exception of the decoder leaves the pass. *)
Lemma handle_reply_round (c : option string) (tc : ToolCall) (tcs : list ToolCall)
  (m : Machine World) :
  handle_reply (mkReply c (tc :: tcs)) m =
  match process_tool_calls (tc :: tcs) with
  | Ok outs =>
      (Ok Again,
       mkMachine
         (set_messages
            (messages (self m) ++ AssistantToolCalls (tc :: tcs) :: outs)%list (self m))
         (world m) (trace m))
  | Raise e =>
      (Raise e,
       mkMachine
         (set_messages (messages (self m) ++ [AssistantToolCalls (tc :: tcs)])%list
            (self m))
         (world m) (trace m))
  end.
Proof.
  unfold handle_reply, Travel.handle_reply. cbn [tool_calls].
  unfold mbind, modify_self, lift, ret. cbn [self world trace].
  unfold process_tool_calls.
  destruct (Travel.process_tool_calls json_loads json_dumps departure_date
              return_date (tc :: tcs)) as [outs|e]; [|reflexivity].
  unfold set_messages. cbn. now rewrite <- app_assoc.
Qed.

Lemma system_first_inv (msgs : list Message) :
  system_first msgs = true ->
  exists s rest, msgs = SystemMsg s :: rest /\ well_paired rest = true.
Proof.
  destruct msgs as [|[s| | | |] rest]; try discriminate.
  intros H. exists s, rest. split; [reflexivity|exact H].
Qed.

Lemma system_first_cons (s : string) (rest : list Message) :
  well_paired rest = true -> system_first (SystemMsg s :: rest) = true.
Proof. intros H. exact H. Qed.

Lemma system_first_well_paired (msgs : list Message) :
  system_first msgs = true -> well_paired msgs = true.
Proof. destruct msgs as [|[s| | | |] rest]; try discriminate. auto. Qed.

Lemma call_openai_from_guarded (remaining : nat) :
  forall (attempt : nat) (m : Machine World),
    well_paired (messages (self m)) = true ->
    Travel.call_openai_from World (guarded create) remaining attempt m
    = Travel.call_openai_from World create remaining attempt m.
Proof.
  induction remaining as [|r IH]; intros attempt m Hw; cbn [Travel.call_openai_from].
  - reflexivity.
  - unfold mbind, get_self, try_except, client_create.
    unfold guarded at 1. cbn [req_messages request_of self world]. rewrite Hw.
    destruct (create (request_of (self m)) (world m)) as [[reply|e] w1];
      [reflexivity|].
    cbn [self]. destruct (attempt <? max_retries (self m) - 1)%nat; [|reflexivity].
    unfold handle_rate_limit, mbind, get_self, ret, time_sleep, raise. cbn [self].
    destruct (is_transient (exn_str e)); [|reflexivity].
    destruct (retry_delay (self m) * 2 ^ Z.of_nat attempt <? 0)%Z; [reflexivity|].
    destruct (sleep_limit <? retry_delay (self m) * 2 ^ Z.of_nat attempt)%Z;
      [reflexivity|].
    apply IH. exact Hw.
Qed.

Lemma call_openai_guarded (m : Machine World) :
  well_paired (messages (self m)) = true ->
  Travel.call_openai World (guarded create) m = Travel.call_openai World create m.
Proof.
  intros Hw. unfold Travel.call_openai, mbind, get_self.
  now apply call_openai_from_guarded.
Qed.

Lemma call_openai_self (m : Machine World) :
  self (snd (Travel.call_openai World create m)) = self m.
Proof.
  unfold Travel.call_openai, mbind, get_self.
  destruct (call_openai_from_extends World create (max_retries (self m)) 0 m)
    as (tail & _ & Hs).
  exact Hs.
Qed.

(** A pass that goes on to the next one leaves the transcript with the
    system message first and well paired. *)
Lemma handle_reply_again (reply : Reply) (m m' : Machine World) :
  system_first (messages (self m)) = true ->
  handle_reply reply m = (Ok Again, m') ->
  system_first (messages (self m')) = true.
Proof.
  intros Hs H. destruct (system_first_inv _ Hs) as (s & rest & Hm & Hw).
  destruct reply as [c [|tc tcs]].
  - unfold handle_reply, Travel.handle_reply in H. cbn [tool_calls content] in H.
    unfold mbind, modify_self, get_self, lift, ret, handoff in H.
    cbn [self world trace current_agent set_full_plan set_messages messages
         set_user_preferences] in H.
    rewrite Hm in H. cbn [app handoff_to_agent] in H.
    assert (Hplain : forall h,
               system_first
                 (SystemMsg h :: (rest ++ [AssistantMsg c]) ++ [UserMsg h])%list = true).
    { intros h. apply system_first_cons.
      apply well_paired_plain; [|exact I]. apply well_paired_plain; [assumption|exact I]. }
    destruct (current_agent (self m)).
    + destruct (extract_destination c) as [d|e]; [|discriminate H].
      destruct (falsy d); [discriminate H|].
      unfold mbind, modify_self, get_self, lift, ret in H.
      cbn [self world trace messages set_user_preferences set_current_agent
           set_messages] in H.
      inversion H; subst. cbn [self messages]. apply system_first_cons.
      apply well_paired_plain; [|exact I]. apply well_paired_plain; [assumption|exact I].
    + match type of H with context [if ?b then _ else _] => destruct b end.
      * unfold mbind, modify_self, get_self, lift, ret in H.
        cbn [self world trace messages set_current_agent set_messages] in H.
        inversion H; subst. cbn [self messages]. apply system_first_cons.
        apply well_paired_plain; [|exact I].
        apply well_paired_plain; [assumption|exact I].
      * match type of H with context [format_final_plan ?d] =>
          destruct (format_final_plan d) end; discriminate H.
    + match type of H with context [format_final_plan ?d] =>
        destruct (format_final_plan d) end; discriminate H.
  - rewrite (handle_reply_round c tc tcs m) in H.
    destruct (process_tool_calls (tc :: tcs)) as [outs|e] eqn:Hp; [|discriminate H].
    inversion H; subst. cbn [self messages set_messages]. rewrite Hm.
    cbn [app]. apply system_first_cons.
    apply well_paired_round; [assumption|]. now apply process_tool_calls_ok.
Qed.

Lemma process_step_guarded (m : Machine World) :
  system_first (messages (self m)) = true ->
  Travel.process_step World (guarded create) json_loads json_dumps
    departure_date return_date m
  = Travel.process_step World create json_loads json_dumps
      departure_date return_date m.
Proof.
  intros Hs. unfold Travel.process_step, try_except, mbind.
  rewrite call_openai_guarded by now apply system_first_well_paired.
  reflexivity.
Qed.

Lemma process_step_again (m m' : Machine World) :
  system_first (messages (self m)) = true ->
  Travel.process_step World create json_loads json_dumps
    departure_date return_date m = (Ok Again, m') ->
  system_first (messages (self m')) = true.
Proof.
  intros Hs H. unfold Travel.process_step, try_except, mbind in H.
  pose proof (call_openai_self m) as Hself.
  destruct (Travel.call_openai World create m) as [[reply|e] m1].
  - cbn [snd] in Hself.
    destruct (Travel.handle_reply World json_loads json_dumps departure_date
                return_date reply m1) as [[step|e] m2] eqn:Hr.
    + inversion H; subst. eapply handle_reply_again; [|exact Hr].
      now rewrite Hself.
    + unfold on_error, ret in H.
      destruct (contains "402" (exn_str e) || contains "credit" (lower (exn_str e)));
        discriminate H.
  - unfold on_error, ret in H.
    destruct (contains "402" (exn_str e) || contains "credit" (lower (exn_str e)));
      discriminate H.
Qed.

(** Every request of [process_request] carries a well-paired transcript. *)
Lemma process_request_guarded (fuel : nat) :
  forall m : Machine World,
    system_first (messages (self m)) = true ->
    request_with (guarded create) fuel m = request_with create fuel m.
Proof.
  unfold request_with.
  induction fuel as [|fuel IH]; intros m Hs; cbn [Travel.process_request].
  - reflexivity.
  - unfold mbind. rewrite (process_step_guarded m Hs).
    destruct (Travel.process_step World create json_loads json_dumps
                departure_date return_date m) as [[[text|]|e] m'] eqn:Hstep;
      try reflexivity.
    apply IH. eapply process_step_again; eassumption.
Qed.

End TravelLoop.

(** ** The invariant *)

Section ToolCallLoop.

Variable World : Type.
Variable create : Request -> M World Reply.
Variable json_loads : string -> Res JValue.
Variable json_dumps : JValue -> string.
Variable roll_dice : JValue -> M World string.
Variable generate_event : JValue -> M World string.
Variable departure_date : string.
Variable return_date : string.

Let game_call_tool := Game.call_tool World json_loads roll_dice generate_event.
Let game_round := Game.tool_round World json_loads roll_dice generate_event.
Let game_loop (c : Request -> M World Reply) :=
  Game._process_tool_calls World json_loads c roll_dice generate_event.
Let travel_pass :=
  Travel.handle_reply World json_loads json_dumps departure_date return_date.
Let travel_loop (c : Request -> M World Reply) :=
  Travel.process_request World c json_loads json_dumps departure_date return_date.

(** C3 (as amended).  In both tool-call loops, a round that carries tool
    calls and runs to its end appends the assistant message and then one
    tool message per request, in the order of the requests and with the
    identifier of its request, so as many results as requests; with
    identifiers that differ, each result matches one request only.  The
    round runs to its end whenever the calls return (in the travel
    designer: whenever their arguments decode).  Every transcript either
    loop sends to the Completion Client is well paired: an endpoint that
    refuses any other transcript changes nothing. *)
Theorem tool_results_answer_requests :
  (forall tcs msgs w msgs' w',
      game_round tcs msgs w = (Ok msgs', w') ->
      exists results,
        msgs' = (msgs ++ AssistantToolCalls tcs :: results)%list /\
        List.length results = List.length tcs /\
        answers tcs results /\
        result_ids results = map tc_id tcs) /\
  (forall tcs msgs w,
      (forall tc w0, In tc tcs -> exists r w1, game_call_tool tc w0 = (Ok r, w1)) ->
      exists msgs' w', game_round tcs msgs w = (Ok msgs', w')) /\
  (forall fuel a msgs w,
      well_paired msgs = true ->
      game_loop (guarded create) fuel a msgs w = game_loop create fuel a msgs w) /\
  (forall c tc tcs m step m',
      travel_pass (mkReply c (tc :: tcs)) m = (Ok step, m') ->
      step = Travel.Again /\
      exists results,
        Travel.messages (Travel.self m')
        = (Travel.messages (Travel.self m)
           ++ AssistantToolCalls (tc :: tcs) :: results)%list /\
        List.length results = List.length (tc :: tcs) /\
        answers (tc :: tcs) results /\
        result_ids results = map tc_id (tc :: tcs)) /\
  (forall c tc tcs m,
      (forall t, In t (tc :: tcs) -> exists v, json_loads (tc_arguments t) = Ok v) ->
      exists m', travel_pass (mkReply c (tc :: tcs)) m = (Ok Travel.Again, m')) /\
  (forall fuel m,
      system_first (Travel.messages (Travel.self m)) = true ->
      travel_loop (guarded create) fuel m = travel_loop create fuel m) /\
  (forall tcs results,
      answers tcs results ->
      NoDup (map tc_id tcs) ->
      forall id name content,
        In (ToolMsg id name content) results ->
        exists tc, In tc tcs /\ tc_id tc = id /\
                   forall tc', In tc' tcs -> tc_id tc' = id -> tc' = tc).
Proof.
  split; [|split; [|split; [|split; [|split; [|split]]]]].
  - intros tcs msgs w msgs' w' H.
    apply tool_round_ok in H. destruct H as (results & -> & Ha).
    exists results. repeat split; try assumption.
    + now apply answers_length.
    + now apply answers_ids.
  - intros tcs msgs w Hall. unfold game_round, Game.tool_round.
    now apply run_tool_calls_total.
  - intros fuel a msgs w Hw. now apply game_loop_guarded.
  - intros c tc tcs m step m' H. unfold travel_pass in H.
    rewrite handle_reply_round in H.
    destruct (Travel.process_tool_calls json_loads json_dumps departure_date
                return_date (tc :: tcs)) as [outs|e] eqn:Hp; [|discriminate H].
    apply process_tool_calls_ok in Hp. inversion H; subst.
    split; [reflexivity|]. exists outs. cbn [Travel.self Travel.messages Travel.set_messages].
    repeat split; try assumption.
    + now apply answers_length.
    + now apply answers_ids.
  - intros c tc tcs m Hall. unfold travel_pass. rewrite handle_reply_round.
    destruct (process_tool_calls_total json_loads json_dumps departure_date
                return_date (tc :: tcs) Hall) as (outs & ->).
    eauto.
  - intros fuel m Hs. now apply process_request_guarded.
  - intros tcs results Ha Hnd id name content Hin.
    eapply answers_unique_request; eassumption.
Qed.

End ToolCallLoop.

Lemma tool_results_answer_requests_witness :
  exists results,
    [SystemMsg "system"; UserMsg "Player: look";
     AssistantToolCalls [mkToolCall "call_1" "roll_dice" "{}";
                         mkToolCall "call_2" "summon" "{}"];
     ToolMsg "call_1" "roll_dice" "Dice rolls: [3] (Total: 3)";
     ToolMsg "call_2" "summon" "Error: Unknown function summon"]
    = ([SystemMsg "system"; UserMsg "Player: look"] ++
       AssistantToolCalls [mkToolCall "call_1" "roll_dice" "{}";
                           mkToolCall "call_2" "summon" "{}"] :: results)%list /\
    List.length results = 2 /\
    answers [mkToolCall "call_1" "roll_dice" "{}"; mkToolCall "call_2" "summon" "{}"]
      results /\
    result_ids results = ["call_1"; "call_2"].
Proof.
  apply (proj1 (tool_results_answer_requests unit (Stubs.answering "Done")
                  Stubs.loads_empty_object Stubs.dumps_kind
                  (Stubs.tool_returning "Dice rolls: [3] (Total: 3)")
                  (Stubs.tool_returning "A hidden trap triggers!")
                  "2026-11-10" "2026-11-17")
           [mkToolCall "call_1" "roll_dice" "{}"; mkToolCall "call_2" "summon" "{}"]
           [SystemMsg "system"; UserMsg "Player: look"] tt _ tt).
  reflexivity.
Defined.

(** C3 (as stated) fails: when the arguments of a call are not JSON, here
    the empty text, the round of the travel designer stops after the
    assistant message; the request is left with no result, and
    [process_request] returns an error text. *)
Lemma undecoded_call_has_no_result :
  exists m' before,
    Travel.start_conversation (list Reply) Stubs.scripted Stubs.loads_empty_object
      Stubs.dumps_kind "2026-11-10" "2026-11-17" 5 "somewhere warm"
      (Travel.mkMachine Travel.TravelDesigner_init
         [mkReply (Some "Destination: Lisbon") [];
          mkReply None [mkToolCall "call_1" "get_attractions" ""]]
         [])
    = (Ok (Done "❌ Error: Expecting value: line 1 column 1 (char 0)"), m') /\
    Travel.messages (Travel.self m')
    = (before ++ [AssistantToolCalls [mkToolCall "call_1" "get_attractions" ""]])%list /\
    result_ids (Travel.messages (Travel.self m')) = [] /\
    well_paired (Travel.messages (Travel.self m')) = false.
Proof. eexists _, [_; _; _; _]. repeat split. Qed.

Example game_round_answers :
  Game._process_tool_calls (list Reply) Stubs.loads_empty_object Stubs.scripted
    (Stubs.tool_returning "Dice rolls: [3] (Total: 3)")
    (Stubs.tool_returning "A hidden trap triggers!")
    5 Game.NarratorAgent [SystemMsg "system"; UserMsg "Player: look"]
    [mkReply None [mkToolCall "call_1" "roll_dice" "{}";
                   mkToolCall "call_2" "summon" "{}"];
     mkReply (Some "You rolled a three.") []]
  = (Ok (Done (Some "You rolled a three.",
               [SystemMsg "system"; UserMsg "Player: look";
                AssistantToolCalls [mkToolCall "call_1" "roll_dice" "{}";
                                    mkToolCall "call_2" "summon" "{}"];
                ToolMsg "call_1" "roll_dice" "Dice rolls: [3] (Total: 3)";
                ToolMsg "call_2" "summon" "Error: Unknown function summon"])),
     []).
Proof. reflexivity. Qed.

Example travel_round_answers :
  Travel.process_tool_calls Stubs.loads_empty_object Stubs.dumps_kind
    "2026-11-10" "2026-11-17"
    [mkToolCall "call_1" "get_flights" "{}"; mkToolCall "call_2" "teleport" "{}"]
  = Ok [ToolMsg "call_1" "get_flights" "list"; ToolMsg "call_2" "teleport" "str"].
Proof. reflexivity. Qed.

(* ================================================================== *)
(** * The game master: more of the marker parser *)
(* ================================================================== *)

Section MarkerEffects.

Import Game.

(** X1.  A HEAL_PLAYER marker whose payload reads as the integer [d] adds
    [d] to the health with no upper or lower bound, and never touches the
    game-over flag: the health can pass 100, and a negative amount can
    bring it to zero or below with the flag still unset. *)
Theorem heal_player_unclamped (response : string) (gm : GameMaster)
  (pre payload : string) (d : Z) :
  first_family response = Some HealPlayer ->
  marker_at "HEAL_PLAYER:" response pre payload ->
  int (strip payload) = Ok d ->
  exists gm',
    process_response response gm = Ok (strip pre, gm') /\
    player_health (state gm') = (player_health (state gm) + d)%Z /\
    game_over (state gm') = game_over (state gm) /\
    frame HealPlayer gm gm'.
Proof.
  intros Hf Hm Hd.
  rewrite (process_response_first_family _ gm _ _ _ Hf Hm).
  cbn [honour]. rewrite Hd. cbn [bind]. eexists. split; [reflexivity|].
  split; [reflexivity|]. split; [reflexivity|].
  apply (honour_frame HealPlayer (strip payload)). cbn [honour].
  now rewrite Hd.
Qed.

Lemma heal_player_unclamped_witness :
  (exists gm',
     process_response "You drink. HEAL_PLAYER: 50" GameMaster_init
     = Ok (strip "You drink. ", gm') /\
     player_health (state gm') = (100 + 50)%Z /\
     game_over (state gm') = false /\
     frame HealPlayer GameMaster_init gm') /\
  (exists gm',
     process_response "The potion was poison. HEAL_PLAYER: -120" GameMaster_init
     = Ok (strip "The potion was poison. ", gm') /\
     player_health (state gm') = (100 + -120)%Z /\
     game_over (state gm') = false /\
     frame HealPlayer GameMaster_init gm').
Proof.
  split.
  - apply (heal_player_unclamped "You drink. HEAL_PLAYER: 50" GameMaster_init
             "You drink. " " 50" 50).
    + reflexivity.
    + exists " 50". split; reflexivity.
    + reflexivity.
  - apply (heal_player_unclamped "The potion was poison. HEAL_PLAYER: -120"
             GameMaster_init "The potion was poison. " " -120" (-120)).
    + reflexivity.
    + exists " -120". split; reflexivity.
    + reflexivity.
Defined.

(** X2.  An ADD_ITEM marker appends its trimmed payload at the end of the
    inventory: the items already held keep their places, the inventory
    grows by one (an item already held is added again), and nothing else
    of the state changes. *)
Theorem add_item_appends (response : string) (gm : GameMaster)
  (pre payload : string) :
  first_family response = Some AddItem ->
  marker_at "ADD_ITEM:" response pre payload ->
  exists gm',
    process_response response gm = Ok (strip pre, gm') /\
    player_inventory (state gm')
    = (player_inventory (state gm) ++ [strip payload])%list /\
    List.length (player_inventory (state gm'))
    = S (List.length (player_inventory (state gm))) /\
    (forall i item, nth_error (player_inventory (state gm)) i = Some item ->
                    nth_error (player_inventory (state gm')) i = Some item) /\
    frame AddItem gm gm'.
Proof.
  intros Hf Hm.
  rewrite (process_response_first_family _ gm _ _ _ Hf Hm).
  cbn [honour bind]. eexists. split; [reflexivity|].
  unfold with_state; cbn [state player_inventory set_player_inventory].
  split; [reflexivity|]. split; [|split].
  - rewrite length_app. simpl. lia.
  - intros i item Hi. rewrite nth_error_app1; [assumption|].
    apply nth_error_Some. congruence.
  - now apply (honour_frame AddItem (strip payload)).
Qed.

Lemma add_item_appends_witness :
  exists gm',
    process_response "You pick it up. ADD_ITEM: Ancient Key "
      (with_state (set_player_inventory ["Torch"; "Ancient Key"] GameState_init)
         GameMaster_init)
    = Ok (strip "You pick it up. ", gm') /\
    player_inventory (state gm')
    = (["Torch"; "Ancient Key"] ++ [strip " Ancient Key "])%list /\
    List.length (player_inventory (state gm')) = 3 /\
    (forall i item, nth_error ["Torch"; "Ancient Key"] i = Some item ->
                    nth_error (player_inventory (state gm')) i = Some item) /\
    frame AddItem
      (with_state (set_player_inventory ["Torch"; "Ancient Key"] GameState_init)
         GameMaster_init) gm'.
Proof.
  apply (add_item_appends "You pick it up. ADD_ITEM: Ancient Key "
           (with_state (set_player_inventory ["Torch"; "Ancient Key"] GameState_init)
              GameMaster_init)
           "You pick it up. " " Ancient Key ").
  - reflexivity.
  - exists " Ancient Key ". split; reflexivity.
Defined.

(** X3.  The display text [process_response] returns for a text with a
    marker is trimmed and does not hold the marker that was honoured. *)
Theorem display_without_marker (response : string) (gm : GameMaster)
  (f : Family) (display : string) (gm' : GameMaster) :
  first_family response = Some f ->
  process_response response gm = Ok (display, gm') ->
  contains (marker_of f) display = false /\ strip display = display.
Proof.
  intros Hf H.
  assert (Hc : contains (marker_of f) response = true).
  { unfold first_family in Hf. apply find_some in Hf. tauto. }
  destruct (contains_marker_at _ _ Hc) as (pre & payload & Hm).
  rewrite (process_response_first_family _ gm _ _ _ Hf Hm) in H.
  destruct (honour f (strip payload) gm) as [g|e]; cbn [bind] in H;
    inversion H; subst.
  split; [|apply strip_idempotent].
  destruct Hm as (suf & Hp & _).
  pose proof (partition_before _ _ _ _ (marker_nonempty f) Hp) as Hb.
  destruct (contains (marker_of f) (strip pre)) eqn:E; [|reflexivity].
  apply contains_strip in E. congruence.
Qed.

Lemma display_without_marker_witness :
  contains (marker_of UpdateLocation) "You walk on." = false /\
  strip "You walk on." = "You walk on.".
Proof.
  apply (display_without_marker
           " You walk on. UPDATE_LOCATION: Dark Cave UPDATE_LOCATION: Lake"
           GameMaster_init UpdateLocation "You walk on."
           (with_state (set_current_location "Dark Cave" GameState_init)
              GameMaster_init)).
  - reflexivity.
  - reflexivity.
Defined.

End MarkerEffects.

(* ================================================================== *)
(** * The game master: whole turns *)
(* ================================================================== *)

Section GameTurns.

Import Game.

Variable World : Type.
Variable json_loads : string -> Res JValue.
Variable create : Request -> M World Reply.
Variable roll_dice : JValue -> M World string.
Variable generate_event : JValue -> M World string.

Let generate_response :=
  Game.generate_response World json_loads create roll_dice generate_event.
Let game_turn := Game.game_turn World json_loads create roll_dice generate_event.
Let game_loop := Game.game_loop World json_loads create roll_dice generate_event.

(** A first answer that carries no tool call is the response, and no tool
    is run. *)
Lemma generate_response_plain (fuel : nat) (a : Agent) (st : GameState)
  (player_input : string) (text : option string) (w w' : World) :
  create (first_request a st player_input) w = (Ok (mkReply text []), w') ->
  generate_response (S fuel) a st player_input w = (Ok (Done text), w').
Proof.
  intros Hc. unfold generate_response, Game.generate_response.
  cbn [Game._process_tool_calls]. unfold mbind, ret.
  unfold first_request in Hc. rewrite Hc. reflexivity.
Qed.

(** X4.  A line other than quit, answered at once by a text that holds no
    marker, makes a turn that changes nothing of the game but the last
    action: the text is shown as it is under the name of the agent in
    charge, which stays in charge, and the game goes on when the player is
    alive. *)
Theorem plain_answer_turn (fuel : nat) (line text : string) (gm : GameMaster)
  (w w' : World) :
  lower (strip line) <> "quit" ->
  create (first_request (current_agent gm)
            (set_last_action (strip line) (state gm)) (strip line)) w
  = (Ok (mkReply (Some text) []), w') ->
  first_family text = None ->
  (0 < player_health (state gm))%Z ->
  game_turn (S fuel) line gm w
  = (Ok (Done (Continue (acted (strip line) gm) (agent_name gm ++ ": " ++ text))), w').
Proof.
  intros Hq Hc Hf Hh. unfold game_turn, Game.game_turn.
  apply String.eqb_neq in Hq. rewrite Hq.
  unfold mbind at 1. cbn [current_agent state].
  pose proof (generate_response_plain fuel _ _ _ _ _ _ Hc) as Hg.
  unfold generate_response in Hg. rewrite Hg.
  unfold mbind, lift, ret.
  rewrite (process_response_no_marker text _ Hf).
  cbn [agent_name state player_health set_last_action].
  apply Z.leb_gt in Hh. rewrite Hh. reflexivity.
Qed.

(** X5.  A turn whose answer carries a DAMAGE_PLAYER amount at least as
    large as the health ends the session in the normal way, whether the
    agent answers at once or after rounds of tool calls: the game-over
    line is printed after the response and the lines still waiting are not
    read. *)
Theorem lethal_damage_ends_session (fuel : nat) (line text : string)
  (rest out : list string) (gm : GameMaster) (pre payload : string) (d : Z)
  (w w' : World) :
  game_over (state gm) = false ->
  lower (strip line) <> "quit" ->
  generate_response fuel (current_agent gm)
    (set_last_action (strip line) (state gm)) (strip line) w
  = (Ok (Done (Some text)), w') ->
  first_family text = Some DamagePlayer ->
  marker_at "DAMAGE_PLAYER:" text pre payload ->
  int (strip payload) = Ok d ->
  (player_health (state gm) <= d)%Z ->
  game_loop fuel (line :: rest) gm out w
  = (Ok (Done (out ++ [(agent_name gm ++ ": " ++ strip pre)%string;
                       "Game Over! You have been defeated."])%list), w').
Proof.
  intros Hgo Hq Hg Hf Hm Hd Hle. unfold game_loop. cbn [Game.game_loop].
  rewrite Hgo. unfold mbind at 1. unfold Game.game_turn.
  apply String.eqb_neq in Hq. rewrite Hq.
  unfold mbind at 1. cbn [current_agent state].
  unfold generate_response in Hg. rewrite Hg.
  unfold mbind, lift, ret.
  rewrite (process_response_first_family text _ _ _ _ Hf Hm).
  cbn [honour]. rewrite Hd. cbn [bind].
  unfold with_state.
  cbn [agent_name state player_health set_last_action set_game_over
       set_player_health].
  replace (Z.max (player_health (state gm) - d) 0 <=? 0)%Z with true
    by (symmetry; apply Z.leb_le; lia).
  reflexivity.
Qed.

End GameTurns.

Lemma plain_answer_turn_witness :
  Game.game_turn unit Stubs.loads_empty_object
    (Stubs.answering "The forest is quiet.")
    (Stubs.tool_returning "Dice rolls: [3] (Total: 3)")
    (Stubs.tool_returning "A hidden trap triggers!")
    1 " look around " Game.GameMaster_init tt
  = (Ok (Done (Game.Continue (acted (strip " look around ") Game.GameMaster_init)
                 (Game.agent_name Game.GameMaster_init ++ ": "
                  ++ "The forest is quiet."))), tt).
Proof.
  apply (plain_answer_turn unit Stubs.loads_empty_object
           (Stubs.answering "The forest is quiet.")
           (Stubs.tool_returning "Dice rolls: [3] (Total: 3)")
           (Stubs.tool_returning "A hidden trap triggers!")
           0 " look around " "The forest is quiet." Game.GameMaster_init tt tt).
  - discriminate.
  - reflexivity.
  - reflexivity.
  - reflexivity.
Defined.

(** The Narrator rolls the dice first, then answers with the damage. *)
Lemma lethal_damage_ends_session_witness :
  Game.game_loop (list Reply) Stubs.loads_empty_object Stubs.scripted
    (Stubs.tool_returning "Dice rolls: [6] (Total: 6)")
    (Stubs.tool_returning "A hidden trap triggers!")
    2 ["fight"; "run away"] Game.GameMaster_init []
    [mkReply None [mkToolCall "call_1" "roll_dice" "{}"];
     mkReply (Some "The troll crushes you. DAMAGE_PLAYER: 100") []]
  = (Ok (Done ([] ++ [(Game.agent_name Game.GameMaster_init ++ ": "
                       ++ strip "The troll crushes you. ")%string;
                      "Game Over! You have been defeated."])%list), []).
Proof.
  apply (lethal_damage_ends_session (list Reply) Stubs.loads_empty_object
           Stubs.scripted
           (Stubs.tool_returning "Dice rolls: [6] (Total: 6)")
           (Stubs.tool_returning "A hidden trap triggers!")
           2 "fight" "The troll crushes you. DAMAGE_PLAYER: 100"
           ["run away"] [] Game.GameMaster_init "The troll crushes you. " " 100" 100
           [mkReply None [mkToolCall "call_1" "roll_dice" "{}"];
            mkReply (Some "The troll crushes you. DAMAGE_PLAYER: 100") []] []).
  - reflexivity.
  - discriminate.
  - reflexivity.
  - reflexivity.
  - exists " 100". split; reflexivity.
  - reflexivity.
  - discriminate.
Defined.

(** The same when the answer comes at once. *)
Example lethal_damage_at_once :
  Game.game_loop unit Stubs.loads_empty_object
    (Stubs.answering "The troll crushes you. DAMAGE_PLAYER: 100")
    (Stubs.tool_returning "Dice rolls: [3] (Total: 3)")
    (Stubs.tool_returning "A hidden trap triggers!")
    1 ["fight"; "run away"] Game.GameMaster_init [] tt
  = (Ok (Done ["Narrator: The troll crushes you.";
               "Game Over! You have been defeated."]), tt).
Proof. reflexivity. Qed.

(* ================================================================== *)
(** * The career mentor: tables, transitions, sessions *)
(* ================================================================== *)

Section CareerFlow.

Import Career.

(** X6.  [get_career_roadmap] looks the career up without regard to letter
    case: a name that equals a key of the table once both are in lower
    case gets the roadmap of that key, under the key's own spelling; any
    other name gets the reply that no roadmap is available, with the name
    as it was given. *)
Theorem roadmap_lookup (c : string) :
  (forall key steps,
      In (key, steps) roadmaps -> lower c = lower key ->
      get_career_roadmap c
      = "📚 " ++ key ++ " Skill Roadmap:" ++ nl ++ join nl steps) /\
  ((forall key steps, In (key, steps) roadmaps -> lower c <> lower key) ->
   get_career_roadmap c = no_roadmap c).
Proof.
  split.
  - intros key steps Hin Hl. unfold get_career_roadmap. rewrite Hl.
    cbn [roadmaps In] in Hin.
    repeat (destruct Hin as [Hin|Hin]; [inversion Hin; subst; reflexivity|]).
    destruct Hin.
  - intros Hno. unfold get_career_roadmap.
    destruct (find _ roadmaps) as [[key steps]|] eqn:E; [|reflexivity].
    apply find_some in E. destruct E as [Hin He]. cbn [fst] in He.
    apply String.eqb_eq in He. exfalso. apply (Hno key steps Hin). congruence.
Qed.

Example roadmap_any_case :
  get_career_roadmap "uX dEsIgNeR" = get_career_roadmap "UX Designer".
Proof. reflexivity. Qed.

(** The careers [_career_agent] can recommend, by interest. *)
Lemma recommended_lists (user_input : string) (m : CareerMentor) :
  awaiting_selection m = false ->
  exists careers,
    _career_agent user_input m
    = ("🔍 Based on your interests, I recommend:" ++ nl ++
       bullet_list careers ++
       nl ++ nl ++ "Please type the name of a career to explore further",
       mkCareerMentor (current_agent m) (context_career m) careers true) /\
    In careers
      [["Data Scientist"; "Data Analyst"];
       ["UX Designer"; "Product Designer"];
       ["Cybersecurity Analyst"; "Security Engineer"];
       ["Web Developer"; "Frontend Developer"; "Backend Developer"];
       ["Software Engineer"; "Full Stack Developer"]].
Proof.
  intros Ha. unfold _career_agent. rewrite Ha.
  repeat match goal with
         | |- context [if ?b then _ else _] => destruct b
         end; eexists; (split; [reflexivity|]); cbn [In]; tauto.
Qed.

(** X7.  Of the careers recommended for an interest, the first one has a
    roadmap and each of the others has none: choosing a later option leads
    to the reply that no roadmap is available. *)
Theorem only_first_option_has_roadmap (user_input : string) (m : CareerMentor) :
  awaiting_selection m = false ->
  exists first others,
    context_recommendations (snd (_career_agent user_input m)) = first :: others /\
    others <> [] /\
    (exists steps, In (first, steps) roadmaps) /\
    (forall c, In c others ->
       _skill_agent (mkCareerMentor skill (Some c) (first :: others) false)
       = Ok (no_roadmap c ++ nl ++ nl ++ "Type 'jobs' to see career opportunities")).
Proof.
  intros Ha. destruct (recommended_lists user_input m Ha) as (careers & -> & Hin).
  cbn [snd context_recommendations]. cbn [In] in Hin.
  repeat (destruct Hin as [Hin|Hin];
          [subst careers; eexists _, _; split; [reflexivity|];
           split; [discriminate|]; split;
           [eexists; cbn [roadmaps In]; tauto|];
           intros c Hc; cbn [In] in Hc;
           repeat (destruct Hc as [Hc|Hc]; [subst c; reflexivity|]);
           destruct Hc|]).
  destruct Hin.
Qed.

Lemma only_first_option_has_roadmap_witness :
  exists first others,
    context_recommendations (snd (_career_agent "I like web sites" CareerMentor_init))
    = first :: others /\
    others <> [] /\
    (exists steps, In (first, steps) roadmaps) /\
    (forall c, In c others ->
       _skill_agent (mkCareerMentor skill (Some c) (first :: others) false)
       = Ok (no_roadmap c ++ nl ++ nl ++ "Type 'jobs' to see career opportunities")).
Proof.
  exact (only_first_option_has_roadmap "I like web sites" CareerMentor_init eq_refl).
Defined.

(** X8.  Recommendation and selection compose: after a first request in
    the career state, typing the name of any recommended career, in any
    letter case, selects exactly that career and enters the skill state. *)
Theorem recommended_option_selectable (user_input typed c shown : string)
  (m m1 : CareerMentor) :
  current_agent m = career ->
  awaiting_selection m = false ->
  run user_input m = Ok (shown, m1) ->
  In c (context_recommendations m1) ->
  lower typed = lower c ->
  exists shown',
    run typed m1
    = Ok (shown', mkCareerMentor skill (Some c) (context_recommendations m1) false).
Proof.
  intros Hcur Ha Hrun Hin Hl.
  unfold run, _handle_agent_handoff in Hrun. rewrite Hcur, Ha, Hcur in Hrun.
  destruct (recommended_lists user_input m Ha) as (careers & He & Hlist).
  rewrite He in Hrun. inversion Hrun; subst m1 shown. clear Hrun.
  cbn [context_recommendations] in *.
  unfold run, _handle_agent_handoff.
  cbn [current_agent awaiting_selection context_recommendations].
  rewrite Hcur, Hl. cbn [In] in Hlist.
  repeat (destruct Hlist as [Hlist|Hlist];
          [subst careers; cbn [In] in Hin;
           repeat (destruct Hin as [Hin|Hin];
                   [subst c; eexists; reflexivity|]);
           destruct Hin|]).
  destruct Hlist.
Qed.

Lemma recommended_option_selectable_witness :
  exists shown',
    run "BACKEND developer"
      (mkCareerMentor career None
         ["Web Developer"; "Frontend Developer"; "Backend Developer"] true)
    = Ok (shown',
          mkCareerMentor skill (Some "Backend Developer")
            ["Web Developer"; "Frontend Developer"; "Backend Developer"] false).
Proof.
  apply (recommended_option_selectable "I like web sites" "BACKEND developer"
           "Backend Developer"
           (fst (_career_agent "I like web sites" CareerMentor_init))
           CareerMentor_init
           (mkCareerMentor career None
              ["Web Developer"; "Frontend Developer"; "Backend Developer"] true)).
  - reflexivity.
  - reflexivity.
  - reflexivity.
  - cbn. tauto.
  - reflexivity.
Defined.

End CareerFlow.

Section CareerSessions.

Import Career.

Lemma job_agent_ok (m : CareerMentor) (c : string) :
  context_career m = Some c -> exists shown, _job_agent m = Ok shown.
Proof.
  intros Hc. unfold _job_agent. rewrite Hc.
  destruct (find _ job_data) as [[k d]|]; eexists; reflexivity.
Qed.

Lemma job_agent_career (m m' : CareerMentor) :
  context_career m = context_career m' -> _job_agent m = _job_agent m'.
Proof. intros H. unfold _job_agent. now rewrite H. Qed.

(** X9.  The keyword transitions of the career mentor.  In the skill
    state an input that holds job or opportunit, in any letter case, moves
    to the job state and is answered by the job agent, and any other input
    stays in the skill state.  In the job state an input that holds new
    returns to the career state, forgets the selected career, and is itself
    read as a statement of interests, so that a fresh list awaits
    selection; any other input stays in the job state. *)
Theorem keyword_transitions (user_input : string) (m : CareerMentor) (c : string) :
  context_career m = Some c ->
  (current_agent m = skill ->
   if asks_for_jobs user_input
   then exists shown,
       _job_agent m = Ok shown /\
       run user_input m
       = Ok (shown, mkCareerMentor job (Some c) (context_recommendations m)
                      (awaiting_selection m))
   else exists shown, _skill_agent m = Ok shown /\ run user_input m = Ok (shown, m)) /\
  (current_agent m = job ->
   if contains "new" (lower user_input)
   then exists shown careers,
       run user_input m = Ok (shown, mkCareerMentor career None careers true) /\
       _career_agent user_input
         (mkCareerMentor career None (context_recommendations m) false)
       = (shown, mkCareerMentor career None careers true) /\
       careers <> []
   else exists shown, _job_agent m = Ok shown /\ run user_input m = Ok (shown, m)).
Proof.
  intros Hc. split; intros Hcur.
  - unfold run, _handle_agent_handoff, asks_for_jobs. rewrite Hcur.
    destruct (contains "job" (lower user_input) || contains "opportunit" (lower user_input)).
    + cbn [current_agent]. destruct (job_agent_ok m c Hc) as (shown & Hs).
      exists shown. split; [assumption|].
      rewrite (job_agent_career _ m) by reflexivity.
      rewrite Hs, Hc. reflexivity.
    + rewrite Hcur. unfold _skill_agent. rewrite Hc. cbn [bind].
      eexists. split; reflexivity.
  - unfold run, _handle_agent_handoff. rewrite Hcur.
    destruct (contains "new" (lower user_input)).
    + cbn [current_agent].
      destruct (recommended_lists user_input
                  (mkCareerMentor career None (context_recommendations m) false)
                  eq_refl) as (careers & He & Hin).
      rewrite He. cbn [current_agent context_career].
      eexists _, careers. split; [reflexivity|]. split; [reflexivity|].
      cbn [In] in Hin.
      repeat (destruct Hin as [Hin|Hin]; [subst careers; discriminate|]).
      destruct Hin.
    + rewrite Hcur. destruct (job_agent_ok m c Hc) as (shown & Hs).
      exists shown. split; [assumption|]. now rewrite Hs.
Qed.

Lemma keyword_transitions_witness :
  (exists shown,
      _job_agent (mkCareerMentor skill (Some "Data Scientist") [] false) = Ok shown /\
      run "Any JOBS out there?" (mkCareerMentor skill (Some "Data Scientist") [] false)
      = Ok (shown, mkCareerMentor job (Some "Data Scientist") [] false)) /\
  (exists shown careers,
      run "something new" (mkCareerMentor job (Some "Data Scientist") [] false)
      = Ok (shown, mkCareerMentor career None careers true) /\
      _career_agent "something new" (mkCareerMentor career None [] false)
      = (shown, mkCareerMentor career None careers true) /\
      careers <> []).
Proof.
  split.
  - exact (proj1 (keyword_transitions "Any JOBS out there?"
                    (mkCareerMentor skill (Some "Data Scientist") [] false)
                    "Data Scientist" eq_refl) eq_refl).
  - exact (proj2 (keyword_transitions "something new"
                    (mkCareerMentor job (Some "Data Scientist") [] false)
                    "Data Scientist" eq_refl) eq_refl).
Defined.

(** [run] never raises where a career is chosen, and keeps it so. *)
Lemma run_total (user_input : string) (m : CareerMentor) :
  career_chosen m ->
  exists shown m', run user_input m = Ok (shown, m') /\ career_chosen m'.
Proof.
  intros Hch. unfold run, _handle_agent_handoff.
  destruct (current_agent m) eqn:Hcur.
  - destruct (awaiting_selection m) eqn:Ha.
    + destruct (find _ (context_recommendations m)) as [c|] eqn:Hf.
      * cbn [current_agent _skill_agent context_career bind].
        eexists _, _. split; [reflexivity|]. right. discriminate.
      * rewrite Hcur. unfold _career_agent. rewrite Ha, Hf.
        eexists _, _. split; [reflexivity|]. now left.
    + rewrite Hcur.
      destruct (recommended_lists user_input m Ha) as (careers & -> & _).
      eexists _, _. split; [reflexivity|]. left. exact Hcur.
  - destruct Hch as [Hch|Hch]; [congruence|].
    destruct (context_career m) as [c|] eqn:Hc; [|congruence].
    destruct (contains "job" (lower user_input) || contains "opportunit" (lower user_input)).
    + cbn [current_agent]. destruct (job_agent_ok m c Hc) as (shown & Hs).
      rewrite (job_agent_career _ m) by (cbn [context_career]; congruence).
      rewrite Hs. cbn [bind].
      eexists _, _. split; [reflexivity|]. right. cbn [context_career]. congruence.
    + rewrite Hcur. unfold _skill_agent. rewrite Hc. cbn [bind].
      eexists _, _. split; [reflexivity|]. right. congruence.
  - destruct Hch as [Hch|Hch]; [congruence|].
    destruct (context_career m) as [c|] eqn:Hc; [|congruence].
    destruct (contains "new" (lower user_input)).
    + cbn [current_agent].
      destruct (recommended_lists user_input
                  (mkCareerMentor career None (context_recommendations m) false)
                  eq_refl) as (careers & -> & _).
      eexists _, _. split; [reflexivity|]. now left.
    + rewrite Hcur. destruct (job_agent_ok m c Hc) as (shown & Hs).
      rewrite Hs. cbn [bind].
      exists shown, m. split; [reflexivity|]. right. congruence.
Qed.

(** X10.  From a state in which the skill and job agents have a career to
    work on, as the initial state is, no sequence of inputs makes [run]
    raise: every input gets a reply, and the state reached is again such a
    state. *)
Theorem run_never_raises (inputs : list string) (m : CareerMentor) :
  career_chosen m ->
  exists shown m',
    run_all inputs m = Ok (shown, m') /\
    List.length shown = List.length inputs /\
    career_chosen m'.
Proof.
  revert m. induction inputs as [|user_input rest IH]; intros m Hch;
    cbn [run_all].
  - exists [], m. auto.
  - destruct (run_total user_input m Hch) as (s1 & m1 & -> & Hch1).
    cbn [bind]. destruct (IH m1 Hch1) as (more & m2 & -> & Hlen & Hch2).
    cbn [bind]. exists (s1 :: more), m2. split; [reflexivity|].
    split; [simpl; now rewrite Hlen|assumption].
Qed.

Lemma run_never_raises_witness :
  exists shown m',
    run_all ["I like data"; "what?"; "data analyst"; "jobs please"; "new"; "jobs"]
      CareerMentor_init
    = Ok (shown, m') /\
    List.length shown = 6 /\
    career_chosen m'.
Proof.
  apply (run_never_raises
           ["I like data"; "what?"; "data analyst"; "jobs please"; "new"; "jobs"]
           CareerMentor_init).
  now left.
Defined.

(** X11.  A session of the career mentor ends in one of two ways only:
    normally, with the farewell printed after one reply per line typed
    before it, as soon as a line is exit or quit; or with the end-of-file
    error of [input] when the lines run out first.  No line typed makes it
    end otherwise. *)
Theorem session_end (lines out : list string) (m : CareerMentor) :
  career_chosen m ->
  if existsb leaving lines
  then exists shown,
      main_loop lines m out = Ok (out ++ shown ++ ["Goodbye! 👋"])%list /\
      List.length shown = turns lines
  else main_loop lines m out = Raise (Exn "EOFError" "EOF when reading a line").
Proof.
  revert m out. induction lines as [|line rest IH]; intros m out Hch;
    cbn [existsb main_loop turns].
  - reflexivity.
  - unfold mentor_turn. fold (leaving line).
    destruct (leaving line) eqn:Hl; cbn [orb bind].
    + exists []. split; reflexivity.
    + destruct (run_total (strip line) m Hch) as (s1 & m1 & -> & Hch1).
      cbn [bind].
      specialize (IH m1 (out ++ [(nl ++ "Mentor: " ++ s1 ++ nl)%string])%list Hch1).
      destruct (existsb leaving rest).
      * destruct IH as (shown & -> & Hlen).
        exists ((nl ++ "Mentor: " ++ s1 ++ nl) :: shown). split.
        -- now rewrite <- app_assoc.
        -- simpl. now rewrite Hlen.
      * exact IH.
Qed.

Lemma session_end_witness :
  (exists shown,
      main_loop ["I like data"; "Data Scientist"; "QUIT"; "jobs"] CareerMentor_init []
      = Ok ([] ++ shown ++ ["Goodbye! 👋"])%list /\
      List.length shown = 2) /\
  main_loop ["I like data"; "Data Scientist"] CareerMentor_init []
  = Raise (Exn "EOFError" "EOF when reading a line").
Proof.
  split.
  - exact (session_end ["I like data"; "Data Scientist"; "QUIT"; "jobs"] []
             CareerMentor_init (or_introl eq_refl)).
  - exact (session_end ["I like data"; "Data Scientist"] []
             CareerMentor_init (or_introl eq_refl)).
Defined.

End CareerSessions.

(* ================================================================== *)
(** * The travel designer: tools and destination *)
(* ================================================================== *)

Section TravelTools.

Import Travel.

Variable departure_date : string.
Variable return_date : string.

Let tool_output := Travel.tool_output departure_date return_date.

Lemma get_of_dict (entries : list (string * JValue)) (key : string) (default : JValue) :
  exists v, get (JDict entries) key default = Ok v.
Proof. cbn [get]. destruct (assoc key entries); eauto. Qed.

Lemma get_of_other (v : JValue) (key : string) (default : JValue) :
  (forall entries, v <> JDict entries) ->
  get v key default
  = Raise (Exn "AttributeError" ("'" ++ type_name v ++ "' object has no attribute 'get'")).
Proof. intros H. destruct v; try reflexivity. now destruct (H entries). Qed.

(** X12.  What a tool call of the travel designer puts in its result.  A
    name that is none of the four tools gives the text that the tool is not
    available, whatever the arguments.  A known tool called with an object
    gives its catalogue, the same whatever the object holds: the mock data
    ignore every argument, present or missing.  A known tool called with
    arguments that are not an object gives a text that starts with Tool
    error, not an exception. *)
Theorem tool_output_cases (function_name : string) (arguments : JValue) :
  (known_tool function_name = false ->
   tool_output function_name arguments = JStr "Tool not available") /\
  (known_tool function_name = true ->
   (forall entries, arguments = JDict entries ->
      tool_output function_name arguments = tool_output function_name (JDict []) /\
      exists items, tool_output function_name arguments = JList items) /\
   ((forall entries, arguments <> JDict entries) ->
      exists msg, tool_output function_name arguments = JStr ("Tool error: " ++ msg))).
Proof.
  unfold known_tool, all_tools, tool_output, Travel.tool_output. cbn [existsb].
  destruct (String.eqb_spec function_name "get_flights") as [->|N1];
    [|destruct (String.eqb_spec function_name "suggest_hotels") as [->|N2];
      [|destruct (String.eqb_spec function_name "get_attractions") as [->|N3];
        [|destruct (String.eqb_spec function_name "get_restaurants") as [->|N4]]]];
    cbn [orb].
  5: { split; [reflexivity|discriminate]. }
  all: split; [discriminate|intros _; split];
    [ intros entries ->; cbn [get assoc];
      repeat match goal with
             | |- context [assoc ?k entries] => destruct (assoc k entries)
             end; cbn [bind]; (split; [reflexivity|eexists; reflexivity])
    | intros Hnd; rewrite (get_of_other arguments) by assumption; cbn [bind];
      eexists; reflexivity ].
Qed.

(** X13.  When the reply holds the marker, the destination extracted is
    one trimmed line: it holds no line break, and trimming it again changes
    nothing. *)
Theorem destination_one_line (message : string) :
  message <> "" ->
  contains "Destination:" message = true ->
  exists d,
    extract_destination (Some message) = Ok (Some d) /\
    contains nl d = false /\
    strip d = d.
Proof.
  intros Hne Hc. destruct (contains_marker_at _ _ Hc) as (pre & payload & Hm).
  exists (strip (until nl payload)).
  split; [now apply (extract_destination_marker message pre payload)|].
  split; [|apply strip_idempotent].
  destruct (contains nl (strip (until nl payload))) eqn:E; [|reflexivity].
  apply contains_strip in E. rewrite (until_free nl payload nl_nonempty) in E.
  discriminate.
Qed.

Lemma destination_one_line_witness :
  exists d,
    extract_destination
      (Some ("I suggest this. Destination:   Lisbon  " ++ nl ++ "Destination: Rome"))
    = Ok (Some d) /\
    contains nl d = false /\
    strip d = d.
Proof.
  apply destination_one_line.
  - discriminate.
  - reflexivity.
Defined.

End TravelTools.

Lemma tool_output_cases_witness :
  Travel.tool_output "2026-11-10" "2026-11-17" "teleport" (JList [])
  = JStr "Tool not available" /\
  (Travel.tool_output "2026-11-10" "2026-11-17" "get_flights"
     (JDict [("origin", JStr "Paris")])
   = Travel.tool_output "2026-11-10" "2026-11-17" "get_flights" (JDict []) /\
   exists items,
     Travel.tool_output "2026-11-10" "2026-11-17" "get_flights"
       (JDict [("origin", JStr "Paris")]) = JList items) /\
  exists msg,
    Travel.tool_output "2026-11-10" "2026-11-17" "get_flights" (JList [])
    = JStr ("Tool error: " ++ msg).
Proof.
  split; [|split].
  - apply (proj1 (tool_output_cases "2026-11-10" "2026-11-17" "teleport" (JList []))).
    reflexivity.
  - apply (proj1 (proj2 (tool_output_cases "2026-11-10" "2026-11-17" "get_flights"
                           (JDict [("origin", JStr "Paris")])) eq_refl)
             [("origin", JStr "Paris")]).
    reflexivity.
  - apply (proj2 (proj2 (tool_output_cases "2026-11-10" "2026-11-17" "get_flights"
                           (JList [])) eq_refl)).
    intros entries. discriminate.
Defined.

(* ================================================================== *)
(** * The travel designer: recovery, errors and termination *)
(* ================================================================== *)

Section TravelRuns.

Import Travel.

Variable World : Type.
Variable create : Request -> M World Reply.
Variable json_loads : string -> Res JValue.
Variable json_dumps : JValue -> string.
Variable departure_date : string.
Variable return_date : string.

Let call_openai := Travel.call_openai World create.
Let handle_reply :=
  Travel.handle_reply World json_loads json_dumps departure_date return_date.
Let process_step :=
  Travel.process_step World create json_loads json_dumps departure_date return_date.
Let process_request :=
  Travel.process_request World create json_loads json_dumps departure_date return_date.
Let start_conversation :=
  Travel.start_conversation World create json_loads json_dumps
    departure_date return_date.

Lemma call_openai_from_recovers (k : nat) :
  forall (remaining attempt : nat) (m : Machine World) (reply : Reply) (w' : World),
    recovers create (request_of (self m)) k (world m) reply w' ->
    (k <= remaining)%nat ->
    (attempt + k < max_retries (self m))%nat ->
    (0 <= retry_delay (self m))%Z ->
    (retry_delay (self m) * 2 ^ (Z.of_nat (max_retries (self m)) - 2)
     <= sleep_limit)%Z ->
    Travel.call_openai_from World create (S remaining) attempt m
    = (Ok reply,
       mkMachine (self m) w'
         (trace m ++
          Called (request_of (self m))
            :: backoff_events (request_of (self m)) (retry_delay (self m))
                 attempt k)).
Proof.
  induction k as [|k IH]; intros remaining attempt m reply w' Hr Hk Ha Hd Hl.
  - cbn [recovers] in Hr. cbn [Travel.call_openai_from backoff_events].
    unfold mbind, get_self, try_except, client_create. now rewrite Hr.
  - cbn [recovers] in Hr. destruct Hr as (e & w1 & Hc & Ht & Hr).
    rewrite (call_openai_from_retry World create _ _ _ _ _ Hc Ht);
      [| lia | apply (delay_in_range _ (max_retries (self m))); auto; lia].
    destruct remaining as [|remaining]; [lia|].
    rewrite (IH remaining (S attempt) _ reply w'); cbn [self world trace];
      try assumption; try lia.
    cbn [backoff_events]. now rewrite <- app_assoc.
Qed.

(** X14.  The retry policy recovers: when the endpoint fails [k] times
    with errors classified as transient and then answers, with [k] below
    [max_retries], [call_openai] returns that answer after [k + 1] calls,
    having slept [retry_delay * 2 ^ attempt] after each failed attempt. *)
Theorem retry_recovers (k : nat) (m : Machine World) (reply : Reply) (w' : World) :
  recovers create (request_of (self m)) k (world m) reply w' ->
  (k < max_retries (self m))%nat ->
  (0 <= retry_delay (self m))%Z ->
  (retry_delay (self m) * 2 ^ (Z.of_nat (max_retries (self m)) - 2)
   <= sleep_limit)%Z ->
  exists m',
    call_openai m = (Ok reply, m') /\
    self m' = self m /\
    world m' = w' /\
    calls_in (trace m') = (calls_in (trace m) + S k)%nat /\
    sleeps_in (trace m')
    = (sleeps_in (trace m) ++
       map (fun attempt => (retry_delay (self m) * 2 ^ Z.of_nat attempt)%Z)
         (seq 0 k))%list.
Proof.
  intros Hr Hk Hd Hl. unfold call_openai, Travel.call_openai.
  unfold mbind at 1. unfold get_self at 1.
  destruct (max_retries (self m)) as [|n] eqn:Hn; [lia|].
  rewrite (call_openai_from_recovers k n 0 m reply w' Hr); try assumption;
    try lia; [|now rewrite Hn].
  eexists. split; [reflexivity|]. cbn [self world trace].
  repeat split.
  - rewrite calls_in_app. cbn [calls_in]. now rewrite calls_in_backoff.
  - rewrite sleeps_in_app. cbn [sleeps_in]. now rewrite sleeps_in_backoff.
Qed.

(** A pass of the loop never raises. *)
Lemma process_step_ok (m : Machine World) :
  exists step m', process_step m = (Ok step, m').
Proof.
  unfold process_step, Travel.process_step, try_except.
  match goal with |- context [match ?x with _ => _ end] =>
    destruct x as [[step|e] m1] end; [eauto|].
  unfold on_error, ret.
  destruct (contains "402" (exn_str e) || contains "credit" (lower (exn_str e))); eauto.
Qed.

(** X15.  [process_request] and [start_conversation] never raise: whatever
    the endpoint, the decoder and the tools do, every exception ends as a
    returned text (or the loop is still running when the bound on its
    passes is reached). *)
Theorem request_never_raises (fuel : nat) (user_input : string) (m : Machine World) :
  (exists r m', process_request fuel m = (Ok r, m')) /\
  (exists r m', start_conversation fuel user_input m = (Ok r, m')).
Proof.
  assert (H : forall n m0, exists r m', process_request n m0 = (Ok r, m')).
  { unfold process_request.
    induction n as [|n IH]; intros m0; cbn [Travel.process_request].
    - eexists _, _. reflexivity.
    - destruct (process_step_ok m0) as (step & m1 & Hs).
      unfold process_step in Hs. unfold mbind. rewrite Hs.
      destruct step; [eexists _, _; reflexivity|apply IH]. }
  split; [apply H|].
  unfold start_conversation, Travel.start_conversation, mbind, modify_self.
  apply H.
Qed.

End TravelRuns.

Lemma retry_recovers_witness :
  exists m',
    Travel.call_openai (list Reply)
      (fun req w =>
         match w with
         | [] => (Raise (Exn "APIError" "Rate limit exceeded"), [])
         | reply :: rest =>
             match content reply with
             | None => (Raise (Exn "APIError" "Rate limit exceeded"), rest)
             | Some _ => (Ok reply, rest)
             end
         end)
      (Travel.mkMachine Travel.TravelDesigner_init
         [mkReply None []; mkReply None []; mkReply (Some "Destination: Lisbon") []] [])
    = (Ok (mkReply (Some "Destination: Lisbon") []), m') /\
    Travel.self m' = Travel.TravelDesigner_init /\
    Travel.world m' = [] /\
    calls_in (Travel.trace m') = 3 /\
    sleeps_in (Travel.trace m') = [30; 60]%Z.
Proof.
  apply (retry_recovers (list Reply) _ 2
           (Travel.mkMachine Travel.TravelDesigner_init
              [mkReply None []; mkReply None []; mkReply (Some "Destination: Lisbon") []] [])
           (mkReply (Some "Destination: Lisbon") []) []).
  - cbn. eexists _, _. split; [reflexivity|]. split; [reflexivity|].
    eexists _, _. split; [reflexivity|]. split; reflexivity.
  - cbv. repeat constructor.
  - vm_compute. discriminate.
  - vm_compute. discriminate.
Defined.

Section TravelStates.

Import Travel.

Variable World : Type.
Variable create : Request -> M World Reply.
Variable json_loads : string -> Res JValue.
Variable json_dumps : JValue -> string.
Variable departure_date : string.
Variable return_date : string.

Let call_openai := Travel.call_openai World create.
Let handle_reply :=
  Travel.handle_reply World json_loads json_dumps departure_date return_date.
Let process_step :=
  Travel.process_step World create json_loads json_dumps departure_date return_date.
Let process_request :=
  Travel.process_request World create json_loads json_dumps departure_date return_date.
Let start_conversation :=
  Travel.start_conversation World create json_loads json_dumps
    departure_date return_date.

(** A final reply moves on only by a handoff, to the next agent. *)
Lemma handle_reply_final_again (c : option string) (m m' : Machine World) :
  handle_reply (mkReply c []) m = (Ok Again, m') ->
  rank (current_agent (self m')) = S (rank (current_agent (self m))).
Proof.
  unfold handle_reply, Travel.handle_reply. cbn [tool_calls content].
  unfold mbind, modify_self, get_self, lift, ret, handoff.
  cbn [self world trace current_agent set_full_plan set_messages messages
       set_user_preferences].
  destruct (current_agent (self m)) eqn:Hcur.
  - destruct (extract_destination c) as [d|e]; [|discriminate].
    destruct (falsy d); [discriminate|].
    unfold mbind, modify_self, get_self, lift, ret.
    cbn [self world trace messages set_user_preferences].
    destruct (messages (self m)); cbn [app handoff_to_agent];
      intros H; inversion H; reflexivity.
  - match goal with |- context [if ?b then _ else _] => destruct b end.
    + unfold mbind, modify_self, get_self, lift, ret.
      cbn [self world trace messages].
      destruct (messages (self m)); cbn [app handoff_to_agent];
        intros H; inversion H; reflexivity.
    + match goal with |- context [format_final_plan ?d] =>
        destruct (format_final_plan d) end; discriminate.
  - match goal with |- context [format_final_plan ?d] =>
      destruct (format_final_plan d) end; discriminate.
Qed.

Lemma call_openai_from_no_tools (remaining : nat) :
  (forall req w reply w', create req w = (Ok reply, w') -> tool_calls reply = []) ->
  forall (attempt : nat) (m : Machine World) (reply : Reply) (m' : Machine World),
    Travel.call_openai_from World create remaining attempt m = (Ok reply, m') ->
    tool_calls reply = [].
Proof.
  intros Hnt. induction remaining as [|r IH]; intros attempt m reply m';
    cbn [Travel.call_openai_from].
  - discriminate.
  - unfold mbind, get_self, try_except, client_create. cbn [self world trace].
    destruct (create (request_of (self m)) (world m)) as [[reply0|e] w1] eqn:Hc.
    + intros H. inversion H; subst. eapply Hnt; eassumption.
    + destruct (attempt <? max_retries (self m) - 1)%nat; [|discriminate].
      unfold handle_rate_limit, mbind, get_self, ret, time_sleep, raise.
      cbn [self].
      destruct (is_transient (exn_str e)); [|discriminate].
      destruct (retry_delay (self m) * 2 ^ Z.of_nat attempt <? 0)%Z; [discriminate|].
      destruct (sleep_limit <? retry_delay (self m) * 2 ^ Z.of_nat attempt)%Z;
        [discriminate|].
      apply IH.
Qed.

Lemma process_step_rank (m m' : Machine World) :
  (forall req w reply w', create req w = (Ok reply, w') -> tool_calls reply = []) ->
  process_step m = (Ok Again, m') ->
  rank (current_agent (self m')) = S (rank (current_agent (self m))).
Proof.
  intros Hnt H. unfold process_step, Travel.process_step, try_except, mbind in H.
  pose proof (call_openai_self World create m) as Hself.
  destruct (Travel.call_openai World create m) as [[reply|e] m1] eqn:Hc.
  - cbn [snd] in Hself.
    assert (Ht : tool_calls reply = []).
    { unfold Travel.call_openai, mbind, get_self in Hc.
      eapply call_openai_from_no_tools; eassumption. }
    destruct reply as [c tcs]. cbn [tool_calls] in Ht. subst tcs.
    destruct (Travel.handle_reply World json_loads json_dumps departure_date
                return_date (mkReply c []) m1) as [[step|e] m2] eqn:Hr.
    + inversion H; subst. rewrite <- Hself.
      now apply (handle_reply_final_again c m1 m').
    + unfold on_error, ret in H.
      destruct (contains "402" (exn_str e) || contains "credit" (lower (exn_str e)));
        discriminate H.
  - unfold on_error, ret in H.
    destruct (contains "402" (exn_str e) || contains "credit" (lower (exn_str e)));
      discriminate H.
Qed.

Lemma rank_bound (a : Agent) : rank a <= 2.
Proof. destruct a; simpl; lia. Qed.

Lemma process_request_done (fuel : nat) :
  (forall req w reply w', create req w = (Ok reply, w') -> tool_calls reply = []) ->
  forall m : Machine World,
    3 <= fuel + rank (current_agent (self m)) ->
    exists text m', process_request fuel m = (Ok (Done text), m').
Proof.
  intros Hnt. unfold process_request.
  induction fuel as [|fuel IH]; intros m Hf; cbn [Travel.process_request].
  - pose proof (rank_bound (current_agent (self m))). lia.
  - destruct (process_step_ok World create json_loads json_dumps departure_date
                return_date m) as (step & m1 & Hs).
    unfold mbind. rewrite Hs. destruct step as [text|].
    + eexists _, _. reflexivity.
    + apply IH. rewrite (process_step_rank m m1 Hnt Hs). lia.
Qed.

(** X16.  When the endpoint never asks for a tool, the loop of
    [process_request] ends within three passes, whichever agent is current:
    each pass either returns or hands over to the next of the three
    agents, and the last one always returns. *)
Theorem three_passes_suffice (n : nat) (user_input : string) (m : Machine World) :
  (forall req w reply w', create req w = (Ok reply, w') -> tool_calls reply = []) ->
  (exists text m', process_request (3 + n) m = (Ok (Done text), m')) /\
  (exists text m', start_conversation (3 + n) user_input m = (Ok (Done text), m')).
Proof.
  intros Hnt. split.
  - apply process_request_done; [assumption|lia].
  - unfold start_conversation, Travel.start_conversation, mbind, modify_self.
    apply process_request_done; [assumption|lia].
Qed.

Lemma format_parts_none (parts : list (string * option string)) (a : string) :
  forall formatted,
    format_parts (parts ++ [(a, None)]) formatted = Raise none_response.
Proof.
  induction parts as [|[b [r|]] parts IH]; intros formatted; cbn [app format_parts];
    auto.
Qed.

Lemma format_final_plan_none (d : TravelDesigner)
  (parts : list (string * option string)) (a : string) :
  full_plan d = (parts ++ [(a, None)])%list ->
  format_final_plan d = Raise none_response.
Proof.
  intros H. unfold format_final_plan. rewrite H.
  destruct parts as [|p parts].
  - reflexivity.
  - change ((p :: parts) ++ [(a, None)])%list with (p :: (parts ++ [(a, None)]))%list.
    change (p :: (parts ++ [(a, None)]))%list with ((p :: parts) ++ [(a, None)])%list.
    destruct ((p :: parts) ++ [(a, None)])%list eqn:E; [discriminate E|].
    rewrite <- E. apply format_parts_none.
Qed.

(** X17.  A final reply with no content from the Booking or the
    Exploration Specialist makes the plan fail: formatting it raises a
    type error, and [process_request] returns the text of that error in
    place of a plan. *)
Theorem empty_reply_fails_plan (fuel : nat) (m m1 : Machine World) :
  current_agent (self m) <> destination_agent ->
  call_openai m = (Ok (mkReply None []), m1) ->
  exists m2,
    handle_reply (mkReply None []) m1 = (Raise none_response, m2) /\
    process_request (S fuel) m
    = (Ok (Done "❌ Error: unsupported operand type(s) for +: 'NoneType' and 'str'"),
       m2).
Proof.
  intros Hnd Hc.
  pose proof (call_openai_self World create m) as Hself.
  unfold call_openai in Hc. rewrite Hc in Hself. cbn [snd] in Hself.
  assert (Hr : exists m2, handle_reply (mkReply None []) m1 = (Raise none_response, m2)).
  { unfold handle_reply, Travel.handle_reply. cbn [tool_calls content].
    unfold mbind, modify_self, get_self, lift, ret.
    cbn [self world trace current_agent set_full_plan set_messages messages].
    rewrite Hself.
    destruct (current_agent (self m)) eqn:Hcur; [congruence| |];
      (erewrite format_final_plan_none;
       [eexists; reflexivity|cbn [full_plan set_full_plan]; reflexivity]). }
  destruct Hr as (m2 & Hr). exists m2. split; [assumption|].
  unfold process_request. cbn [Travel.process_request].
  unfold mbind at 1. unfold Travel.process_step, try_except, mbind.
  rewrite Hc. unfold handle_reply in Hr. rewrite Hr. reflexivity.
Qed.

End TravelStates.

Lemma three_passes_suffice_witness :
  (exists text m',
      Travel.process_request unit (Stubs.answering "Destination: Lisbon")
        Stubs.loads_empty_object Stubs.dumps_kind "2026-11-10" "2026-11-17" (3 + 0)
        fresh = (Ok (Done text), m')) /\
  (exists text m',
      Travel.start_conversation unit (Stubs.answering "Destination: Lisbon")
        Stubs.loads_empty_object Stubs.dumps_kind "2026-11-10" "2026-11-17" (3 + 0)
        "somewhere warm" fresh = (Ok (Done text), m')).
Proof.
  apply (three_passes_suffice unit (Stubs.answering "Destination: Lisbon")
           Stubs.loads_empty_object Stubs.dumps_kind "2026-11-10" "2026-11-17"
           0 "somewhere warm" fresh).
  intros req w reply w' H. inversion H. reflexivity.
Defined.

Lemma empty_reply_fails_plan_witness :
  exists m2,
    Travel.handle_reply (list Reply) Stubs.loads_empty_object Stubs.dumps_kind
      "2026-11-10" "2026-11-17" (mkReply None [])
      (Travel.mkMachine
         (Travel.set_current_agent Travel.booking_agent Travel.TravelDesigner_init)
         []
         [Travel.Called
            (Travel.request_of
               (Travel.set_current_agent Travel.booking_agent
                  Travel.TravelDesigner_init))])
    = (Raise none_response, m2) /\
    Travel.process_request (list Reply) Stubs.scripted Stubs.loads_empty_object
      Stubs.dumps_kind "2026-11-10" "2026-11-17" 1
      (Travel.mkMachine
         (Travel.set_current_agent Travel.booking_agent Travel.TravelDesigner_init)
         [mkReply None []] [])
    = (Ok (Done "❌ Error: unsupported operand type(s) for +: 'NoneType' and 'str'"),
       m2).
Proof.
  apply (empty_reply_fails_plan (list Reply) Stubs.scripted Stubs.loads_empty_object
           Stubs.dumps_kind "2026-11-10" "2026-11-17" 0
           (Travel.mkMachine
              (Travel.set_current_agent Travel.booking_agent Travel.TravelDesigner_init)
              [mkReply None []] [])).
  - discriminate.
  - reflexivity.
Defined.

(* ================================================================== *)
(** * The travel designer: the system message *)
(* ================================================================== *)

Section SystemMessage.

Import Travel.

Variable World : Type.
Variable create : Request -> M World Reply.
Variable json_loads : string -> Res JValue.
Variable json_dumps : JValue -> string.
Variable departure_date : string.
Variable return_date : string.

Let handle_reply :=
  Travel.handle_reply World json_loads json_dumps departure_date return_date.
Let process_step :=
  Travel.process_step World create json_loads json_dumps departure_date return_date.
Let process_request :=
  Travel.process_request World create json_loads json_dumps departure_date return_date.
Let start_conversation :=
  Travel.start_conversation World create json_loads json_dumps
    departure_date return_date.

Lemma one_system_app (s : string) (msgs extra : list Message) :
  one_system s msgs ->
  (forall s', ~ In (SystemMsg s') extra) ->
  one_system s (msgs ++ extra).
Proof.
  intros (rest & -> & Hno) He. exists (rest ++ extra)%list. split; [reflexivity|].
  intros s' Hin. apply in_app_or in Hin. destruct Hin as [Hin|Hin].
  - exact (Hno s' Hin).
  - exact (He s' Hin).
Qed.

Lemma one_system_handoff (s : string) (msgs : list Message) (next : Agent)
  (h : string) :
  one_system s msgs ->
  exists msgs',
    handoff_to_agent msgs next h = Ok msgs' /\
    one_system (instructions next) msgs'.
Proof.
  intros (rest & -> & Hno). cbn [handoff_to_agent]. eexists. split; [reflexivity|].
  exists (rest ++ [UserMsg h])%list. split; [reflexivity|].
  intros s' Hin. apply in_app_or in Hin. destruct Hin as [Hin|[Hin|[]]].
  - exact (Hno s' Hin).
  - discriminate Hin.
Qed.

Lemma answers_no_system (tcs : list ToolCall) (results : list Message) :
  answers tcs results -> forall s, ~ In (SystemMsg s) results.
Proof.
  induction 1 as [|tc msg tcs results (content & ->) _ IH]; intros s Hin.
  - destruct Hin.
  - destruct Hin as [Hin|Hin]; [discriminate Hin|]. exact (IH s Hin).
Qed.

Lemma no_system_single (msg : Message) :
  (forall s, msg <> SystemMsg s) -> forall s, ~ In (SystemMsg s) [msg].
Proof. intros H s [Hin|[]]. exact (H s Hin). Qed.

(** However a pass over a reply ends, the transcript keeps the
    instructions of the current agent as its only system message. *)
Lemma handle_reply_own_system (reply : Reply) (m : Machine World) :
  own_system (self m) -> own_system (self (snd (handle_reply reply m))).
Proof.
  intros Hinv. destruct reply as [c [|tc tcs]].
  - assert (H1 : one_system (instructions (current_agent (self m)))
                   (messages (self m) ++ [AssistantMsg c])).
    { apply one_system_app; [exact Hinv|]. apply no_system_single. discriminate. }
    unfold handle_reply, Travel.handle_reply. cbn [tool_calls content].
    unfold mbind, modify_self, get_self, lift, ret, handoff.
    cbn [self world trace current_agent set_full_plan set_messages messages
         set_user_preferences].
    destruct (current_agent (self m)) eqn:Hcur.
    + destruct (extract_destination c) as [d|e];
        [|cbn [snd self]; unfold own_system;
          cbn [current_agent messages set_full_plan set_messages];
          now rewrite Hcur].
      destruct (falsy d);
        [cbn [snd self]; unfold own_system;
         cbn [current_agent messages set_full_plan set_messages];
         now rewrite Hcur|].
      unfold mbind, modify_self, get_self, lift, ret.
      cbn [self world trace messages set_user_preferences set_full_plan
           set_messages].
      match goal with |- context [handoff_to_agent _ ?n ?h] =>
        destruct (one_system_handoff _ _ n h H1) as (msgs' & -> & H2)
      end.
      cbn [snd self]. unfold own_system.
      cbn [current_agent messages set_current_agent set_messages]. exact H2.
    + match goal with |- context [if ?b then _ else _] => destruct b end.
      * unfold mbind, modify_self, get_self, lift, ret.
        cbn [self world trace messages set_user_preferences set_full_plan
             set_messages].
        match goal with |- context [handoff_to_agent _ ?n ?h] =>
          destruct (one_system_handoff _ _ n h H1) as (msgs' & -> & H2)
        end.
        cbn [snd self]. unfold own_system.
        cbn [current_agent messages set_current_agent set_messages]. exact H2.
      * match goal with |- context [format_final_plan ?d] =>
          destruct (format_final_plan d) end;
          cbn [snd self]; unfold own_system;
          cbn [current_agent messages set_full_plan set_messages];
          now rewrite Hcur.
    + match goal with |- context [format_final_plan ?d] =>
        destruct (format_final_plan d) end;
        cbn [snd self]; unfold own_system;
        cbn [current_agent messages set_full_plan set_messages];
        now rewrite Hcur.
  - unfold handle_reply.
    rewrite (handle_reply_round World json_loads json_dumps departure_date
               return_date c tc tcs m).
    destruct (Travel.process_tool_calls json_loads json_dumps departure_date
                return_date (tc :: tcs)) as [outs|e] eqn:Hp;
      cbn [snd self]; unfold own_system; cbn [current_agent messages set_messages];
      apply one_system_app; try exact Hinv.
    + apply process_tool_calls_ok in Hp. intros s [Hin|Hin]; [discriminate Hin|].
      exact (answers_no_system _ _ Hp s Hin).
    + apply no_system_single. discriminate.
Qed.

Lemma process_step_own_system (m : Machine World) :
  own_system (self m) -> own_system (self (snd (process_step m))).
Proof.
  intros Hinv. unfold process_step, Travel.process_step, try_except, mbind.
  pose proof (call_openai_self World create m) as Hself.
  destruct (Travel.call_openai World create m) as [[reply|e] m1].
  - cbn [snd] in Hself.
    pose proof (handle_reply_own_system reply m1) as Hh.
    rewrite Hself in Hh. specialize (Hh Hinv). unfold handle_reply in Hh.
    destruct (Travel.handle_reply World json_loads json_dumps departure_date
                return_date reply m1) as [[step|e] m2]; cbn [snd] in Hh.
    + exact Hh.
    + unfold on_error, ret.
      destruct (contains "402" (exn_str e) || contains "credit" (lower (exn_str e)));
        exact Hh.
  - cbn [snd] in Hself. unfold on_error, ret.
    destruct (contains "402" (exn_str e) || contains "credit" (lower (exn_str e)));
      cbn [snd]; now rewrite Hself.
Qed.

Lemma process_request_own_system (fuel : nat) :
  forall m : Machine World,
    own_system (self m) -> own_system (self (snd (process_request fuel m))).
Proof.
  unfold process_request.
  induction fuel as [|fuel IH]; intros m Hinv; cbn [Travel.process_request].
  - exact Hinv.
  - unfold mbind. pose proof (process_step_own_system m Hinv) as Hs.
    unfold process_step in Hs.
    destruct (Travel.process_step World create json_loads json_dumps
                departure_date return_date m) as [[[text|]|e] m1]; cbn [snd] in Hs.
    + exact Hs.
    + now apply IH.
    + exact Hs.
Qed.

(** X18.  However a conversation started by [start_conversation] ends
    (with a plan, an error text or on the pass limit; whatever the endpoint
    answers and the decoder accepts), the transcript starts with the
    instructions of the agent then current and holds no other system
    message: a handoff replaces the system message, it never adds one. *)
Theorem one_system_message (fuel : nat) (user_input : string) (m : Machine World) :
  own_system (self (snd (start_conversation fuel user_input m))).
Proof.
  unfold start_conversation, Travel.start_conversation, mbind, modify_self.
  apply process_request_own_system. unfold own_system.
  cbn [self current_agent messages set_messages].
  eexists. split; [reflexivity|].
  intros s' [Hin|[]]. discriminate Hin.
Qed.

End SystemMessage.
